(** * The kubelet DRA manager: prepare / unprepare orchestration

    A shallow embedding of [pkg/kubelet/cm/dra/manager.go].

    The manager keeps a cache of claim records and drives the resource
    plugins.  Every cache access in the source happens between [Lock] and
    [Unlock] (or inside [withLock] / [withRLock]); the embedding runs one
    manager call at a time, so a locked section is an ordinary state
    transformer and the lock itself is not represented.

    Go maps are finite maps ([gmap]), Go string sets are [gset].  A Go
    [range] over a map visits the entries in an unspecified order: the
    order is taken from the [World] the call runs in.  The API server, the
    plugins and the checkpoint storage are part of that [World] as well. *)

From Stdlib Require Import ZArith.
From stdpp Require Import base option list gmap sets strings.

(** ** Data *)

(** [resourceapi.ResourceHandle] *)
Module ResourceHandle.
Record t := mk {
DriverName : string;
Data : string;
StructuredData : option string;
}.
End ResourceHandle.

(** [resourceapi.ResourceClaim], with the parts of its status the manager
    and its helpers read. *)
Module ResourceClaim.
Record t := mk {
Name : string;
Namespace : string;
UID : string;
DriverName : string;                      (* Status.DriverName *)
ResourceHandles : list ResourceHandle.t;  (* Status.Allocation.ResourceHandles *)
ReservedFor : list string;                (* UIDs in Status.ReservedFor *)
}.
End ResourceClaim.

(** [v1.PodResourceClaim]: the manager reads [Name]; [Source] is only
    passed on to [resourceclaim.Name]. *)
Module PodResourceClaim.
Record t := mk {
Name : string;
Source : option string;
}.
End PodResourceClaim.

(** [v1.Container]: [Claims] are the names in [Resources.Claims]. *)
Module Container.
Record t := mk {
Name : string;
Claims : list string;
}.
End Container.

(** [v1.Pod], with [Spec] flattened. *)
Module Pod.
Record t := mk {
Name : string;
Namespace : string;
UID : string;
ResourceClaims : list PodResourceClaim.t;
InitContainers : list Container.t;
Containers : list Container.t;
}.
End Pod.

(** [drapb.Claim]: one entry of a prepare or unprepare request. *)
Module Claim.
Record t := mk {
Namespace : string;
Uid : string;
Name : string;
ResourceHandle : string;
StructuredResourceHandle : list string;
}.
End Claim.

(** [drapb.NodePrepareResourceResponse] *)
Module PrepareResult.
Record t := mk {
CDIDevices : list string;
Error : string;
}.
End PrepareResult.

(** [drapb.NodeUnprepareResourceResponse] *)
Module UnprepareResult.
Record t := mk {
Error : string;
}.
End UnprepareResult.

(** Modelled from the spec: the [ClaimInfo] struct is declared outside
    [manager.go].  The fields are the ones the manager reads
    ([ClaimUID], [ClaimName], [Namespace], [DriverName],
    [ResourceHandles], [PodUIDs]) and the ones behind its accessors: the
    per-plugin device lists and the [prepared] flag of the data model. *)
Module ClaimInfo.
Record t := mk {
ClaimUID : string;
ClaimName : string;
Namespace : string;
DriverName : string;
ResourceHandles : list ResourceHandle.t;
PodUIDs : gset string;
CDIDevices : gmap string (list string);
prepared : bool;
}.
End ClaimInfo.

(** The cache is keyed by (namespace, claim name). *)
Abbreviation cacheKey := (string * string)%type.
Abbreviation claimInfoCache := (gmap cacheKey ClaimInfo.t).

(** The errors the manager returns, one constructor per [fmt.Errorf] site
    (and one for the error [resourceclaim.IsForPod] hands back). *)
Inductive error :=
  | ErrResolveClaim                         (* resourceclaim.Name failed *)
  | ErrFetchClaim (claimName : string)      (* failed to fetch ResourceClaim *)
  | ErrNotForPod                            (* resourceclaim.IsForPod *)
  | ErrNotReserved (claimName : string)     (* pod is not allowed to use resource claim *)
  | ErrPluginClient (pluginName : string)   (* failed to get DRA Plugin client *)
  | ErrRPC (pluginName : string)            (* Node(Un)PrepareResources failed *)
  | ErrUnknownClaim (claimUID : string)     (* result for unknown claim UID *)
  | ErrClaimFailed (claimUID msg : string)  (* Node(Un)PrepareResources failed for claim *)
  | ErrNoClaimInfo (name ns : string)       (* unable to get claim info *)
  | ErrCDIDevices (pluginName : string)     (* unable to add CDI devices *)
  | ErrLeftOut (unfinished : Z)             (* left out %d claims *)
  | ErrCheckpoint.                          (* failed to checkpoint claimInfo state *)

(** One remote call made to a plugin. *)
Inductive rpc :=
  | NodePrepareResources (pluginName : string) (claims : list Claim.t)
  | NodeUnprepareResources (pluginName : string) (claims : list Claim.t).

(** What [resourceclaim.Name] hands back: an error, or the claim name
    (nil when no claim was generated) with the [mustCheckOwner] flag. *)
Inductive resolved :=
  | ResolveFailed
  | Resolved (claimName : option string) (mustCheckOwner : bool).

(** The collaborators of one manager call. *)
Record World := {
  (* m.kubeClient.ResourceV1alpha2().ResourceClaims(namespace).Get(name);
     None is an error *)
  kubeGet : string → string → option ResourceClaim.t;
  (* dra.NewDRAPluginClient(pluginName) succeeds *)
  NewDRAPluginClient : string → bool;
  (* client.NodePrepareResources: None is an error, the map is
     response.Claims *)
  pluginPrepare : string → list Claim.t → option (gmap string PrepareResult.t);
  (* client.NodeUnprepareResources *)
  pluginUnprepare : string → list Claim.t → option (gmap string UnprepareResult.t);
  (* whether setCDIDevices accepts the device list of a plugin *)
  cdiAccepted : ClaimInfo.t → string → list string → bool;
  (* m.cache.syncToCheckpoint() succeeds *)
  syncToCheckpoint : claimInfoCache → bool;
  (* the order in which a range statement visits the entries of a map *)
  rangeOrder : ∀ A : Type, list (string * A) → list (string * A);
}.

(** A world whose [range] visits every entry of the map once. *)
Definition fair_range (w : World) : Prop :=
  ∀ (A : Type) (l : list (string * A)), rangeOrder w A l ≡ₚ l.

(** [for k, v := range m] *)
Definition rangeMap {A} (w : World) (m : gmap string A) : list (string * A) :=
  rangeOrder w A (map_to_list m).

(** ** A state and error monad for the statements of a call *)

(** A statement runs to its end, returns an error, or panics (a nil
    dereference).  The state reached is kept in all three cases. *)
Inductive outcome (A : Type) :=
  | Done (a : A)
  | Failed (e : error)
  | Panicked.
Arguments Done {A} a.
Arguments Failed {A} e.
Arguments Panicked {A}.

Definition M (S A : Type) : Type := S → outcome A * S.

Definition ret {S A} (a : A) : M S A := λ s, (Done a, s).
Definition fail {S A} (e : error) : M S A := λ s, (Failed e, s).
Definition panic {S A} : M S A := λ s, (Panicked, s).
Definition bind {S A B} (m : M S A) (k : A → M S B) : M S B :=
  λ s, match m s with
       | (Done a, s') => k a s'
       | (Failed e, s') => (Failed e, s')
       | (Panicked, s') => (Panicked, s')
       end.
Definition gets {S A} (f : S → A) : M S A := λ s, (Done (f s), s).
Definition modify {S} (f : S → S) : M S () := λ s, (Done (), f s).

#[global] Instance M_ret {S} : MRet (M S) := λ A, ret.
#[global] Instance M_bind {S} : MBind (M S) := λ A B k m, bind m k.

(** A loop body run over a list, stopping at the first error. *)
Fixpoint forEach {S A} (body : A → M S ()) (l : list A) : M S () :=
  match l with
  | [] => ret ()
  | x :: l' => body x ;; forEach body l'
  end.

(** ** The claim info cache *)

(** Modelled from the spec: the methods of [ClaimInfo] and of
    [claimInfoCache] are defined outside [manager.go].  A record is
    created from the claim descriptor with no pod reference, no device and
    [prepared] false; references are added to and removed from the set;
    [setPrepared] raises the flag; [setCDIDevices] stores the device list
    of one plugin and touches nothing else. *)
Definition newClaimInfoFromClaim (claim : ResourceClaim.t) : ClaimInfo.t :=
  {| ClaimInfo.ClaimUID := ResourceClaim.UID claim;
     ClaimInfo.ClaimName := ResourceClaim.Name claim;
     ClaimInfo.Namespace := ResourceClaim.Namespace claim;
     ClaimInfo.DriverName := ResourceClaim.DriverName claim;
     ClaimInfo.ResourceHandles := ResourceClaim.ResourceHandles claim;
     ClaimInfo.PodUIDs := ∅;
     ClaimInfo.CDIDevices := ∅;
     ClaimInfo.prepared := false |}.

Definition withPodUIDs (f : gset string → gset string) (info : ClaimInfo.t) : ClaimInfo.t :=
  {| ClaimInfo.ClaimUID := ClaimInfo.ClaimUID info;
     ClaimInfo.ClaimName := ClaimInfo.ClaimName info;
     ClaimInfo.Namespace := ClaimInfo.Namespace info;
     ClaimInfo.DriverName := ClaimInfo.DriverName info;
     ClaimInfo.ResourceHandles := ClaimInfo.ResourceHandles info;
     ClaimInfo.PodUIDs := f (ClaimInfo.PodUIDs info);
     ClaimInfo.CDIDevices := ClaimInfo.CDIDevices info;
     ClaimInfo.prepared := ClaimInfo.prepared info |}.

Definition addPodReference (podUID : string) : ClaimInfo.t → ClaimInfo.t :=
  withPodUIDs (λ uids, {[podUID]} ∪ uids).

Definition deletePodReference (podUID : string) : ClaimInfo.t → ClaimInfo.t :=
  withPodUIDs (λ uids, uids ∖ {[podUID]}).

Definition hasPodReference (podUID : string) (info : ClaimInfo.t) : bool :=
  bool_decide (podUID ∈ ClaimInfo.PodUIDs info).

Definition isPrepared (info : ClaimInfo.t) : bool := ClaimInfo.prepared info.

Definition setPrepared (info : ClaimInfo.t) : ClaimInfo.t :=
  {| ClaimInfo.ClaimUID := ClaimInfo.ClaimUID info;
     ClaimInfo.ClaimName := ClaimInfo.ClaimName info;
     ClaimInfo.Namespace := ClaimInfo.Namespace info;
     ClaimInfo.DriverName := ClaimInfo.DriverName info;
     ClaimInfo.ResourceHandles := ClaimInfo.ResourceHandles info;
     ClaimInfo.PodUIDs := ClaimInfo.PodUIDs info;
     ClaimInfo.CDIDevices := ClaimInfo.CDIDevices info;
     ClaimInfo.prepared := true |}.

(** [None] is the error the manager tests for. *)
Definition setCDIDevices (w : World) (pluginName : string) (cdiDevices : list string)
    (info : ClaimInfo.t) : option ClaimInfo.t :=
  if cdiAccepted w info pluginName cdiDevices then
    Some {| ClaimInfo.ClaimUID := ClaimInfo.ClaimUID info;
            ClaimInfo.ClaimName := ClaimInfo.ClaimName info;
            ClaimInfo.Namespace := ClaimInfo.Namespace info;
            ClaimInfo.DriverName := ClaimInfo.DriverName info;
            ClaimInfo.ResourceHandles := ClaimInfo.ResourceHandles info;
            ClaimInfo.PodUIDs := ClaimInfo.PodUIDs info;
            ClaimInfo.CDIDevices := <[pluginName := cdiDevices]> (ClaimInfo.CDIDevices info);
            ClaimInfo.prepared := ClaimInfo.prepared info |}
  else None.

(** Modelled from the spec: [get], [add], [delete] and [hasPodReference]
    of the cache are defined outside [manager.go].  [get] is a pure lookup
    by claim name and namespace, [add] files a record under its own
    namespace and claim name, [delete] removes the entry whatever it
    holds, and [hasPodReference] holds when some cached record references
    the pod.  Every [add] of the manager follows a [get] that found
    nothing, so [add] never meets an existing entry here. *)
Definition cache_get (claimName namespace : string) (c : claimInfoCache) : option ClaimInfo.t :=
  c !! (namespace, claimName).

Definition cache_add (info : ClaimInfo.t) (c : claimInfoCache) : claimInfoCache :=
  <[(ClaimInfo.Namespace info, ClaimInfo.ClaimName info) := info]> c.

Definition cache_delete (claimName namespace : string) (c : claimInfoCache) : claimInfoCache :=
  delete (namespace, claimName) c.

Definition cache_hasPodReference (podUID : string) (c : claimInfoCache) : bool :=
  existsb (λ entry, hasPodReference podUID entry.2) (map_to_list c).

(** A mutation made through the pointer [get] or [add] returned: the
    record filed under that claim name and namespace is replaced by its
    new value. *)
Definition cache_store (claimName namespace : string) (info : ClaimInfo.t)
    (c : claimInfoCache) : claimInfoCache :=
  <[(namespace, claimName) := info]> c.

(** Modelled from the spec: [resourceclaim.IsReservedForPod] belongs to
    another package; the pod is a current reservation holder when its UID
    is listed in the claim's [ReservedFor]. *)
Definition IsReservedForPod (pod : Pod.t) (claim : ResourceClaim.t) : bool :=
  bool_decide (Pod.UID pod ∈ ResourceClaim.ReservedFor claim).

(** ** manager.go *)

Definition lookupClaimRequest (claims : list Claim.t) (claimUID : string) : option Claim.t :=
  find (λ claim, bool_decide (Claim.Uid claim = claimUID)) claims.

Definition claimIsUsedByContainer (podClaim : PodResourceClaim.t) (container : Container.t) : bool :=
  existsb (λ c, bool_decide (c = PodResourceClaim.Name podClaim)) (Container.Claims container).

Definition claimIsUsedByContainers (podClaim : PodResourceClaim.t) (containers : list Container.t) : bool :=
  existsb (claimIsUsedByContainer podClaim) containers.

Definition claimIsUsedByPod (podClaim : PodResourceClaim.t) (pod : Pod.t) : bool :=
  if claimIsUsedByContainers podClaim (Pod.InitContainers pod) then true
  else if claimIsUsedByContainers podClaim (Pod.Containers pod) then true
  else false.

(** The request entry both loops over [claimInfo.ResourceHandles] build. *)
Definition claimRequest (claimInfo : ClaimInfo.t) (resourceHandle : ResourceHandle.t) : Claim.t :=
  {| Claim.Namespace := ClaimInfo.Namespace claimInfo;
     Claim.Uid := ClaimInfo.ClaimUID claimInfo;
     Claim.Name := ClaimInfo.ClaimName claimInfo;
     Claim.ResourceHandle := ResourceHandle.Data resourceHandle;
     Claim.StructuredResourceHandle :=
       match ResourceHandle.StructuredData resourceHandle with
       | Some structured => [structured]
       | None => []
       end |}.

(** [batches[pluginName] = append(batches[pluginName], claim)] *)
Definition appendBatch (pluginName : string) (claim : Claim.t)
    (batches : gmap string (list Claim.t)) : gmap string (list Claim.t) :=
  <[pluginName := default [] (batches !! pluginName) ++ [claim]]> batches.

(** The state of a running [PrepareResources]: the cache, the calls made
    to plugins so far (oldest first), the two local maps and the stack of
    deferred claims (latest first). *)
Record prepareFrame := PrepareFrame {
  p_cache : claimInfoCache;
  p_rpcs : list rpc;
  p_batches : gmap string (list Claim.t);
  p_resourceClaims : gmap string ResourceClaim.t;
  p_deferred : list ResourceClaim.t;
}.

Definition p_setCache (f : claimInfoCache → claimInfoCache) (st : prepareFrame) : prepareFrame :=
  PrepareFrame (f (p_cache st)) (p_rpcs st) (p_batches st) (p_resourceClaims st) (p_deferred st).
Definition p_call (call : rpc) (st : prepareFrame) : prepareFrame :=
  PrepareFrame (p_cache st) (p_rpcs st ++ [call]) (p_batches st) (p_resourceClaims st) (p_deferred st).
Definition p_setBatches (f : gmap string (list Claim.t) → gmap string (list Claim.t))
    (st : prepareFrame) : prepareFrame :=
  PrepareFrame (p_cache st) (p_rpcs st) (f (p_batches st)) (p_resourceClaims st) (p_deferred st).
Definition p_setResourceClaims (f : gmap string ResourceClaim.t → gmap string ResourceClaim.t)
    (st : prepareFrame) : prepareFrame :=
  PrepareFrame (p_cache st) (p_rpcs st) (p_batches st) (f (p_resourceClaims st)) (p_deferred st).
Definition p_defer (claim : ResourceClaim.t) (st : prepareFrame) : prepareFrame :=
  PrepareFrame (p_cache st) (p_rpcs st) (p_batches st) (p_resourceClaims st) (claim :: p_deferred st).

(** The state of a running [UnprepareResources]. *)
Record unprepareFrame := UnprepareFrame {
  u_cache : claimInfoCache;
  u_rpcs : list rpc;
  u_batches : gmap string (list Claim.t);
  u_claimNames : gmap string string;
}.

Definition u_setCache (f : claimInfoCache → claimInfoCache) (st : unprepareFrame) : unprepareFrame :=
  UnprepareFrame (f (u_cache st)) (u_rpcs st) (u_batches st) (u_claimNames st).
Definition u_call (call : rpc) (st : unprepareFrame) : unprepareFrame :=
  UnprepareFrame (u_cache st) (u_rpcs st ++ [call]) (u_batches st) (u_claimNames st).
Definition u_setBatches (f : gmap string (list Claim.t) → gmap string (list Claim.t))
    (st : unprepareFrame) : unprepareFrame :=
  UnprepareFrame (u_cache st) (u_rpcs st) (f (u_batches st)) (u_claimNames st).
Definition u_setClaimNames (f : gmap string string → gmap string string)
    (st : unprepareFrame) : unprepareFrame :=
  UnprepareFrame (u_cache st) (u_rpcs st) (u_batches st) (f (u_claimNames st)).

Section Manager.

(** [resourceclaim.Name] and [resourceclaim.IsForPod] belong to another
  package; they are functions of their arguments.  [IsForPod] is true
  when the source's call returns no error. *)
Variable resourceclaim_Name : Pod.t → PodResourceClaim.t → resolved.
Variable resourceclaim_IsForPod : Pod.t → ResourceClaim.t → bool.

(** *** PrepareResources *)

(** The locked section of the loop over [pod.Spec.ResourceClaims]. *)
Definition prepareLocked (pod : Pod.t) (resourceClaim : ResourceClaim.t) : M prepareFrame () :=
let name := ResourceClaim.Name resourceClaim in
let namespace := ResourceClaim.Namespace resourceClaim in
found ← gets (λ st, cache_get name namespace (p_cache st));
(* claimInfo points at the record filed under name and namespace:
   the one found, or the one just added *)
claimInfo ← match found with
            | Some claimInfo => mret claimInfo
            | None =>
                let claimInfo := newClaimInfoFromClaim resourceClaim in
                modify (p_setCache (cache_add claimInfo));;
                mret claimInfo
            end;
let claimInfo := addPodReference (Pod.UID pod) claimInfo in
modify (p_setCache (cache_store name namespace claimInfo));;
if isPrepared claimInfo then mret ()
else
  modify (p_setResourceClaims <[ClaimInfo.ClaimUID claimInfo := resourceClaim]>);;
  forEach (λ resourceHandle,
      let pluginName := ClaimInfo.DriverName claimInfo in
      let pluginName :=
        if decide (pluginName = ""%string) then ClaimInfo.DriverName claimInfo else pluginName in
      let claim := claimRequest claimInfo resourceHandle in
      modify (p_setBatches (appendBatch pluginName claim)))
    (ClaimInfo.ResourceHandles claimInfo).

(** The body of the loop over [pod.Spec.ResourceClaims]. *)
Definition prepareClaim (w : World) (pod : Pod.t) (podClaim : PodResourceClaim.t) : M prepareFrame () :=
match resourceclaim_Name pod podClaim with
| ResolveFailed => fail ErrResolveClaim
| Resolved None _ => mret ()
| Resolved (Some claimName) mustCheckOwner =>
    match kubeGet w (Pod.Namespace pod) claimName with
    | None => fail (ErrFetchClaim claimName)
    | Some resourceClaim =>
        if mustCheckOwner && negb (resourceclaim_IsForPod pod resourceClaim) then
          fail ErrNotForPod
        else if negb (IsReservedForPod pod resourceClaim) then
          fail (ErrNotReserved claimName)
        else if negb (claimIsUsedByPod podClaim pod) then mret ()
        else
          modify (p_defer resourceClaim);;
          prepareLocked pod resourceClaim
    end
end.

(** The body of the loop over [response.Claims]. *)
Definition prepareResult (w : World) (pluginName : string) (claims : list Claim.t)
  (entry : string * PrepareResult.t) : M prepareFrame () :=
let '(claimUID, result) := entry in
match lookupClaimRequest claims claimUID with
| None => fail (ErrUnknownClaim claimUID)
| Some reqClaim =>
    if decide (PrepareResult.Error result ≠ ""%string) then
      fail (ErrClaimFailed claimUID (PrepareResult.Error result))
    else
      resourceClaims ← gets p_resourceClaims;
      match resourceClaims !! claimUID with
      | None => panic           (* claim is nil and claim.Name reads through it *)
      | Some claim =>
          let name := ResourceClaim.Name claim in
          let namespace := ResourceClaim.Namespace claim in
          found ← gets (λ st, cache_get name namespace (p_cache st));
          match found with
          | None => fail (ErrNoClaimInfo name namespace)
          | Some info =>
              match setCDIDevices w pluginName (PrepareResult.CDIDevices result) info with
              | None => fail (ErrCDIDevices pluginName)
              | Some info' => modify (p_setCache (cache_store name namespace info'))
              end
          end
      end
end.

(** The body of the loop over [batches]. *)
Definition prepareBatch (w : World) (entry : string * list Claim.t) : M prepareFrame () :=
let '(pluginName, claims) := entry in
if negb (NewDRAPluginClient w pluginName) then fail (ErrPluginClient pluginName)
else
  modify (p_call (NodePrepareResources pluginName claims));;
  match pluginPrepare w pluginName claims with
  | None => fail (ErrRPC pluginName)
  | Some response =>
      forEach (prepareResult w pluginName claims) (rangeMap w response);;
      let unfinished := (Z.of_nat (length claims) - Z.of_nat (size response))%Z in
      if decide (unfinished ≠ 0%Z) then fail (ErrLeftOut unfinished) else mret ()
  end.

(** The body of the loop over [resourceClaims] in the last locked
  section. *)
Definition markClaim (entry : string * ResourceClaim.t) : M prepareFrame () :=
let claim := entry.2 in
let name := ResourceClaim.Name claim in
let namespace := ResourceClaim.Namespace claim in
found ← gets (λ st, cache_get name namespace (p_cache st));
match found with
| None => fail (ErrNoClaimInfo name namespace)
| Some info => modify (p_setCache (cache_store name namespace (setPrepared info)))
end.

(** The last locked section: mark the claims prepared and checkpoint. *)
Definition markPrepared (w : World) : M prepareFrame () :=
resourceClaims ← gets p_resourceClaims;
forEach markClaim (rangeMap w resourceClaims);;
c ← gets p_cache;
if syncToCheckpoint w c then mret () else fail ErrCheckpoint.

(** The deferred function of one claim, run when [rerr != nil]. *)
Definition deferredCleanup (pod : Pod.t) (claim : ResourceClaim.t)
  (c : claimInfoCache) : claimInfoCache :=
let name := ResourceClaim.Name claim in
let namespace := ResourceClaim.Namespace claim in
match cache_get name namespace c with
| Some claimInfo => cache_store name namespace (deletePodReference (Pod.UID pod) claimInfo) c
| None => c
end.

(** The loop over [pod.Spec.ResourceClaims]. *)
Definition prepareClaims (w : World) (pod : Pod.t) : M prepareFrame () :=
forEach (prepareClaim w pod) (Pod.ResourceClaims pod).

Definition prepareBody (w : World) (pod : Pod.t) : M prepareFrame () :=
prepareClaims w pod;;
batches ← gets p_batches;
forEach (prepareBatch w) (rangeMap w batches);;
markPrepared w.

(** The deferred functions, latest first. *)
Definition runDeferred (pod : Pod.t) (deferred : list ResourceClaim.t)
  (c : claimInfoCache) : claimInfoCache :=
foldl (λ c claim, deferredCleanup pod claim c) c deferred.

(** The result, the cache the call leaves and the plugin calls it made.
  The deferred functions act only when the call returns an error. *)
Definition PrepareResources (w : World) (pod : Pod.t) (c : claimInfoCache)
  : outcome () * claimInfoCache * list rpc :=
let '(rerr, st) := prepareBody w pod (PrepareFrame c [] ∅ ∅ []) in
let c' := match rerr with
          | Failed _ => runDeferred pod (p_deferred st) (p_cache st)
          | _ => p_cache st
          end in
(rerr, c', p_rpcs st).

(** *** UnprepareResources *)

(** The locked section of the loop over [pod.Spec.ResourceClaims]. *)
Definition unprepareLocked (pod : Pod.t) (claimName : string) : M unprepareFrame () :=
let namespace := Pod.Namespace pod in
found ← gets (λ st, cache_get claimName namespace (u_cache st));
match found with
| None => mret ()
| Some claimInfo =>
    if decide (1 < size (ClaimInfo.PodUIDs claimInfo)) then
      modify (u_setCache
                (cache_store claimName namespace (deletePodReference (Pod.UID pod) claimInfo)))
    else
      modify (u_setClaimNames <[ClaimInfo.ClaimUID claimInfo := ClaimInfo.ClaimName claimInfo]>);;
      forEach (λ resourceHandle,
          let pluginName := ResourceHandle.DriverName resourceHandle in
          let pluginName :=
            if decide (pluginName = ""%string) then ClaimInfo.DriverName claimInfo
            else pluginName in
          let claim := claimRequest claimInfo resourceHandle in
          modify (u_setBatches (appendBatch pluginName claim)))
        (ClaimInfo.ResourceHandles claimInfo)
end.

(** The body of the loop over [pod.Spec.ResourceClaims]. *)
Definition unprepareClaim (pod : Pod.t) (podClaim : PodResourceClaim.t) : M unprepareFrame () :=
match resourceclaim_Name pod podClaim with
| ResolveFailed => fail ErrResolveClaim
| Resolved None _ => mret ()
| Resolved (Some claimName) _ => unprepareLocked pod claimName
end.

(** The body of the loop over [response.Claims]; a UID missing from
  [claimNames] reads as the empty name. *)
Definition unprepareResult (pod : Pod.t) (claims : list Claim.t)
  (entry : string * UnprepareResult.t) : M unprepareFrame () :=
let '(claimUID, result) := entry in
match lookupClaimRequest claims claimUID with
| None => fail (ErrUnknownClaim claimUID)
| Some reqClaim =>
    if decide (UnprepareResult.Error result ≠ ""%string) then
      fail (ErrClaimFailed claimUID (UnprepareResult.Error result))
    else
      claimNames ← gets u_claimNames;
      let claimName := default ""%string (claimNames !! claimUID) in
      modify (u_setCache (cache_delete claimName (Pod.Namespace pod)))
end.

(** The body of the loop over [batches]. *)
Definition unprepareBatch (w : World) (pod : Pod.t) (entry : string * list Claim.t)
  : M unprepareFrame () :=
let '(pluginName, claims) := entry in
if negb (NewDRAPluginClient w pluginName) then fail (ErrPluginClient pluginName)
else
  modify (u_call (NodeUnprepareResources pluginName claims));;
  match pluginUnprepare w pluginName claims with
  | None => fail (ErrRPC pluginName)
  | Some response =>
      forEach (unprepareResult pod claims) (rangeMap w response);;
      let unfinished := (Z.of_nat (length claims) - Z.of_nat (size response))%Z in
      if decide (unfinished ≠ 0%Z) then fail (ErrLeftOut unfinished) else mret ()
  end.

(** The loop over [pod.Spec.ResourceClaims]. *)
Definition unprepareClaims (pod : Pod.t) : M unprepareFrame () :=
forEach (unprepareClaim pod) (Pod.ResourceClaims pod).

Definition unprepareBody (w : World) (pod : Pod.t) : M unprepareFrame () :=
unprepareClaims pod;;
batches ← gets u_batches;
forEach (unprepareBatch w pod) (rangeMap w batches);;
c ← gets u_cache;
if syncToCheckpoint w c then mret () else fail ErrCheckpoint.

(** The result, the cache the call leaves and the plugin calls it made. *)
Definition UnprepareResources (w : World) (pod : Pod.t) (c : claimInfoCache)
  : outcome () * claimInfoCache * list rpc :=
let '(err, st) := unprepareBody w pod (UnprepareFrame c [] ∅ ∅) in
(err, u_cache st, u_rpcs st).

(** *** PodMightNeedToUnprepareResources *)

Definition PodMightNeedToUnprepareResources (UID : string) : M claimInfoCache bool :=
gets (cache_hasPodReference UID).

(** *** GetResources and GetContainerClaimInfos *)

(** [annotationsAsList] and [cdiDevicesAsList] of a record are defined
  outside [manager.go]; the manager only concatenates what they
  return. *)
Variable annotationsAsList : ClaimInfo.t → list (string * string).
Variable cdiDevicesAsList : ClaimInfo.t → list string.

(** The cache with the two slices [GetResources] appends to. *)
Record resourcesFrame := ResourcesFrame {
g_cache : claimInfoCache;
g_annotations : list (string * string);
g_cdiDevices : list string;
}.

Definition GetResourcesBody (pod : Pod.t) (container : Container.t) : M resourcesFrame () :=
forEach (λ podResourceClaim,
    match resourceclaim_Name pod podResourceClaim with
    | ResolveFailed => fail ErrResolveClaim
    | Resolved None _ => mret ()
    | Resolved (Some claimName) _ =>
        forEach (λ claim : string,
            if decide (PodResourceClaim.Name podResourceClaim ≠ claim) then mret ()
            else
              found ← gets (λ st, cache_get claimName (Pod.Namespace pod) (g_cache st));
              match found with
              | None => fail (ErrNoClaimInfo claimName (Pod.Namespace pod))
              | Some claimInfo =>
                  modify (λ st,
                    ResourcesFrame (g_cache st)
                      (g_annotations st ++ annotationsAsList claimInfo)
                      (g_cdiDevices st ++ cdiDevicesAsList claimInfo))
              end)
          (Container.Claims container)
    end)
  (Pod.ResourceClaims pod).

(** The [ContainerInfo] (annotations, CDI devices) or the error, and the
  cache the call leaves. *)
Definition GetResources (pod : Pod.t) (container : Container.t) (c : claimInfoCache)
  : outcome (list (string * string) * list string) * claimInfoCache :=
let '(err, st) := GetResourcesBody pod container (ResourcesFrame c [] []) in
(match err with
 | Done _ => Done (g_annotations st, g_cdiDevices st)
 | Failed e => Failed e
 | Panicked => Panicked
 end, g_cache st).

(** The cache with the slice [GetContainerClaimInfos] appends to. *)
Record claimInfosFrame := ClaimInfosFrame {
i_cache : claimInfoCache;
i_claimInfos : list ClaimInfo.t;
}.

(** [*claimName] is read with no nil test: a nil name panics. *)
Definition GetContainerClaimInfosBody (pod : Pod.t) (container : Container.t)
  : M claimInfosFrame () :=
forEach (λ podResourceClaim,
    match resourceclaim_Name pod podResourceClaim with
    | ResolveFailed => fail ErrResolveClaim
    | Resolved claimName _ =>
        forEach (λ claim : string,
            if decide (PodResourceClaim.Name podResourceClaim ≠ claim) then mret ()
            else
              match claimName with
              | None => panic
              | Some claimName =>
                  found ← gets (λ st, cache_get claimName (Pod.Namespace pod) (i_cache st));
                  match found with
                  | None => fail (ErrNoClaimInfo claimName (Pod.Namespace pod))
                  | Some claimInfo =>
                      (* claimInfo.DeepCopy() is the record's value *)
                      modify (λ st, ClaimInfosFrame (i_cache st) (i_claimInfos st ++ [claimInfo]))
                  end
              end)
          (Container.Claims container)
    end)
  (Pod.ResourceClaims pod).

Definition GetContainerClaimInfos (pod : Pod.t) (container : Container.t) (c : claimInfoCache)
  : outcome (list ClaimInfo.t) * claimInfoCache :=
let '(err, st) := GetContainerClaimInfosBody pod container (ClaimInfosFrame c []) in
(match err with
 | Done _ => Done (i_claimInfos st)
 | Failed e => Failed e
 | Panicked => Panicked
 end, i_cache st).

End Manager.

(** ** Vocabulary of the properties *)

(** The cache entry a claim object is filed under. *)
Definition keyOf (claim : ResourceClaim.t) : cacheKey :=
  (ResourceClaim.Namespace claim, ResourceClaim.Name claim).

(** The claim a request entry names. *)
Definition requestKey (request : Claim.t) : cacheKey :=
  (Claim.Namespace request, Claim.Name request).

(** Every record is filed under its own namespace and claim name. *)
Definition filed_by_name (c : claimInfoCache) : Prop :=
  ∀ key info, c !! key = Some info →
    key = (ClaimInfo.Namespace info, ClaimInfo.ClaimName info).

(** No two records carry the same claim UID. *)
Definition uid_unique (c : claimInfoCache) : Prop :=
  ∀ key1 key2 info1 info2,
    c !! key1 = Some info1 → c !! key2 = Some info2 →
    ClaimInfo.ClaimUID info1 = ClaimInfo.ClaimUID info2 → key1 = key2.

(** The fields of a record that never change after its creation. *)
Definition identity (info : ClaimInfo.t) :=
  (ClaimInfo.ClaimUID info, ClaimInfo.ClaimName info, ClaimInfo.Namespace info,
   ClaimInfo.DriverName info, ClaimInfo.ResourceHandles info).

(** [info'] is [info] after device lists were stored and, possibly, the
    prepared flag was raised. *)
Definition advanced (info info' : ClaimInfo.t) : Prop :=
  identity info' = identity info ∧
  ClaimInfo.PodUIDs info' = ClaimInfo.PodUIDs info ∧
  (ClaimInfo.prepared info = true → ClaimInfo.prepared info' = true).

(** [info'] is [info] after device lists were stored. *)
Definition devices_stored (info info' : ClaimInfo.t) : Prop :=
  identity info' = identity info ∧
  ClaimInfo.PodUIDs info' = ClaimInfo.PodUIDs info ∧
  ClaimInfo.prepared info' = ClaimInfo.prepared info.

(** Two caches with the same keys and related records. *)
Definition related (R : ClaimInfo.t → ClaimInfo.t → Prop) (c c' : claimInfoCache) : Prop :=
  ∀ key, option_Forall2 R (c !! key) (c' !! key).

(** A plugin call that carries a request for the claim filed under [key]. *)
Definition requests (key : cacheKey) (call : rpc) : Prop :=
  match call with
  | NodePrepareResources _ claims | NodeUnprepareResources _ claims =>
      ∃ request, request ∈ claims ∧ requestKey request = key
  end.

(** The plugin a call goes to. *)
Definition calledPlugin (call : rpc) : string :=
  match call with
  | NodePrepareResources pluginName _ | NodeUnprepareResources pluginName _ => pluginName
  end.

(** The claim names a list of claim references resolves to, in order;
    references that resolve to no claim, or fail to resolve, give none. *)
Definition namesOf (resourceclaim_Name : Pod.t → PodResourceClaim.t → resolved)
    (pod : Pod.t) (podClaims : list PodResourceClaim.t) : list string :=
  omap (λ podClaim,
      match resourceclaim_Name pod podClaim with
      | Resolved (Some claimName) _ => Some claimName
      | _ => None
      end)
    podClaims.

(** The claim names the claim references of a pod resolve to. *)
Definition resolvedNames (resourceclaim_Name : Pod.t → PodResourceClaim.t → resolved)
    (pod : Pod.t) : list string :=
  namesOf resourceclaim_Name pod (Pod.ResourceClaims pod).

(** The frame [PrepareResources] is in after the loop over the pod's
    claims, with the result of that loop. *)
Definition afterClaims (resourceclaim_Name : Pod.t → PodResourceClaim.t → resolved)
    (resourceclaim_IsForPod : Pod.t → ResourceClaim.t → bool)
    (w : World) (pod : Pod.t) (c : claimInfoCache) : outcome () * prepareFrame :=
  prepareClaims resourceclaim_Name resourceclaim_IsForPod w pod (PrepareFrame c [] ∅ ∅ []).

(** The claims whose deferred function a [PrepareResources] call
    registers: the claims it adds the pod's reference to. *)
Definition deferredClaims (resourceclaim_Name : Pod.t → PodResourceClaim.t → resolved)
    (resourceclaim_IsForPod : Pod.t → ResourceClaim.t → bool)
    (w : World) (pod : Pod.t) (c : claimInfoCache) : list ResourceClaim.t :=
  p_deferred (afterClaims resourceclaim_Name resourceclaim_IsForPod w pod c).2.

(** The record the locked section of [PrepareResources] works on: the
    cached record, or a fresh one, with the pod's reference. *)
Definition lockedInfo (pod : Pod.t) (claim : ResourceClaim.t) (c : claimInfoCache) : ClaimInfo.t :=
  addPodReference (Pod.UID pod) (default (newClaimInfoFromClaim claim) (c !! keyOf claim)).

(** A request sits in the batch of a plugin. *)
Definition batched (batches : gmap string (list Claim.t)) (pluginName : string)
    (request : Claim.t) : Prop :=
  ∃ claims, batches !! pluginName = Some claims ∧ request ∈ claims.

(** What the loop over the pod's claims of [PrepareResources] maintains,
    for a call of the pod [uid] that started from the cache [c0]. *)
Record prepare_inv (uid : string) (c0 : claimInfoCache) (st : prepareFrame) : Prop := {
  pi_rpcs : p_rpcs st = [];
  pi_cache : ∀ key, p_cache st !! key = c0 !! key ∨
      ∃ claim, claim ∈ p_deferred st ∧ keyOf claim = key ∧
        p_cache st !! key =
          Some (addPodReference uid (default (newClaimInfoFromClaim claim) (c0 !! key)));
  pi_deferred : ∀ claim, claim ∈ p_deferred st →
      ∃ info, p_cache st !! keyOf claim = Some info ∧ uid ∈ ClaimInfo.PodUIDs info;
  pi_batches : ∀ p rq, batched (p_batches st) p rq →
      ∃ key info h, p_cache st !! key = Some info ∧ ClaimInfo.prepared info = false ∧
        h ∈ ClaimInfo.ResourceHandles info ∧ rq = claimRequest info h ∧
        p = ClaimInfo.DriverName info ∧
        is_Some (p_resourceClaims st !! ClaimInfo.ClaimUID info);
  pi_resourceClaims : ∀ u claim, p_resourceClaims st !! u = Some claim →
      ∃ info, p_cache st !! keyOf claim = Some info ∧ ClaimInfo.ClaimUID info = u ∧
        ClaimInfo.prepared info = false;
  pi_queued : ∀ claim info, claim ∈ p_deferred st →
      p_cache st !! keyOf claim = Some info → ClaimInfo.prepared info = false →
      is_Some (p_resourceClaims st !! ClaimInfo.ClaimUID info) ∧
      ∀ h, h ∈ ClaimInfo.ResourceHandles info →
        batched (p_batches st) (ClaimInfo.DriverName info) (claimRequest info h);
}.

(** The call the loop over [batches] of [PrepareResources] makes for one
    entry. *)
Definition prepareCall (entry : string * list Claim.t) : rpc :=
  NodePrepareResources entry.1 entry.2.

(** The parts of the frame the loop over the batches and the last locked
    section leave alone. *)
Definition same_locals (st st' : prepareFrame) : Prop :=
  p_batches st' = p_batches st ∧ p_resourceClaims st' = p_resourceClaims st ∧
  p_deferred st' = p_deferred st.

(** The prepare response to a batch names every claim of the batch and no
    other. *)
Definition complete_response (w : World) (entry : string * list Claim.t) : Prop :=
  ∃ response, pluginPrepare w entry.1 entry.2 = Some response ∧
    size response = length entry.2 ∧
    ∀ result, result ∈ rangeMap w response → ∃ rq, rq ∈ entry.2 ∧ Claim.Uid rq = result.1.

(** [info'] is [info] after a [PrepareResources] call of the pod [uid]:
    the identity is kept, the prepared flag is not lowered, and the
    references of the other pods are the same. *)
Definition kept_by_prepare (uid : string) (info info' : ClaimInfo.t) : Prop :=
  identity info' = identity info ∧
  (ClaimInfo.prepared info = true → ClaimInfo.prepared info' = true) ∧
  ∀ other, other ≠ uid → other ∈ ClaimInfo.PodUIDs info' ↔ other ∈ ClaimInfo.PodUIDs info.

(** [PrepareResources] called time after time, each call on the cache
    the one before left: the plugin calls of all of them. *)
Fixpoint prepareAll (resourceclaim_Name : Pod.t → PodResourceClaim.t → resolved)
    (resourceclaim_IsForPod : Pod.t → ResourceClaim.t → bool)
    (calls : list (World * Pod.t)) (c : claimInfoCache) : list rpc :=
  match calls with
  | [] => []
  | (w, pod) :: calls' =>
      let result := PrepareResources resourceclaim_Name resourceclaim_IsForPod w pod c in
      result.2 ++ prepareAll resourceclaim_Name resourceclaim_IsForPod calls' result.1.2
  end.


(** *** UnprepareResources *)

(** The plugin [UnprepareResources] batches a resource handle under. *)
Definition handlePlugin (claimInfo : ClaimInfo.t) (resourceHandle : ResourceHandle.t) : string :=
  if decide (ResourceHandle.DriverName resourceHandle = ""%string)
  then ClaimInfo.DriverName claimInfo
  else ResourceHandle.DriverName resourceHandle.


Record unprepare_inv (names : list string) (pod : Pod.t) (c0 : claimInfoCache)
    (st : unprepareFrame) : Prop := {
  ui_rpcs : u_rpcs st = [];
  ui_cache : ∀ key, u_cache st !! key = c0 !! key ∨
      (u_cache st !! key = deletePodReference (Pod.UID pod) <$> c0 !! key ∧
       ∃ name, name ∈ names ∧ key = (Pod.Namespace pod, name));
  ui_batches : ∀ p rq, batched (u_batches st) p rq →
      ∃ name info h, name ∈ names ∧ u_cache st !! (Pod.Namespace pod, name) = Some info ∧
        size (ClaimInfo.PodUIDs info) ≤ 1 ∧ h ∈ ClaimInfo.ResourceHandles info ∧
        rq = claimRequest info h ∧ p = handlePlugin info h ∧
        is_Some (u_claimNames st !! ClaimInfo.ClaimUID info);
  ui_claimNames : ∀ u name', u_claimNames st !! u = Some name' →
      ∃ name info, name ∈ names ∧ u_cache st !! (Pod.Namespace pod, name) = Some info ∧
        ClaimInfo.ClaimUID info = u ∧ ClaimInfo.ClaimName info = name' ∧
        size (ClaimInfo.PodUIDs info) ≤ 1;
  ui_seen : ∀ name info, name ∈ names →
      u_cache st !! (Pod.Namespace pod, name) = Some info →
      Pod.UID pod ∉ ClaimInfo.PodUIDs info ∨ size (ClaimInfo.PodUIDs info) ≤ 1;
  ui_first : NoDup names → ∀ name info0, name ∈ names →
      c0 !! (Pod.Namespace pod, name) = Some info0 →
      u_cache st !! (Pod.Namespace pod, name) =
        Some (if decide (1 < size (ClaimInfo.PodUIDs info0))
              then deletePodReference (Pod.UID pod) info0 else info0);
  ui_first_batches : NoDup names → ∀ p rq, batched (u_batches st) p rq →
      ∃ name info0 h, name ∈ names ∧ c0 !! (Pod.Namespace pod, name) = Some info0 ∧
        size (ClaimInfo.PodUIDs info0) ≤ 1 ∧ h ∈ ClaimInfo.ResourceHandles info0 ∧
        rq = claimRequest info0 h;
  ui_first_names : NoDup names → ∀ u name', u_claimNames st !! u = Some name' →
      ∃ name info0, name ∈ names ∧ c0 !! (Pod.Namespace pod, name) = Some info0 ∧
        size (ClaimInfo.PodUIDs info0) ≤ 1 ∧
        ClaimInfo.ClaimUID info0 = u ∧ ClaimInfo.ClaimName info0 = name';
}.


(** A result other than a panic and a checkpoint failure. *)
Definition plain (r : outcome ()) : Prop := r ≠ Panicked ∧ r ≠ Failed ErrCheckpoint.

(** The frame [UnprepareResources] is in after the loop over the pod's
    claims, with the result of that loop. *)
Definition afterUnprepareClaims (resourceclaim_Name : Pod.t → PodResourceClaim.t → resolved)
    (pod : Pod.t) (c : claimInfoCache) : outcome () * unprepareFrame :=
  unprepareClaims resourceclaim_Name pod (UnprepareFrame c [] ∅ ∅).

(** The cache without the entries of some keys. *)
Definition removed (keys : list cacheKey) (c : claimInfoCache) : claimInfoCache :=
  foldl (λ c key, delete key c) c keys.

(** The call the loop over [batches] of [UnprepareResources] makes for
    one entry. *)
Definition unprepareCall (entry : string * list Claim.t) : rpc :=
  NodeUnprepareResources entry.1 entry.2.

(** The entry a successful result for [claimUID] deletes. *)
Definition releasedKey (pod : Pod.t) (claimNames : gmap string string) (claimUID : string)
    : cacheKey :=
  (Pod.Namespace pod, default ""%string (claimNames !! claimUID)).

(** The unprepare response to a batch names every claim of the batch and
    no other. *)
Definition complete_release (w : World) (entry : string * list Claim.t) : Prop :=
  ∃ response, pluginUnprepare w entry.1 entry.2 = Some response ∧
    size response = length entry.2 ∧
    ∀ result, result ∈ rangeMap w response → ∃ rq, rq ∈ entry.2 ∧ Claim.Uid rq = result.1.


(** The entry [key] is deleted for a result of the response to the batch
    [entry]. *)
Definition released_by (w : World) (pod : Pod.t) (claimNames : gmap string string)
    (entry : string * list Claim.t) (key : cacheKey) : Prop :=
  ∃ response result, pluginUnprepare w entry.1 entry.2 = Some response ∧
    result ∈ rangeMap w response ∧
    (∃ rq, rq ∈ entry.2 ∧ Claim.Uid rq = result.1) ∧
    key = releasedKey pod claimNames result.1.

(** ** Example inputs *)
Module Example.
Open Scope string_scope.

(** Claim references resolve to the claim named in their source. *)
Definition resolveBySource (pod : Pod.t) (podClaim : PodResourceClaim.t) : resolved :=
Resolved (PodResourceClaim.Source podClaim) false.

Definition ownedByAll (pod : Pod.t) (claim : ResourceClaim.t) : bool := true.

Definition handle : ResourceHandle.t := ResourceHandle.mk "driver-b" "opaque" None.

(** A claim reserved for three pods, and one reserved for nobody. *)
Definition claimA : ResourceClaim.t :=
ResourceClaim.mk "claim-a" "default" "uid-a" "driver-a" [handle] ["pod-1"; "pod-2"; "pod-3"].
Definition claimB : ResourceClaim.t :=
ResourceClaim.mk "claim-b" "default" "uid-b" "driver-a" [handle] [].

Definition container : Container.t := Container.mk "main" ["a"; "b"].

Definition podWith (uid : string) (claims : list PodResourceClaim.t) : Pod.t :=
Pod.mk uid "default" uid claims [] [container].

Definition refA : PodResourceClaim.t := PodResourceClaim.mk "a" (Some "claim-a").
Definition refB : PodResourceClaim.t := PodResourceClaim.mk "b" (Some "claim-b").

Definition pod1 : Pod.t := podWith "pod-1" [refA].
Definition pod2 : Pod.t := podWith "pod-2" [refA].
Definition pod1AB : Pod.t := podWith "pod-1" [refA; refB].

(** A pod with two claim references that resolve to [claimA]. *)
Definition refA2 : PodResourceClaim.t := PodResourceClaim.mk "a2" (Some "claim-a").
Definition pod1Twice : Pod.t := podWith "pod-1" [refA; refA2].

(** A pod whose claim reference resolves to no claim, while its container
  lists the reference by name. *)
Definition podNil : Pod.t := podWith "pod-1" [PodResourceClaim.mk "a" None].

(** The request built for the one handle of [claimA]. *)
Definition requestA : Claim.t := Claim.mk "default" "uid-a" "claim-a" "opaque" [].

(** Plugins that answer every request in full, and a working checkpoint. *)
Definition world : World := {|
kubeGet := λ _ name,
  if decide (name = "claim-a") then Some claimA
  else if decide (name = "claim-b") then Some claimB else None;
NewDRAPluginClient := λ _, true;
pluginPrepare := λ _ claims,
  Some (list_to_map (map (λ rq, (Claim.Uid rq, PrepareResult.mk ["device-0"] "")) claims));
pluginUnprepare := λ _ claims,
  Some (list_to_map (map (λ rq, (Claim.Uid rq, UnprepareResult.mk "")) claims));
cdiAccepted := λ _ _ _, true;
syncToCheckpoint := λ _, true;
rangeOrder := λ _ entries, entries |}.


(** The world whose checkpoint storage is out of order. *)
Definition brokenStorage : World := {|
kubeGet := kubeGet world;
NewDRAPluginClient := NewDRAPluginClient world;
pluginPrepare := pluginPrepare world;
pluginUnprepare := pluginUnprepare world;
cdiAccepted := cdiAccepted world;
syncToCheckpoint := λ _, false;
rangeOrder := rangeOrder world |}.

(** The record of [claimA], prepared and held by the given pods. *)
Definition heldBy (uids : gset string) : claimInfoCache :=
{[ ("default", "claim-a") :=
     ClaimInfo.mk "uid-a" "claim-a" "default" "driver-a" [handle] uids ∅ true ]}.

(** [pod1AB] prepares while it already holds [claimA]: [claimB] is not
  reserved for it and the call fails. *)
Definition failedRetry : outcome () * claimInfoCache * list rpc :=
PrepareResources resolveBySource ownedByAll world pod1AB (heldBy {["pod-1"; "pod-2"]}).

(** [pod1AB] prepares from an empty cache. *)
Definition rejected : outcome () * claimInfoCache * list rpc :=
PrepareResources resolveBySource ownedByAll world pod1AB ∅.


(** [pod1] is the first to prepare [claimA], [pod2] the second. *)
Definition firstPrepare : outcome () * claimInfoCache * list rpc :=
PrepareResources resolveBySource ownedByAll world pod1 ∅.
Definition secondPrepare : outcome () * claimInfoCache * list rpc :=
PrepareResources resolveBySource ownedByAll world pod2 firstPrepare.1.2.

(** [pod1] unprepares [claimA] while two, one or no other pod holds it. *)
Definition unprepareOfThree : outcome () * claimInfoCache * list rpc :=
UnprepareResources resolveBySource world pod1 (heldBy {["pod-1"; "pod-2"; "pod-3"]}).
Definition unprepareOfTwo : outcome () * claimInfoCache * list rpc :=
UnprepareResources resolveBySource world pod1 (heldBy {["pod-1"; "pod-2"]}).
Definition unprepareOfOne : outcome () * claimInfoCache * list rpc :=
UnprepareResources resolveBySource world pod1 (heldBy {["pod-1"]}).

(** [pod1] unprepares [claimA] a second time, [pod2] still holding it. *)
Definition unprepareAgain : outcome () * claimInfoCache * list rpc :=
UnprepareResources resolveBySource world pod1 unprepareOfTwo.1.2.

(** [pod1Twice] unprepares [claimA] while [pod2] holds it too. *)
Definition unprepareTwice : outcome () * claimInfoCache * list rpc :=
UnprepareResources resolveBySource world pod1Twice (heldBy {["pod-1"; "pod-2"]}).

(** [pod1] releases [claimA] and the checkpoint cannot be written. *)
Definition unsavedUnprepare : outcome () * claimInfoCache * list rpc :=
UnprepareResources resolveBySource brokenStorage pod1 (heldBy {["pod-1"]}).

End Example.
(** * Properties *)

(** ** Statements of the monad *)

Ltac munfold :=
  unfold mbind, mret, M_bind, M_ret, bind, ret, gets, modify, fail, panic in *.

Ltac uproj :=
  cbn [u_cache u_rpcs u_batches u_claimNames
       u_setCache u_call u_setBatches u_setClaimNames] in *.

Ltac pproj :=
  cbn [p_cache p_rpcs p_batches p_resourceClaims p_deferred
       p_setCache p_call p_setBatches p_setResourceClaims p_defer] in *.

Lemma forEach_modify {S A} (f : A → S → S) (l : list A) (s : S) :
  forEach (λ x, modify (f x)) l s = (Done (), foldl (λ s x, f x s) s l).
Proof.
  revert s. induction l as [|x l IH]; intros s; simpl; [done|].
  munfold. simpl. apply IH.
Qed.

Lemma forEach_app {S A} (body : A → M S ()) (l1 l2 : list A) (s : S) :
  forEach body (l1 ++ l2) s =
  match forEach body l1 s with
  | (Done _, s') => forEach body l2 s'
  | other => other
  end.
Proof.
  revert s. induction l1 as [|x l1 IH]; intros s; simpl; [done|].
  munfold. destruct (body x s) as [[[]|e|] s']; simpl; auto.
Qed.

(** An invariant of the loop body is an invariant of the loop. *)
Lemma forEach_inv {S A} (I : S → Prop) (body : A → M S ()) (l : list A) :
  (∀ x s, x ∈ l → I s → I (body x s).2) →
  ∀ s, I s → I (forEach body l s).2.
Proof.
  induction l as [|x l IH]; intros Hbody s Hs; simpl; [done|].
  munfold.
  pose proof (Hbody x s (list_elem_of_here _ _) Hs) as Hx.
  destruct (body x s) as [[[]|e|] s']; simpl in *; auto.
  apply IH; auto. intros y s0 Hy. apply Hbody. by apply list_elem_of_further.
Qed.

(** A loop that ends normally ran its body normally on every element, and
    an invariant of those runs holds at the end. *)
Lemma forEach_done_inv {S A} (I : S → Prop) (body : A → M S ()) (l : list A) :
  (∀ x s s', x ∈ l → I s → body x s = (Done (), s') → I s') →
  ∀ s s', I s → forEach body l s = (Done (), s') → I s'.
Proof.
  induction l as [|x l IH]; intros Hbody s s' Hs Hrun; simpl in Hrun.
  - munfold. by simplify_eq.
  - munfold. destruct (body x s) as [[[]|e|] s1] eqn:Hx; simplify_eq.
    eapply IH; [|eapply Hbody; [apply list_elem_of_here|done..]|done].
    intros y s0 s0' Hy. apply Hbody. by apply list_elem_of_further.
Qed.

(** A loop whose body never panics does not panic. *)
Lemma forEach_no_panic {S A} (I : S → Prop) (body : A → M S ()) (l : list A) :
  (∀ x s, x ∈ l → I s → (body x s).1 ≠ Panicked ∧ I (body x s).2) →
  ∀ s, I s → (forEach body l s).1 ≠ Panicked.
Proof.
  induction l as [|x l IH]; intros Hbody s Hs; simpl; [done|].
  munfold.
  destruct (Hbody x s (list_elem_of_here _ _) Hs) as [Hx1 Hx2].
  destruct (body x s) as [[[]|e|] s']; simpl in *; try done.
  apply IH; auto. intros y s0 Hy. apply Hbody. by apply list_elem_of_further.
Qed.

Lemma forEach_pure {S A} (f : A → S → S) (l : list A) (s : S) :
  forEach (λ x s, (Done (), f x s)) l s = (Done (), foldl (λ s x, f x s) s l).
Proof. apply (forEach_modify f). Qed.

Lemma foldl_p_setBatches {A} (f : A → gmap string (list Claim.t) → gmap string (list Claim.t)) l st :
  foldl (λ s x, p_setBatches (f x) s) st l =
  p_setBatches (λ b, foldl (λ b x, f x b) b l) st.
Proof.
  revert st. induction l as [|x l IH]; intros st; simpl.
  - by destruct st.
  - rewrite IH. by destruct st.
Qed.

Section PreparePhase1.
Context (nm : Pod.t → PodResourceClaim.t → resolved) (fp : Pod.t → ResourceClaim.t → bool).

Lemma prepareLocked_run pod claim st :
let info := lockedInfo pod claim (p_cache st) in
∃ st', prepareLocked pod claim st = (Done (), st') ∧
  p_cache st' = <[keyOf claim := info]> (p_cache st) ∧
  p_rpcs st' = p_rpcs st ∧
  p_deferred st' = p_deferred st ∧
  p_resourceClaims st' =
    (if isPrepared info then p_resourceClaims st
     else <[ClaimInfo.ClaimUID info := claim]> (p_resourceClaims st)) ∧
  p_batches st' =
    (if isPrepared info then p_batches st
     else foldl (λ b h, appendBatch (ClaimInfo.DriverName info) (claimRequest info h) b)
            (p_batches st) (ClaimInfo.ResourceHandles info)).
Proof.
intros info. unfold prepareLocked. munfold. unfold cache_get.
fold (keyOf claim). unfold info, lockedInfo.
assert (Hc : ∀ i, cache_store (ResourceClaim.Name claim) (ResourceClaim.Namespace claim) i
            (cache_add (newClaimInfoFromClaim claim) (p_cache st))
          = <[keyOf claim := i]> (p_cache st)).
{ intros i. unfold cache_store, cache_add. cbn. apply insert_insert_eq. }
destruct (p_cache st !! keyOf claim) as [old|] eqn:Hget;
  cbn [from_option]; unfold id; cbv beta zeta;
  match goal with |- context [isPrepared ?i] => set (info' := i) end;
  destruct (isPrepared info') eqn:Hp.
- eexists; split; [reflexivity|]. done.
- destruct (decide (ClaimInfo.DriverName info' = ""%string));
    rewrite forEach_pure, foldl_p_setBatches; (eexists; split; [reflexivity|]); done.
- eexists; split; [reflexivity|]. pproj. rewrite Hc. done.
- destruct (decide (ClaimInfo.DriverName info' = ""%string));
    rewrite forEach_pure, foldl_p_setBatches; (eexists; split; [reflexivity|]);
    pproj; rewrite Hc; done.
Qed.
End PreparePhase1.

Lemma batched_appendBatch batches p rq q x :
  batched (appendBatch p rq batches) q x ↔ batched batches q x ∨ (q = p ∧ x = rq).
Proof.
  unfold batched, appendBatch. destruct (decide (p = q)) as [->|Hne].
  - rewrite lookup_insert_eq. split.
    + intros (claims & [= <-] & Hin). apply elem_of_app in Hin as [Hin|Hin].
      * left. destruct (batches !! q) as [old|]; [eauto|]. by apply elem_of_nil in Hin.
      * right. apply list_elem_of_singleton in Hin. done.
    + intros [(claims & Hb & Hin)|[_ ->]]; eexists; split; try done.
      * rewrite Hb. apply elem_of_app. by left.
      * apply elem_of_app. right. by apply list_elem_of_singleton.
  - rewrite lookup_insert_ne by done. split; [eauto|]. intros [?|[? ?]]; [done|congruence].
Qed.

Lemma batched_foldl {A} (f : A → Claim.t) batches p (l : list A) q x :
  batched (foldl (λ b h, appendBatch p (f h) b) batches l) q x ↔
  batched batches q x ∨ (q = p ∧ ∃ h, h ∈ l ∧ x = f h).
Proof.
  revert batches. induction l as [|h l IH]; intros batches; simpl.
  - split; [eauto|]. intros [?|(_ & h & Hin & _)]; [done|]. by apply elem_of_nil in Hin.
  - rewrite IH, batched_appendBatch. split.
    + intros [[?|[-> ->]]|(-> & h' & Hin & ->)]; eauto.
      * right. split; [done|]. exists h. split; [apply list_elem_of_here|done].
      * right. split; [done|]. exists h'. split; [by apply list_elem_of_further|done].
    + intros [?|(-> & h' & Hin & ->)]; [eauto|].
      apply elem_of_cons in Hin as [->|Hin]; [by left; right|].
      right. eauto.
Qed.

Lemma addPodReference_idemp uid info :
  addPodReference uid (addPodReference uid info) = addPodReference uid info.
Proof.
  destruct info. unfold addPodReference, withPodUIDs. cbn. f_equal. apply set_eq. set_solver.
Qed.

Section PreparePhase1b.
Context (nm : Pod.t → PodResourceClaim.t → resolved) (fp : Pod.t → ResourceClaim.t → bool).

(** What one turn of the first loop does: it stops with an error, skips
  the claim, or registers the deferred function and runs the locked
  section. *)
Lemma prepareClaim_run w pod podClaim st :
(∃ e, prepareClaim nm fp w pod podClaim st = (Failed e, st)) ∨
prepareClaim nm fp w pod podClaim st = (Done (), st) ∨
(∃ claimName mustCheckOwner claim,
    nm pod podClaim = Resolved (Some claimName) mustCheckOwner ∧
    kubeGet w (Pod.Namespace pod) claimName = Some claim ∧
    IsReservedForPod pod claim = true ∧
    claimIsUsedByPod podClaim pod = true ∧
    prepareClaim nm fp w pod podClaim st = prepareLocked pod claim (p_defer claim st)).
Proof.
unfold prepareClaim.
destruct (nm pod podClaim) as [|[claimName|] mco] eqn:Hnm; [left; by eexists|..|by right; left].
destruct (kubeGet w (Pod.Namespace pod) claimName) as [claim|] eqn:Hget; [|left; by eexists].
destruct (mco && negb (fp pod claim)); [left; by eexists|].
destruct (IsReservedForPod pod claim) eqn:Hres; [|left; by eexists]. cbn [negb].
destruct (claimIsUsedByPod podClaim pod) eqn:Hused; [|by right; left]. cbn [negb].
right; right. exists claimName, mco, claim. done.
Qed.

Lemma prepareClaim_inv w pod c0 podClaim st :
prepare_inv (Pod.UID pod) c0 st →
prepare_inv (Pod.UID pod) c0 (prepareClaim nm fp w pod podClaim st).2.
Proof.
intros Hinv.
destruct (prepareClaim_run w pod podClaim st)
  as [[e ->]|[->|(claimName & mco & claim & _ & _ & _ & _ & ->)]]; [exact Hinv..|].
destruct (prepareLocked_run pod claim (p_defer claim st))
  as (st' & -> & Hcache & Hrpcs & Hdef & Hrc & Hb).
cbn [snd]. pproj.
set (uid := Pod.UID pod) in *. set (key := keyOf claim) in *.
set (info := lockedInfo pod claim (p_cache st)) in *.
destruct Hinv as [I1 I2 I3 I4 I5 I6].
(* every old record is still there, up to the pod reference *)
assert (Hkeep : ∀ k old, p_cache st !! k = Some old →
          ∃ new, p_cache st' !! k = Some new ∧ identity new = identity old ∧
            ClaimInfo.prepared new = ClaimInfo.prepared old ∧
            (uid ∈ ClaimInfo.PodUIDs old → uid ∈ ClaimInfo.PodUIDs new)).
{ intros k old Hk. rewrite Hcache. destruct (decide (key = k)) as [<-|Hne].
  - rewrite lookup_insert_eq. eexists; split; [done|].
    unfold info, lockedInfo. fold key. rewrite Hk. cbn. repeat split. set_solver.
  - rewrite lookup_insert_ne by done. eauto. }
assert (Hnew : p_cache st' !! key = Some info) by (rewrite Hcache; apply lookup_insert_eq).
assert (Hinfo : ∀ old, p_cache st !! key = Some old →
          identity info = identity old ∧ ClaimInfo.prepared info = ClaimInfo.prepared old).
{ intros old Hk. unfold info, lockedInfo. fold key. rewrite Hk. done. }
split.
- by rewrite Hrpcs.
- intros k. rewrite Hcache, Hdef. destruct (decide (key = k)) as [<-|Hne].
  + rewrite lookup_insert_eq. right.
    destruct (I2 key) as [Hsame|(claim' & Hin & Hkey & Hrec)].
    * exists claim. split; [apply list_elem_of_here|]. split; [done|].
      unfold info, lockedInfo. fold key. by rewrite Hsame.
    * exists claim'. split; [by apply list_elem_of_further|]. split; [done|].
      unfold info, lockedInfo. fold key uid. rewrite Hrec. cbn [default from_option id].
      by rewrite addPodReference_idemp.
  + rewrite lookup_insert_ne by done.
    destruct (I2 k) as [Hsame|(claim' & Hin & Hkey & Hrec)]; [by left|].
    right. exists claim'. split; [by apply list_elem_of_further|done].
- intros claim' Hin. rewrite Hdef in Hin. apply elem_of_cons in Hin as [->|Hin].
  + exists info. split; [done|]. unfold info, lockedInfo. cbn. set_solver.
  + destruct (I3 claim' Hin) as (old & Hk & Hu).
    destruct (Hkeep _ _ Hk) as (new & ? & _ & _ & ?). eauto.
- intros p rq Hbat. rewrite Hb in Hbat. rewrite Hrc.
  destruct (isPrepared info) eqn:Hprep.
  + destruct (I4 p rq Hbat) as (k & old & h & Hk & Hp & Hh & -> & -> & Hsome).
    destruct (Hkeep _ _ Hk) as (new & Hk' & Hid & Hp' & _).
    exists k, new, h. injection Hid as Hid1 Hid2 Hid3 Hid4 Hid5.
    split; [done|]. split; [congruence|]. split; [congruence|].
    split; [unfold claimRequest; congruence|]. split; [congruence|]. congruence.
  + apply batched_foldl in Hbat as [Hbat|(-> & h & Hh & ->)].
    * destruct (I4 p rq Hbat) as (k & old & h & Hk & Hp & Hh & -> & -> & Hsome).
      destruct (Hkeep _ _ Hk) as (new & Hk' & Hid & Hp' & _).
      exists k, new, h. injection Hid as Hid1 Hid2 Hid3 Hid4 Hid5.
      split; [done|]. split; [congruence|]. split; [congruence|].
      split; [unfold claimRequest; congruence|]. split; [congruence|].
      rewrite Hid1. destruct (decide (ClaimInfo.ClaimUID info = ClaimInfo.ClaimUID old)) as [->|?].
      -- rewrite lookup_insert_eq. eauto.
      -- by rewrite lookup_insert_ne.
    * exists key, info, h. rewrite lookup_insert_eq. eauto 10.
- intros u claim' Hlook. rewrite Hrc in Hlook.
  assert (Hold : p_resourceClaims st !! u = Some claim' →
            ∃ info0, p_cache st' !! keyOf claim' = Some info0 ∧
              ClaimInfo.ClaimUID info0 = u ∧ ClaimInfo.prepared info0 = false).
  { intros Hl. destruct (I5 _ _ Hl) as (old & Hk & Hu & Hp).
    destruct (Hkeep _ _ Hk) as (new & Hk' & Hid & Hp' & _).
    exists new. injection Hid as Hid1 _ _ _ _. split; [done|]. split; congruence. }
  destruct (isPrepared info) eqn:Hprep; [eauto|].
  destruct (decide (ClaimInfo.ClaimUID info = u)) as [<-|Hne].
  + rewrite lookup_insert_eq in Hlook. injection Hlook as <-. eauto.
  + rewrite lookup_insert_ne in Hlook by done. eauto.
- intros claim' info' Hin Hk' Hp'. rewrite Hdef in Hin. rewrite Hrc, Hb.
  destruct (decide (keyOf claim' = key)) as [Heq|Hne].
  + rewrite Heq, Hnew in Hk'. injection Hk' as <-.
    unfold isPrepared. rewrite Hp'. rewrite lookup_insert_eq. split; [eauto|].
    intros h Hh. apply batched_foldl. right. eauto.
  + rewrite Hcache, lookup_insert_ne in Hk' by done.
    apply elem_of_cons in Hin as [->|Hin]; [done|].
    destruct (I6 _ _ Hin Hk' Hp') as [Hsome Hall].
    destruct (isPrepared info) eqn:Hprep; [done|]. split.
    * destruct (decide (ClaimInfo.ClaimUID info = ClaimInfo.ClaimUID info')) as [->|?].
      -- rewrite lookup_insert_eq. eauto.
      -- by rewrite lookup_insert_ne.
    * intros h Hh. apply batched_foldl. left. eauto.
Qed.
End PreparePhase1b.

Lemma related_refl R c : (∀ info, R info info) → related R c c.
Proof. intros HR key. destruct (c !! key); constructor. apply HR. Qed.

Lemma related_trans R c1 c2 c3 :
  (∀ i1 i2 i3, R i1 i2 → R i2 i3 → R i1 i3) →
  related R c1 c2 → related R c2 c3 → related R c1 c3.
Proof.
  intros HR H12 H23 key. specialize (H12 key). specialize (H23 key).
  destruct H12; inversion H23; subst; constructor. eauto.
Qed.

Lemma related_store R c name ns info info' :
  (∀ info, R info info) →
  cache_get name ns c = Some info → R info info' →
  related R c (cache_store name ns info' c).
Proof.
  intros HR Hget Hinfo key. unfold cache_store, cache_get in *.
  destruct (decide ((ns, name) = key)) as [<-|Hne].
  - rewrite lookup_insert_eq, Hget. by constructor.
  - rewrite lookup_insert_ne by done. destruct (c !! key); constructor. apply HR.
Qed.

Lemma devices_stored_refl info : devices_stored info info.
Proof. done. Qed.

Lemma devices_stored_trans i1 i2 i3 :
  devices_stored i1 i2 → devices_stored i2 i3 → devices_stored i1 i3.
Proof. unfold devices_stored. intros (?&?&?) (?&?&?). repeat split; congruence. Qed.

Lemma setCDIDevices_stored w p devices info info' :
  setCDIDevices w p devices info = Some info' → devices_stored info info'.
Proof. unfold setCDIDevices. destruct (cdiAccepted _ _ _ _); [|done]. by intros [= <-]. Qed.

Lemma lookupClaimRequest_Some claims uid rq :
  lookupClaimRequest claims uid = Some rq → rq ∈ claims ∧ Claim.Uid rq = uid.
Proof.
  unfold lookupClaimRequest. intros H. apply find_some in H as [Hin Hb].
  split; [by apply list_elem_of_In|]. by apply bool_decide_eq_true in Hb.
Qed.

Lemma lookupClaimRequest_None claims uid rq :
  lookupClaimRequest claims uid = None → rq ∈ claims → Claim.Uid rq ≠ uid.
Proof.
  unfold lookupClaimRequest. intros H Hin Heq.
  eapply find_none in H; [|by apply list_elem_of_In]. cbn in H.
  by apply bool_decide_eq_false in H.
Qed.

Section PreparePhase2.
Context (w : World).

Lemma prepareResult_run p claims entry st :
let r := prepareResult w p claims entry st in
related devices_stored (p_cache st) (p_cache r.2) ∧ same_locals st r.2 ∧
p_rpcs r.2 = p_rpcs st ∧
(r.1 = Done () → ∃ rq, rq ∈ claims ∧ Claim.Uid rq = entry.1) ∧
((∀ rq, rq ∈ claims → is_Some (p_resourceClaims st !! Claim.Uid rq)) → r.1 ≠ Panicked).
Proof.
destruct entry as [uid result]. unfold prepareResult. munfold.
pose proof (related_refl devices_stored (p_cache st) devices_stored_refl) as Hrefl.
destruct (lookupClaimRequest claims uid) as [rq|] eqn:Hreq; [|by cbn].
apply lookupClaimRequest_Some in Hreq as [Hin Huid].
destruct (decide (PrepareResult.Error result ≠ ""%string)); [by cbn|].
destruct (p_resourceClaims st !! uid) as [claim|] eqn:Hclaim.
2:{ cbn. repeat split; try done. intros Hall. destruct (Hall rq Hin) as [? ?]. congruence. }
destruct (cache_get _ _ (p_cache st)) as [info|] eqn:Hget; [|by cbn].
destruct (setCDIDevices w p _ info) as [info'|] eqn:Hset; [|by cbn].
cbn. repeat split; eauto.
eapply related_store; [apply devices_stored_refl|done|by eapply setCDIDevices_stored].
Qed.

Lemma prepareResults_run p claims entries st :
let r := forEach (prepareResult w p claims) entries st in
related devices_stored (p_cache st) (p_cache r.2) ∧ same_locals st r.2 ∧
p_rpcs r.2 = p_rpcs st ∧
(r.1 = Done () → ∀ entry, entry ∈ entries → ∃ rq, rq ∈ claims ∧ Claim.Uid rq = entry.1) ∧
((∀ rq, rq ∈ claims → is_Some (p_resourceClaims st !! Claim.Uid rq)) → r.1 ≠ Panicked).
Proof.
revert st. induction entries as [|entry entries IH]; intros st; cbn.
- repeat split; try done.
  + apply related_refl, devices_stored_refl.
  + intros _ entry Hin. by apply elem_of_nil in Hin.
- munfold. destruct (prepareResult_run p claims entry st) as (Hc & Hl & Hr & Hd & Hp).
  destruct (prepareResult w p claims entry st) as [[[]|e|] st1]; cbn in *.
  + destruct (IH st1) as (Hc' & Hl' & Hr' & Hd' & Hp').
    destruct Hl as (Hl1 & Hl2 & Hl3), Hl' as (Hl1' & Hl2' & Hl3').
    split; [eapply related_trans; [apply devices_stored_trans|done..]|].
    split; [repeat split; congruence|]. split; [congruence|]. split.
    * intros Hdone entry' Hin. apply elem_of_cons in Hin as [->|Hin]; eauto.
    * intros Hall. apply Hp'. by rewrite Hl2.
  + split_and!; done.
  + split_and!; done.
Qed.
End PreparePhase2.

Section PreparePhase2b.
Context (w : World).

Lemma prepareBatch_run entry st :
let r := prepareBatch w entry st in
related devices_stored (p_cache st) (p_cache r.2) ∧ same_locals st r.2 ∧
(p_rpcs r.2 = p_rpcs st ∨ p_rpcs r.2 = p_rpcs st ++ [prepareCall entry]) ∧
(r.1 = Done () →
   p_rpcs r.2 = p_rpcs st ++ [prepareCall entry] ∧ complete_response w entry) ∧
((∀ rq, rq ∈ entry.2 → is_Some (p_resourceClaims st !! Claim.Uid rq)) →
   r.1 ≠ Panicked).
Proof.
destruct entry as [p claims]. unfold prepareBatch, complete_response, prepareCall.
pose proof (related_refl devices_stored (p_cache st) devices_stored_refl) as Hrefl.
destruct (NewDRAPluginClient w p); cbn [negb]; [|split_and!; by auto].
munfold. cbn [fst snd].
destruct (pluginPrepare w p claims) as [response|] eqn:Hresp; [|split_and!; by auto].
set (st1 := p_call (NodePrepareResources p claims) st).
destruct (prepareResults_run w p claims (rangeMap w response) st1)
  as (Hc & Hl & Hr & Hd & Hp).
destruct (forEach (prepareResult w p claims) (rangeMap w response) st1)
  as [[[]|e|] st2]; cbn [fst snd] in *.
- destruct (decide _) as [Hne|Heq]; cbn [fst snd].
  + split_and!; by auto.
  + split_and!; auto. split; [done|]. exists response. split; [done|].
    split; [|by apply Hd]. apply dec_stable in Heq. lia.
- split_and!; by auto.
- split_and!; by auto.
Qed.

Lemma prepareBatches_run entries st :
let r := forEach (prepareBatch w) entries st in
related devices_stored (p_cache st) (p_cache r.2) ∧ same_locals st r.2 ∧
(∃ called rest, entries = called ++ rest ∧
    p_rpcs r.2 = p_rpcs st ++ map prepareCall called ∧
    (r.1 = Done () → rest = [])) ∧
(r.1 = Done () → ∀ entry, entry ∈ entries → complete_response w entry) ∧
((∀ entry rq, entry ∈ entries → rq ∈ entry.2 →
     is_Some (p_resourceClaims st !! Claim.Uid rq)) → r.1 ≠ Panicked).
Proof.
revert st. induction entries as [|entry entries IH]; intros st; cbn.
- split_and!; try done.
  + apply related_refl, devices_stored_refl.
  + exists [], []. cbn. rewrite app_nil_r. done.
  + intros _ entry Hin. by apply elem_of_nil in Hin.
- munfold. destruct (prepareBatch_run entry st) as (Hc & Hl & Hr & Hd & Hp).
  destruct (prepareBatch w entry st) as [[[]|e|] st1]; cbn [fst snd] in *.
  + destruct (IH st1) as (Hc' & Hl' & (called & rest & -> & Hr' & Hrest) & Hd' & Hp').
    destruct Hl as (Hl1 & Hl2 & Hl3), Hl' as (Hl1' & Hl2' & Hl3').
    destruct (Hd eq_refl) as [Hcall Hcomplete].
    split; [eapply related_trans; [apply devices_stored_trans|done..]|].
    split; [repeat split; congruence|]. split_and!.
    * exists (entry :: called), rest. split; [done|]. split; [|done].
      rewrite Hr', Hcall. cbn. by rewrite <- app_assoc.
    * intros Hdone entry' Hin. apply elem_of_cons in Hin as [->|Hin]; eauto.
    * intros Hall. apply Hp'. intros entry' rq Hin Hrq. rewrite Hl2.
      eapply Hall; [by apply list_elem_of_further|done].
  + split_and!; try done. destruct Hr as [Hr|Hr].
    * exists [], (entry :: entries). rewrite Hr, app_nil_r. done.
    * exists [entry], entries. done.
  + split_and!; try done.
    * destruct Hr as [Hr|Hr].
      -- exists [], (entry :: entries). rewrite Hr, app_nil_r. done.
      -- exists [entry], entries. done.
    * intros Hall. apply Hp. intros rq Hrq. eapply Hall; [apply list_elem_of_here|done].
Qed.
End PreparePhase2b.

Lemma advanced_refl info : advanced info info.
Proof. done. Qed.

Lemma advanced_trans i1 i2 i3 : advanced i1 i2 → advanced i2 i3 → advanced i1 i3.
Proof. unfold advanced. intros (?&?&?) (?&?&?). split_and!; [congruence..|auto]. Qed.

Lemma devices_stored_advanced i1 i2 : devices_stored i1 i2 → advanced i1 i2.
Proof. unfold advanced, devices_stored. intros (?&?&?). split_and!; [congruence..|]. congruence. Qed.

Lemma related_impl (R R' : ClaimInfo.t → ClaimInfo.t → Prop) c c' :
  (∀ i i', R i i' → R' i i') → related R c c' → related R' c c'.
Proof. intros HR H key. destruct (H key); constructor; auto. Qed.

Lemma related_lookup R c c' key info :
  related R c c' → c !! key = Some info → ∃ info', c' !! key = Some info' ∧ R info info'.
Proof. intros H Hk. specialize (H key). rewrite Hk in H. inversion H; eauto. Qed.

Lemma related_lookup_r R c c' key info' :
  related R c c' → c' !! key = Some info' → ∃ info, c !! key = Some info ∧ R info info'.
Proof. intros H Hk. specialize (H key). rewrite Hk in H. inversion H; eauto. Qed.

Lemma related_lookup_None R c c' key :
  related R c c' → c !! key = None ↔ c' !! key = None.
Proof. intros H. specialize (H key). split; intros Hk; rewrite Hk in H; by inversion H. Qed.

Section PreparePhase3.
Context (w : World).

Lemma markClaim_run entry st :
let r := markClaim entry st in
related advanced (p_cache st) (p_cache r.2) ∧ same_locals st r.2 ∧
p_rpcs r.2 = p_rpcs st ∧ r.1 ≠ Panicked ∧
(r.1 = Done () →
   ∃ info, p_cache r.2 !! keyOf entry.2 = Some info ∧ ClaimInfo.prepared info = true).
Proof.
unfold markClaim. munfold.
destruct (cache_get _ _ (p_cache st)) as [info|] eqn:Hget; cbn [fst snd]; pproj.
- split_and!; try done.
  + eapply related_store; [apply advanced_refl|done|done].
  + intros _. exists (setPrepared info). split; [|done].
    unfold cache_store, keyOf. apply lookup_insert_eq.
- split_and!; try done. apply related_refl, advanced_refl.
Qed.

Lemma markClaims_run entries st :
let r := forEach markClaim entries st in
related advanced (p_cache st) (p_cache r.2) ∧ same_locals st r.2 ∧
p_rpcs r.2 = p_rpcs st ∧ r.1 ≠ Panicked ∧
(r.1 = Done () → ∀ entry, entry ∈ entries →
   ∃ info, p_cache r.2 !! keyOf entry.2 = Some info ∧ ClaimInfo.prepared info = true).
Proof.
revert st. induction entries as [|entry entries IH]; intros st; cbn.
- split_and!; try done.
  + apply related_refl, advanced_refl.
  + intros _ entry Hin. by apply elem_of_nil in Hin.
- munfold.
  destruct (markClaim_run entry st) as (Hc & Hl & Hr & Hp & Hd).
  destruct (markClaim entry st) as [[[]|e|] st1]; cbn [fst snd] in *; [|done..].
  destruct (IH st1) as (Hc' & Hl' & Hr' & Hp' & Hd').
  destruct Hl as (Hl1 & Hl2 & Hl3), Hl' as (Hl1' & Hl2' & Hl3').
  split; [eapply related_trans; [apply advanced_trans|done..]|].
  split; [repeat split; congruence|]. split; [congruence|]. split; [done|].
  intros Hdone entry' Hin. apply elem_of_cons in Hin as [->|Hin]; [|eauto].
  destruct (Hd eq_refl) as (info & Hk & Hprep).
  destruct (related_lookup _ _ _ _ _ Hc' Hk) as (info' & Hk' & _ & _ & Hadv). eauto.
Qed.

Lemma markPrepared_run st :
let r := markPrepared w st in
related advanced (p_cache st) (p_cache r.2) ∧ same_locals st r.2 ∧
p_rpcs r.2 = p_rpcs st ∧ r.1 ≠ Panicked ∧
(r.1 = Done () → syncToCheckpoint w (p_cache r.2) = true ∧
   ∀ entry, entry ∈ rangeMap w (p_resourceClaims st) →
     ∃ info, p_cache r.2 !! keyOf entry.2 = Some info ∧ ClaimInfo.prepared info = true).
Proof.
unfold markPrepared. munfold.
destruct (markClaims_run (rangeMap w (p_resourceClaims st)) st) as (Hc & Hl & Hr & Hp & Hd).
destruct (forEach markClaim _ st) as [[[]|e|] st1]; cbn [fst snd] in *; [|done..].
destruct (syncToCheckpoint w (p_cache st1)) eqn:Hsync; cbn [fst snd]; split_and!; try done.
intros _. split; [done|]. by apply Hd.
Qed.
End PreparePhase3.

Lemma deletePodReference_idemp uid info :
  deletePodReference uid (deletePodReference uid info) = deletePodReference uid info.
Proof.
  destruct info. unfold deletePodReference, withPodUIDs. cbn. f_equal. apply set_eq. set_solver.
Qed.

Lemma deferredCleanup_lookup pod claim c key :
  deferredCleanup pod claim c !! key =
  if decide (key = keyOf claim) then deletePodReference (Pod.UID pod) <$> c !! key
  else c !! key.
Proof.
  unfold deferredCleanup, cache_get, cache_store. fold (keyOf claim).
  destruct (decide (key = keyOf claim)) as [->|Hne].
  - destruct (c !! keyOf claim) as [info|] eqn:Hk; [|by rewrite Hk].
    by rewrite lookup_insert_eq.
  - destruct (c !! keyOf claim); [|done]. by rewrite lookup_insert_ne.
Qed.

Lemma runDeferred_lookup pod deferred c key :
  runDeferred pod deferred c !! key =
  if decide (key ∈ keyOf <$> deferred) then deletePodReference (Pod.UID pod) <$> c !! key
  else c !! key.
Proof.
  unfold runDeferred. revert c. induction deferred as [|claim deferred IH]; intros c; cbn.
  - destruct (decide _) as [Hin|]; [|done]. by apply elem_of_nil in Hin.
  - rewrite IH, deferredCleanup_lookup.
    repeat case_decide; subst; try done.
    + destruct (c !! keyOf claim); [|done]. cbn. by rewrite deletePodReference_idemp.
    + exfalso. set_solver.
    + exfalso. set_solver.
    + exfalso. set_solver.
    + exfalso. set_solver.
Qed.

Section PrepareCases.
Context (nm : Pod.t → PodResourceClaim.t → resolved) (fp : Pod.t → ResourceClaim.t → bool).
Context (w : World) (pod : Pod.t) (c : claimInfoCache).

Lemma afterClaims_inv : prepare_inv (Pod.UID pod) c (afterClaims nm fp w pod c).2.
Proof.
unfold afterClaims, prepareClaims. apply forEach_inv.
- intros podClaim st _. apply prepareClaim_inv.
- split; cbn; try done.
  + by left.
  + intros claim Hin. by apply elem_of_nil in Hin.
  + intros p rq (claims & Hl & _). by rewrite lookup_empty in Hl.
  + intros claim info Hin. by apply elem_of_nil in Hin.
Qed.

Lemma afterClaims_no_panic : (afterClaims nm fp w pod c).1 ≠ Panicked.
Proof.
unfold afterClaims, prepareClaims. apply (forEach_no_panic (λ _, True)); [|done].
intros podClaim st _ _. split; [|done].
destruct (prepareClaim_run nm fp w pod podClaim st)
  as [[e ->]|[->|(claimName & mco & claim & _ & _ & _ & _ & ->)]]; [done..|].
by destruct (prepareLocked_run pod claim (p_defer claim st)) as (st' & -> & _).
Qed.

Lemma batches_known :
fair_range w →
∀ entry rq, entry ∈ rangeMap w (p_batches (afterClaims nm fp w pod c).2) → rq ∈ entry.2 →
  is_Some (p_resourceClaims (afterClaims nm fp w pod c).2 !! Claim.Uid rq).
Proof.
intros Hfair [p claims] rq Hin Hrq. unfold rangeMap in Hin. rewrite (Hfair _ _) in Hin.
apply elem_of_map_to_list in Hin.
destruct (pi_batches _ _ _ afterClaims_inv p rq) as (key & info & h & _ & _ & _ & -> & _ & Hsome).
{ by exists claims. }
done.
Qed.

(** The three ways a call can go: it stops in the loop over the claims,
  it stops in the loop over the batches, or it reaches the last locked
  section. *)
Lemma PrepareResources_cases :
let st1 := (afterClaims nm fp w pod c).2 in
let entries := rangeMap w (p_batches st1) in
(∃ e, (afterClaims nm fp w pod c).1 = Failed e ∧
   PrepareResources nm fp w pod c =
     (Failed e, runDeferred pod (p_deferred st1) (p_cache st1), [])) ∨
((afterClaims nm fp w pod c).1 = Done () ∧
 ∃ r c2 called rest, r ≠ Done () ∧ (fair_range w → r ≠ Panicked) ∧
   entries = called ++ rest ∧
   related devices_stored (p_cache st1) c2 ∧
   PrepareResources nm fp w pod c =
     (r, match r with Failed _ => runDeferred pod (p_deferred st1) c2 | _ => c2 end,
      map prepareCall called)) ∨
((afterClaims nm fp w pod c).1 = Done () ∧
 ∃ r c3, r ≠ Panicked ∧
   related advanced (p_cache st1) c3 ∧
   (∀ entry, entry ∈ entries → complete_response w entry) ∧
   PrepareResources nm fp w pod c =
     (r, match r with Failed _ => runDeferred pod (p_deferred st1) c3 | _ => c3 end,
      map prepareCall entries) ∧
   (r = Done () → syncToCheckpoint w c3 = true ∧
      ∀ entry, entry ∈ rangeMap w (p_resourceClaims st1) →
        ∃ info, c3 !! keyOf entry.2 = Some info ∧ ClaimInfo.prepared info = true)).
Proof.
intros st1 entries. pose proof afterClaims_inv as Hinv. pose proof afterClaims_no_panic as Hnp.
pose proof batches_known as Hknown.
unfold PrepareResources, prepareBody. munfold.
fold (afterClaims nm fp w pod c). subst st1 entries.
destruct (afterClaims nm fp w pod c) as [[[]|e|] st1] eqn:Hrun; cbn [fst snd] in *; [|left|done].
2:{ exists e. split; [done|]. by rewrite (pi_rpcs _ _ _ Hinv). }
right.
destruct (prepareBatches_run w (rangeMap w (p_batches st1)) st1)
  as (Hc & (Hl1 & Hl2 & Hl3) & (called & rest & Hsplit & Hr & Hrest) & Hd & Hp).
rewrite (pi_rpcs _ _ _ Hinv) in Hr. cbn [app] in Hr.
destruct (forEach (prepareBatch w) _ st1) as [[[]|e|] st2]; cbn [fst snd] in *; [|left..].
2:{ split; [done|]. exists (Failed e), (p_cache st2), called, rest. rewrite Hl3, Hr. done. }
2:{ split; [done|]. exists Panicked, (p_cache st2), called, rest. rewrite Hr.
    split_and!; try done. intros Hfair. apply Hp. by apply Hknown. }
right. split; [done|].
destruct (markPrepared_run w st2) as (Hc' & (Hl1' & Hl2' & Hl3') & Hr' & Hp' & Hd').
destruct (markPrepared w st2) as [r st3]; cbn [fst snd] in *.
exists r, (p_cache st3). split; [done|].
split. { eapply related_trans; [apply advanced_trans| |done].
         eapply related_impl; [apply devices_stored_advanced|done]. }
split; [by apply Hd|].
rewrite Hl3', Hl3, Hr', Hr, (Hrest eq_refl) in *. rewrite app_nil_r in Hsplit.
rewrite <- Hsplit. split.
- by destruct r.
- rewrite <- Hl2. done.
Qed.
End PrepareCases.

Section PrepareClaimsLoop.
Context (nm : Pod.t → PodResourceClaim.t → resolved) (fp : Pod.t → ResourceClaim.t → bool).
Context (w : World) (pod : Pod.t).

Lemma prepareClaim_outcome podClaim st :
(∃ e, (prepareClaim nm fp w pod podClaim st).1 = Failed e) ∨
(prepareClaim nm fp w pod podClaim st).1 = Done ().
Proof.
destruct (prepareClaim_run nm fp w pod podClaim st)
  as [[e ->]|[->|(claimName & mco & claim & _ & _ & _ & _ & ->)]]; eauto.
destruct (prepareLocked_run pod claim (p_defer claim st)) as (st' & -> & _). eauto.
Qed.

(** A claim the pod is not reserved for stops the loop, at that claim or
  before. *)
Lemma prepareClaims_unreserved l st podClaim claimName mustCheckOwner claim :
podClaim ∈ l →
nm pod podClaim = Resolved (Some claimName) mustCheckOwner →
kubeGet w (Pod.Namespace pod) claimName = Some claim →
IsReservedForPod pod claim = false →
∃ e, (forEach (prepareClaim nm fp w pod) l st).1 = Failed e.
Proof.
intros Hin Hnm Hget Hres. revert st.
induction l as [|x l IH]; intros st; [by apply elem_of_nil in Hin|].
cbn. munfold.
apply elem_of_cons in Hin as [->|Hin].
- unfold prepareClaim. rewrite Hnm, Hget, Hres. munfold.
  destruct (mustCheckOwner && _); cbn; eauto.
- destruct (prepareClaim_outcome x st) as [[e He]|Hd];
    destruct (prepareClaim nm fp w pod x st) as [[[]|e'|] st1]; cbn in *; try done; eauto.
Qed.

Lemma prepareClaim_deferred_mono podClaim st claim :
claim ∈ p_deferred st → claim ∈ p_deferred (prepareClaim nm fp w pod podClaim st).2.
Proof.
intros Hin.
destruct (prepareClaim_run nm fp w pod podClaim st)
  as [[e ->]|[->|(claimName & mco & claim' & _ & _ & _ & _ & ->)]]; [done..|].
destruct (prepareLocked_run pod claim' (p_defer claim' st)) as (st' & -> & _ & _ & Hd & _).
cbn. rewrite Hd. cbn. by apply list_elem_of_further.
Qed.

(** A loop that ends normally has registered every claim the pod uses. *)
Lemma prepareClaims_deferred l st st' podClaim claimName mustCheckOwner claim :
forEach (prepareClaim nm fp w pod) l st = (Done (), st') →
podClaim ∈ l →
nm pod podClaim = Resolved (Some claimName) mustCheckOwner →
kubeGet w (Pod.Namespace pod) claimName = Some claim →
claimIsUsedByPod podClaim pod = true →
claim ∈ p_deferred st'.
Proof.
intros Hrun Hin Hnm Hget Hused. revert st Hrun.
induction l as [|x l IH]; intros st Hrun; [by apply elem_of_nil in Hin|].
cbn in Hrun. munfold.
destruct (prepareClaim nm fp w pod x st) as [[[]|e'|] st1] eqn:Hx; try done.
apply elem_of_cons in Hin as [<-|Hin]; [|eauto].
assert (Hdef : claim ∈ p_deferred st1).
{ destruct (prepareClaim_run nm fp w pod podClaim st)
    as [[e He]|[Hd|(claimName' & mco & claim' & Hnm' & Hget' & _ & _ & Heq)]].
  - congruence.
  - exfalso. revert Hd. unfold prepareClaim. rewrite Hnm, Hget, Hused. munfold.
    destruct (mustCheckOwner && _); [done|]. destruct (IsReservedForPod pod claim); [|done].
    cbn [negb]. destruct (prepareLocked_run pod claim (p_defer claim st)) as (st2 & -> & _ & _ & Hd & _).
    intros [= <-]. revert Hd. cbn. intros Hd.
    assert (Hlen := f_equal length Hd). cbn in Hlen. lia.
  - rewrite Hnm in Hnm'. injection Hnm' as <- <-. rewrite Hget in Hget'. injection Hget' as <-.
    rewrite Heq in Hx.
    destruct (prepareLocked_run pod claim (p_defer claim st)) as (st2 & Hrun2 & _ & _ & Hd & _).
    rewrite Hrun2 in Hx. injection Hx as <-. rewrite Hd. cbn. apply list_elem_of_here. }
assert (Hmono : claim ∈ p_deferred (forEach (prepareClaim nm fp w pod) l st1).2).
{ apply (forEach_inv (λ s, claim ∈ p_deferred s)); [|done].
  intros y s _. apply prepareClaim_deferred_mono. }
by rewrite Hrun in Hmono.
Qed.
End PrepareClaimsLoop.

Section PrepareFate.
Context (nm : Pod.t → PodResourceClaim.t → resolved) (fp : Pod.t → ResourceClaim.t → bool).
Context (w : World) (pod : Pod.t) (c : claimInfoCache).

(** The cache a call leaves: the cache after the loop over the claims,
  with device lists stored and flags raised, and with the deferred
  functions run when the call returns an error. *)
Lemma PrepareResources_cache r c' t :
PrepareResources nm fp w pod c = (r, c', t) →
∃ cmid, related advanced (p_cache (afterClaims nm fp w pod c).2) cmid ∧
  c' = match r with
       | Failed _ => runDeferred pod (deferredClaims nm fp w pod c) cmid
       | _ => cmid
       end.
Proof.
intros Hrun. unfold deferredClaims.
destruct (PrepareResources_cases nm fp w pod c)
  as [(e & He & Heq)|[(Hd & r' & c2 & called & rest & _ & _ & _ & Hrel & Heq)
                     |(Hd & r' & c3 & _ & Hrel & _ & Heq & _)]];
  rewrite Heq in Hrun; injection Hrun as <- <- <-.
- eexists; split; [|done]. apply related_refl, advanced_refl.
- eexists; split; [|done]. eapply related_impl; [apply devices_stored_advanced|done].
- eexists; split; [|done]. done.
Qed.

(** Every record of the cache the call started from is still there. *)
Lemma PrepareResources_keeps r c' t key info :
PrepareResources nm fp w pod c = (r, c', t) →
c !! key = Some info →
∃ info', c' !! key = Some info' ∧ kept_by_prepare (Pod.UID pod) info info'.
Proof.
intros Hrun Hk. destruct (PrepareResources_cache _ _ _ Hrun) as (cmid & Hrel & ->).
pose proof (afterClaims_inv nm fp w pod c) as Hinv.
assert (H1 : ∃ info1, p_cache (afterClaims nm fp w pod c).2 !! key = Some info1 ∧
          kept_by_prepare (Pod.UID pod) info info1).
{ destruct (pi_cache _ _ _ Hinv key) as [Hsame|(claim & _ & _ & Hrec)].
  - exists info. rewrite Hsame. done.
  - rewrite Hk in Hrec. eexists; split; [done|]. split_and!; try done.
    intros other Hne. cbn. set_solver. }
destruct H1 as (info1 & Hk1 & Hid1 & Hp1 & Hu1).
destruct (related_lookup _ _ _ _ _ Hrel Hk1) as (info2 & Hk2 & Hid2 & Hu2 & Hp2).
assert (H2 : kept_by_prepare (Pod.UID pod) info info2).
{ split_and!; [congruence|auto|]. intros other Hne. rewrite Hu2. auto. }
destruct r; [eauto| |eauto].
rewrite runDeferred_lookup, Hk2. destruct (decide _); [|eauto].
eexists; split; [done|]. destruct H2 as (Hid & Hp & Hu). split_and!; try done.
intros other Hne. rewrite <- Hu by done. cbn. set_solver.
Qed.

(** A record the call created is the fresh record of a claim it
  registered, up to the pod's own reference, the devices and the
  flag. *)
Lemma PrepareResources_creates r c' t key info' :
PrepareResources nm fp w pod c = (r, c', t) →
c !! key = None → c' !! key = Some info' →
∃ claim, claim ∈ deferredClaims nm fp w pod c ∧ keyOf claim = key ∧
  identity info' = identity (newClaimInfoFromClaim claim) ∧
  ClaimInfo.PodUIDs info' ⊆ {[Pod.UID pod]}.
Proof.
intros Hrun Hk Hk'. destruct (PrepareResources_cache _ _ _ Hrun) as (cmid & Hrel & ->).
pose proof (afterClaims_inv nm fp w pod c) as Hinv.
assert (H2 : ∃ info2, cmid !! key = Some info2 ∧
          identity info' = identity info2 ∧
          ClaimInfo.PodUIDs info' ⊆ ClaimInfo.PodUIDs info2).
{ destruct r; [eauto| |eauto]. rewrite runDeferred_lookup in Hk'.
  destruct (decide _); [|eauto]. destruct (cmid !! key) as [info2|]; [|done].
  injection Hk' as <-. eexists; split; [done|]. split; [done|]. cbn. set_solver. }
destruct H2 as (info2 & Hk2 & Hid2 & Hu2).
destruct (related_lookup_r _ _ _ _ _ Hrel Hk2) as (info1 & Hk1 & Hid1 & Hu1 & _).
destruct (pi_cache _ _ _ Hinv key) as [Hsame|(claim & Hin & Hkey & Hrec)]; [congruence|].
exists claim. split; [done|]. split; [done|]. rewrite Hk in Hrec. rewrite Hk1 in Hrec.
injection Hrec as ->. split; [by rewrite Hid2, Hid1|].
rewrite Hu1 in Hu2. cbn in Hu2. set_solver.
Qed.

(** After a call that returned an error, the pod holds no reference it
  did not hold before. *)
Lemma PrepareResources_failed_reference e c' t key info' :
PrepareResources nm fp w pod c = (Failed e, c', t) →
c' !! key = Some info' → Pod.UID pod ∈ ClaimInfo.PodUIDs info' →
∃ info, c !! key = Some info ∧ Pod.UID pod ∈ ClaimInfo.PodUIDs info.
Proof.
intros Hrun Hk' Hin. destruct (PrepareResources_cache _ _ _ Hrun) as (cmid & Hrel & ->).
pose proof (afterClaims_inv nm fp w pod c) as Hinv.
rewrite runDeferred_lookup in Hk'. destruct (decide _) as [Hdef|Hdef].
{ destruct (cmid !! key); [|done]. injection Hk' as <-. cbn in Hin. set_solver. }
destruct (related_lookup_r _ _ _ _ _ Hrel Hk') as (info1 & Hk1 & _ & Hu1 & _).
destruct (pi_cache _ _ _ Hinv key) as [Hsame|(claim & Hcl & Hkey & _)].
- exists info1. split; congruence.
- exfalso. apply Hdef. unfold deferredClaims. rewrite <- Hkey.
  by apply list_elem_of_fmap_2.
Qed.

(** After a call that returned an error, the record of every claim the
  call registered is without the pod's reference. *)
Lemma PrepareResources_failed_deferred e c' t claim :
PrepareResources nm fp w pod c = (Failed e, c', t) →
claim ∈ deferredClaims nm fp w pod c →
∃ info', c' !! keyOf claim = Some info' ∧ Pod.UID pod ∉ ClaimInfo.PodUIDs info'.
Proof.
intros Hrun Hin. destruct (PrepareResources_cache _ _ _ Hrun) as (cmid & Hrel & ->).
pose proof (afterClaims_inv nm fp w pod c) as Hinv.
destruct (pi_deferred _ _ _ Hinv claim Hin) as (info1 & Hk1 & _).
destruct (related_lookup _ _ _ _ _ Hrel Hk1) as (info2 & Hk2 & _).
rewrite runDeferred_lookup, Hk2, decide_True by by apply list_elem_of_fmap_2.
eexists; split; [done|]. cbn. set_solver.
Qed.
End PrepareFate.

Lemma fair_range_world : fair_range Example.world.
Proof. intros A l. reflexivity. Qed.


(** ** The phases of UnprepareResources *)

Lemma foldl_u_setBatches {A} (f : A → gmap string (list Claim.t) → gmap string (list Claim.t)) l st :
  foldl (λ s x, u_setBatches (f x) s) st l =
  u_setBatches (λ b, foldl (λ b x, f x b) b l) st.
Proof.
  revert st. induction l as [|x l IH]; intros st; simpl.
  - by destruct st.
  - rewrite IH. by destruct st.
Qed.

Lemma batched_foldl_by {A} (g : A → string) (f : A → Claim.t) batches (l : list A) q x :
  batched (foldl (λ b h, appendBatch (g h) (f h) b) batches l) q x ↔
  batched batches q x ∨ ∃ h, h ∈ l ∧ q = g h ∧ x = f h.
Proof.
  revert batches. induction l as [|h l IH]; intros batches; simpl.
  - split; [eauto|]. intros [?|(h & Hin & _)]; [done|]. by apply elem_of_nil in Hin.
  - rewrite IH, batched_appendBatch. split.
    + intros [[?|[-> ->]]|(h' & Hin & -> & ->)]; eauto.
      * right. exists h. split; [apply list_elem_of_here|done].
      * right. exists h'. split; [by apply list_elem_of_further|done].
    + intros [?|(h' & Hin & -> & ->)]; [eauto|].
      apply elem_of_cons in Hin as [->|Hin]; [by left; right|].
      right. eauto.
Qed.

Section UnprepareLocked.
Context (pod : Pod.t).

Lemma unprepareLocked_run claimName st :
let key := (Pod.Namespace pod, claimName) in
∃ st', unprepareLocked pod claimName st = (Done (), st') ∧ u_rpcs st' = u_rpcs st ∧
  match u_cache st !! key with
  | None => st' = st
  | Some info =>
      if decide (1 < size (ClaimInfo.PodUIDs info)) then
        u_cache st' = <[key := deletePodReference (Pod.UID pod) info]> (u_cache st) ∧
        u_batches st' = u_batches st ∧ u_claimNames st' = u_claimNames st
      else
        u_cache st' = u_cache st ∧
        u_claimNames st' =
          <[ClaimInfo.ClaimUID info := ClaimInfo.ClaimName info]> (u_claimNames st) ∧
        u_batches st' =
          foldl (λ b h, appendBatch (handlePlugin info h) (claimRequest info h) b)
            (u_batches st) (ClaimInfo.ResourceHandles info)
  end.
Proof.
intros key. unfold unprepareLocked. munfold. unfold cache_get. fold key.
destruct (u_cache st !! key) as [info|]; [|by eexists].
destruct (decide (1 < size (ClaimInfo.PodUIDs info))).
- eexists; split; [reflexivity|]. done.
- rewrite forEach_pure, foldl_u_setBatches. eexists; split; [reflexivity|]. done.
Qed.
End UnprepareLocked.

(** An invariant that follows the elements the loop is done with. *)
Lemma forEach_prefix {S A} (I : list A → S → Prop) (body : A → M S ()) :
  (∀ seen x s, I seen s →
     match (body x s).1 with
     | Done _ => I (seen ++ [x]) (body x s).2
     | _ => I seen (body x s).2
     end) →
  ∀ l seen s, I seen s →
    ∃ seen' rest, seen ++ l = seen' ++ rest ∧ I seen' (forEach body l s).2 ∧
      ((forEach body l s).1 = Done () → rest = []).
Proof.
  intros Hbody l. induction l as [|x l IH]; intros seen s Hs; cbn.
  - exists seen, []. done.
  - munfold. specialize (Hbody seen x s Hs).
    destruct (body x s) as [[[]|e|] s1]; cbn in *.
    + destruct (IH _ _ Hbody) as (seen' & rest & Heq & HI & Hd).
      exists seen', rest. rewrite <- Heq, <- app_assoc. done.
    + exists seen, (x :: l). done.
    + exists seen, (x :: l). done.
Qed.

Lemma unprepare_inv_init pod c0 : unprepare_inv [] pod c0 (UnprepareFrame c0 [] ∅ ∅).
Proof.
  split; cbn; try done.
  - by left.
  - intros p rq (claims & Hl & _). by rewrite lookup_empty in Hl.
  - intros name info Hin. by apply elem_of_nil in Hin.
  - intros _ name info Hin. by apply elem_of_nil in Hin.
  - intros _ p rq (claims & Hl & _). by rewrite lookup_empty in Hl.
Qed.

Lemma size_deletePodReference uid info :
  size (ClaimInfo.PodUIDs (deletePodReference uid info)) ≤ size (ClaimInfo.PodUIDs info).
Proof. cbn. apply subseteq_size. set_solver. Qed.

Section UnprepareClaims.
Context (pod : Pod.t) (c0 : claimInfoCache).

Lemma unprepareLocked_inv names claimName st :
unprepare_inv names pod c0 st →
unprepare_inv (names ++ [claimName]) pod c0 (unprepareLocked pod claimName st).2.
Proof.
intros [I1 I2 I3 I4 I5 I6 I7 I8].
destruct (unprepareLocked_run pod claimName st) as (st' & -> & Hr & Hcase). cbn [snd].
set (key := (Pod.Namespace pod, claimName)) in *.
assert (Hmono : ∀ name, name ∈ names → name ∈ names ++ [claimName]).
{ intros name Hin. apply elem_of_app. by left. }
assert (Hlast : claimName ∈ names ++ [claimName]).
{ apply elem_of_app. right. apply list_elem_of_here. }
assert (Hfresh : NoDup (names ++ [claimName]) → NoDup names ∧ claimName ∉ names).
{ intros [Hnd [Hnin _]]%NoDup_app. split; [done|]. intros Hin. apply (Hnin _ Hin).
  apply list_elem_of_here. }
assert (Huntouched : claimName ∉ names → u_cache st !! key = c0 !! key).
{ intros Hnin. destruct (I2 key) as [?|[_ (name & Hin & [= <-])]]; done. }
destruct (u_cache st !! key) as [info|] eqn:Hk.
2:{ (* no record: nothing happens *)
  subst st'. split; try done.
  - intros k. destruct (I2 k) as [?|[? (name & Hin & ->)]]; [by left|]. right. eauto.
  - intros p rq Hb. destruct (I3 p rq Hb) as (name & info & h & ? & ?). eauto 10.
  - intros u name' Hl. destruct (I4 u name' Hl) as (name & info & ? & ?). eauto 10.
  - intros name info Hin Hl. apply elem_of_app in Hin as [Hin|Hin]; [eauto|].
    apply list_elem_of_singleton in Hin as ->. fold key in Hl. congruence.
  - intros Hnd name info0 Hin Hl. destruct (Hfresh Hnd) as [Hnd' Hnin].
    apply elem_of_app in Hin as [Hin|Hin]; [eauto|].
    apply list_elem_of_singleton in Hin as ->. fold key in Hl.
    rewrite <- Huntouched in Hl by done. congruence.
  - intros Hnd p rq Hb. destruct (Hfresh Hnd) as [Hnd' Hnin].
    destruct (I7 Hnd' p rq Hb) as (name & info0 & h & ? & ?). eauto 10.
  - intros Hnd u name' Hl. destruct (Hfresh Hnd) as [Hnd' Hnin].
    destruct (I8 Hnd' u name' Hl) as (name & info0 & ? & ?). eauto 10. }
destruct (decide (1 < size (ClaimInfo.PodUIDs info))) as [Hshared|Hlast_ref].
- (* other pods hold the claim: only the reference goes *)
  destruct Hcase as (Hc & Hb & Hn).
  assert (Hother : ∀ k info', k ≠ key → u_cache st !! k = Some info' →
            u_cache st' !! k = Some info').
  { intros k info' Hne Hl. by rewrite Hc, lookup_insert_ne. }
  assert (Hsmall : ∀ name info', u_cache st !! (Pod.Namespace pod, name) = Some info' →
            size (ClaimInfo.PodUIDs info') ≤ 1 → u_cache st' !! (Pod.Namespace pod, name) = Some info').
  { intros name info' Hl Hsz. apply Hother; [|done]. intros Heq. rewrite Heq, Hk in Hl.
    injection Hl as <-. lia. }
  split.
  + congruence.
  + intros k. rewrite Hc. destruct (decide (key = k)) as [<-|Hne].
    * rewrite lookup_insert_eq. right. split; [|eauto].
      destruct (I2 key) as [Hs|[Hs _]]; rewrite Hk in Hs; [by rewrite <- Hs|].
      destruct (c0 !! key) as [info0|]; [|done]. cbn in *. injection Hs as ->.
      by rewrite deletePodReference_idemp.
    * rewrite lookup_insert_ne by done.
      destruct (I2 k) as [?|[? (name & Hin & ->)]]; [by left|]. right. eauto.
  + intros p rq Hbat. rewrite Hb in Hbat. rewrite Hn.
    destruct (I3 p rq Hbat) as (name & info' & h & Hin & Hl & Hsz & ?).
    exists name, info', h. split; [auto|]. split; [by apply Hsmall|]. done.
  + intros u name' Hl. rewrite Hn in Hl.
    destruct (I4 u name' Hl) as (name & info' & Hin & Hl' & ?).
    exists name, info'. split; [auto|]. split; [by apply Hsmall; [|lia]|]. done.
  + intros name info' Hin Hl. rewrite Hc in Hl.
    destruct (decide (key = (Pod.Namespace pod, name))) as [Heq|Hne].
    * rewrite <- Heq, lookup_insert_eq in Hl. injection Hl as <-. left. cbn. set_solver.
    * rewrite lookup_insert_ne in Hl by done.
      apply elem_of_app in Hin as [Hin|Hin]; [eauto|].
      apply list_elem_of_singleton in Hin as ->. done.
  + intros Hnd name info0 Hin Hl. destruct (Hfresh Hnd) as [Hnd' Hnin]. rewrite Hc.
    apply elem_of_app in Hin as [Hin|Hin].
    * rewrite lookup_insert_ne by (intros [= <-]; done). eauto.
    * apply list_elem_of_singleton in Hin as ->. fold key in Hl |- *.
      rewrite lookup_insert_eq. rewrite <- Huntouched in Hl by done.
      injection Hl as <-. by rewrite decide_True.
  + intros Hnd p rq Hbat. rewrite Hb in Hbat. destruct (Hfresh Hnd) as [Hnd' Hnin].
    destruct (I7 Hnd' p rq Hbat) as (name & info0 & h & ? & ?). eauto 10.
  + intros Hnd u name' Hl. rewrite Hn in Hl. destruct (Hfresh Hnd) as [Hnd' Hnin].
    destruct (I8 Hnd' u name' Hl) as (name & info0 & ? & ?). eauto 10.
- (* the last reference: the release is queued *)
  destruct Hcase as (Hc & Hn & Hb).
  assert (Hsz : size (ClaimInfo.PodUIDs info) ≤ 1) by lia.
  split.
  + congruence.
  + intros k. rewrite Hc. destruct (I2 k) as [?|[? (name & Hin & ->)]]; [by left|].
    right. eauto.
  + intros p rq Hbat. rewrite Hb in Hbat. rewrite Hc, Hn.
    apply batched_foldl_by in Hbat as [Hbat|(h & Hh & -> & ->)].
    * destruct (I3 p rq Hbat) as (name & info' & h & Hin & Hl & Hsz' & Hh & Hrq & Hp & Hsome).
      exists name, info', h. split_and!; auto.
      destruct (decide (ClaimInfo.ClaimUID info = ClaimInfo.ClaimUID info')) as [->|?].
      -- rewrite lookup_insert_eq. eauto.
      -- by rewrite lookup_insert_ne.
    * exists claimName, info, h. rewrite lookup_insert_eq. split_and!; eauto.
  + intros u name' Hl. rewrite Hn in Hl. rewrite Hc.
    destruct (decide (ClaimInfo.ClaimUID info = u)) as [<-|Hne].
    * rewrite lookup_insert_eq in Hl. injection Hl as <-.
      exists claimName, info. split_and!; auto.
    * rewrite lookup_insert_ne in Hl by done.
      destruct (I4 u name' Hl) as (name & info' & ? & ?). eauto 10.
  + intros name info' Hin Hl. rewrite Hc in Hl.
    apply elem_of_app in Hin as [Hin|Hin]; [eauto|].
    apply list_elem_of_singleton in Hin as ->. fold key in Hl.
    rewrite Hk in Hl. injection Hl as <-. by right.
  + intros Hnd name info0 Hin Hl. destruct (Hfresh Hnd) as [Hnd' Hnin]. rewrite Hc.
    apply elem_of_app in Hin as [Hin|Hin]; [eauto|].
    apply list_elem_of_singleton in Hin as ->. fold key in Hl |- *.
    rewrite Hk. rewrite <- Huntouched in Hl by done.
    injection Hl as <-. by rewrite decide_False.
  + intros Hnd p rq Hbat. rewrite Hb in Hbat. destruct (Hfresh Hnd) as [Hnd' Hnin].
    apply batched_foldl_by in Hbat as [Hbat|(h & Hh & -> & ->)].
    * destruct (I7 Hnd' p rq Hbat) as (name & info0 & h & ? & ?). eauto 10.
    * exists claimName, info, h. fold key. rewrite <- Huntouched by done. split_and!; auto.
  + intros Hnd u name' Hl. rewrite Hn in Hl. destruct (Hfresh Hnd) as [Hnd' Hnin].
    destruct (decide (ClaimInfo.ClaimUID info = u)) as [<-|Hne].
    * rewrite lookup_insert_eq in Hl. injection Hl as <-.
      exists claimName, info. fold key. rewrite <- Huntouched by done. split_and!; auto.
    * rewrite lookup_insert_ne in Hl by done.
      destruct (I8 Hnd' u name' Hl) as (name & info0 & ? & ?). eauto 10.
Qed.
End UnprepareClaims.

(** What holds of the result of every turn holds of the result of the loop. *)
Lemma forEach_outcome {S A} (P : outcome () → Prop) (body : A → M S ()) (l : list A) :
  P (Done ()) → (∀ x s, P (body x s).1) → ∀ s, P (forEach body l s).1.
Proof.
  intros Hdone Hbody. induction l as [|x l IH]; intros s; cbn; [done|].
  munfold. specialize (Hbody x s).
  destruct (body x s) as [[[]|e|] s1]; cbn in *; auto.
Qed.

Lemma removed_lookup keys c key :
  removed keys c !! key = if decide (key ∈ keys) then None else c !! key.
Proof.
  unfold removed. revert c. induction keys as [|k keys IH]; intros c; cbn.
  - destruct (decide _) as [Hin|]; [|done]. by apply elem_of_nil in Hin.
  - rewrite IH. destruct (decide (key = k)) as [->|Hne].
    + rewrite lookup_delete_eq. rewrite (decide_True (P := k ∈ k :: keys)) by apply list_elem_of_here.
      by destruct (decide _).
    + rewrite lookup_delete_ne by done. repeat case_decide; try done; exfalso; set_solver.
Qed.

Lemma removed_app keys1 keys2 c : removed (keys1 ++ keys2) c = removed keys2 (removed keys1 c).
Proof. apply foldl_app. Qed.

Section UnprepareLoops.
Context (nm : Pod.t → PodResourceClaim.t → resolved) (w : World) (pod : Pod.t).

Lemma unprepareClaim_inv c0 seen x st :
unprepare_inv (namesOf nm pod seen) pod c0 st →
match (unprepareClaim nm pod x st).1 with
| Done _ => unprepare_inv (namesOf nm pod (seen ++ [x])) pod c0 (unprepareClaim nm pod x st).2
| _ => unprepare_inv (namesOf nm pod seen) pod c0 (unprepareClaim nm pod x st).2
end.
Proof.
intros Hinv. unfold unprepareClaim, namesOf. rewrite omap_app. cbn.
destruct (nm pod x) as [|[claimName|] mco]; cbn.
- done.
- destruct (unprepareLocked_run pod claimName st) as (st' & Hrun & _).
  pose proof (unprepareLocked_inv pod c0 _ claimName st Hinv) as Hinv'.
  rewrite Hrun in *. done.
- by rewrite app_nil_r.
Qed.

Lemma unprepareClaim_plain x st : plain (unprepareClaim nm pod x st).1.
Proof.
unfold unprepareClaim. destruct (nm pod x) as [|[claimName|] mco]; cbn; [done| |done].
by destruct (unprepareLocked_run pod claimName st) as (st' & -> & _).
Qed.

Lemma afterUnprepareClaims_inv c0 :
let r := afterUnprepareClaims nm pod c0 in
plain r.1 ∧
∃ seen rest, Pod.ResourceClaims pod = seen ++ rest ∧
  unprepare_inv (namesOf nm pod seen) pod c0 r.2 ∧ (r.1 = Done () → rest = []).
Proof.
cbn. unfold afterUnprepareClaims, unprepareClaims. split.
- apply (forEach_outcome plain); [done|]. intros x s. apply unprepareClaim_plain.
- destruct (forEach_prefix (λ seen st, unprepare_inv (namesOf nm pod seen) pod c0 st)
              (unprepareClaim nm pod) (unprepareClaim_inv c0)
              (Pod.ResourceClaims pod) [] (UnprepareFrame c0 [] ∅ ∅)
              (unprepare_inv_init pod c0)) as (seen & rest & Heq & Hinv & Hd).
  eauto.
Qed.

Lemma unprepareResult_run claims entry st :
let r := unprepareResult pod claims entry st in
plain r.1 ∧ u_rpcs r.2 = u_rpcs st ∧ u_batches r.2 = u_batches st ∧
u_claimNames r.2 = u_claimNames st ∧
match r.1 with
| Done _ => (∃ rq, rq ∈ claims ∧ Claim.Uid rq = entry.1) ∧
            u_cache r.2 = removed [releasedKey pod (u_claimNames st) entry.1] (u_cache st)
| _ => u_cache r.2 = u_cache st
end.
Proof.
destruct entry as [uid result]. unfold unprepareResult. munfold.
destruct (lookupClaimRequest claims uid) as [rq|] eqn:Hreq; [|by cbn].
apply lookupClaimRequest_Some in Hreq as [Hin Huid].
destruct (decide (UnprepareResult.Error result ≠ ""%string)); [by cbn|].
cbn. split_and!; eauto. done.
Qed.

Lemma unprepareResults_run claims entries st :
let r := forEach (unprepareResult pod claims) entries st in
plain r.1 ∧ u_rpcs r.2 = u_rpcs st ∧ u_batches r.2 = u_batches st ∧
u_claimNames r.2 = u_claimNames st ∧
∃ keys, u_cache r.2 = removed keys (u_cache st) ∧
  (∀ key, key ∈ keys → ∃ entry, entry ∈ entries ∧
     (∃ rq, rq ∈ claims ∧ Claim.Uid rq = entry.1) ∧
     key = releasedKey pod (u_claimNames st) entry.1) ∧
  (r.1 = Done () → ∀ entry, entry ∈ entries →
     (∃ rq, rq ∈ claims ∧ Claim.Uid rq = entry.1) ∧
     releasedKey pod (u_claimNames st) entry.1 ∈ keys).
Proof.
revert st. induction entries as [|entry entries IH]; intros st; cbn.
- split_and!; try done. exists []. split_and!; try done.
  + intros key Hin. by apply elem_of_nil in Hin.
  + intros _ entry Hin. by apply elem_of_nil in Hin.
- munfold. destruct (unprepareResult_run claims entry st) as (Hp & Hr & Hb & Hn & Hc).
  destruct (unprepareResult pod claims entry st) as [[[]|e|] st1]; cbn [fst snd] in *.
  + destruct Hc as [Hknown Hc].
    destruct (IH st1) as (Hp' & Hr' & Hb' & Hn' & keys & Hc' & Hkeys & Hd').
    split_and!; [done|congruence..|].
    exists (releasedKey pod (u_claimNames st) entry.1 :: keys). split_and!.
    * rewrite Hc', Hc. done.
    * intros key [->|Hin]%elem_of_cons.
      -- exists entry. split; [apply list_elem_of_here|done].
      -- destruct (Hkeys key Hin) as (entry' & Hin' & Hk' & ->).
         exists entry'. rewrite Hn. split; [by apply list_elem_of_further|done].
    * intros Hdone entry' [->|Hin]%elem_of_cons.
      -- split; [done|apply list_elem_of_here].
      -- destruct (Hd' Hdone entry' Hin) as [? ?]. split; [done|].
         rewrite <- Hn. by apply list_elem_of_further.
  + split_and!; try done. exists []. split_and!; try done.
    intros key Hin. by apply elem_of_nil in Hin.
  + by destruct Hp.
Qed.
End UnprepareLoops.

Section UnprepareBatches.
Context (w : World) (pod : Pod.t).

Lemma unprepareBatch_run entry st :
let r := unprepareBatch w pod entry st in
plain r.1 ∧ u_batches r.2 = u_batches st ∧ u_claimNames r.2 = u_claimNames st ∧
(u_rpcs r.2 = u_rpcs st ∨ u_rpcs r.2 = u_rpcs st ++ [unprepareCall entry]) ∧
∃ keys, u_cache r.2 = removed keys (u_cache st) ∧
  (∀ key, key ∈ keys → released_by w pod (u_claimNames st) entry key) ∧
  (r.1 = Done () →
     u_rpcs r.2 = u_rpcs st ++ [unprepareCall entry] ∧ complete_release w entry ∧
     ∀ key, released_by w pod (u_claimNames st) entry key → key ∈ keys).
Proof.
destruct entry as [p claims].
unfold unprepareBatch, complete_release, released_by, unprepareCall.
assert (Hnone : ∃ keys, u_cache st = removed keys (u_cache st) ∧
          (∀ key, key ∈ keys → ∃ response result,
              pluginUnprepare w p claims = Some response ∧
              result ∈ rangeMap w response ∧
              (∃ rq, rq ∈ claims ∧ Claim.Uid rq = result.1) ∧
              key = releasedKey pod (u_claimNames st) result.1)).
{ exists []. split; [done|]. intros key Hin. by apply elem_of_nil in Hin. }
destruct Hnone as (keys0 & Hk0 & Hk0').
destruct (NewDRAPluginClient w p); cbn [negb fst snd].
2:{ split_and!; try done; [by left|]. exists keys0. split_and!; done. }
munfold. cbn [fst snd].
destruct (pluginUnprepare w p claims) as [response|] eqn:Hresp.
2:{ cbn. split_and!; try done; [by right|]. exists keys0. split_and!; done. }
set (st1 := u_call (NodeUnprepareResources p claims) st).
destruct (unprepareResults_run pod claims (rangeMap w response) st1)
  as (Hp & Hr & Hb & Hn & keys & Hc & Hkeys & Hd).
assert (Hreleased : ∀ key, key ∈ keys → ∃ response0 result,
          Some response = Some response0 ∧ result ∈ rangeMap w response0 ∧
          (∃ rq, rq ∈ claims ∧ Claim.Uid rq = result.1) ∧
          key = releasedKey pod (u_claimNames st) result.1).
{ intros key Hin. destruct (Hkeys key Hin) as (result & Hres & Hknown & ->).
  exists response, result. done. }
destruct (forEach (unprepareResult pod claims) (rangeMap w response) st1)
  as [[[]|e|] st2]; cbn [fst snd] in *.
- destruct (decide _) as [Hne|Heq]; cbn [fst snd].
  + split_and!; try done; [by right|]. exists keys. split_and!; done.
  + split_and!; try done; [by right|]. exists keys. split_and!; try done.
    intros _. split; [done|]. split.
    * exists response. split; [done|]. split; [apply dec_stable in Heq; lia|].
      intros result Hin. by destruct (Hd eq_refl result Hin).
    * intros key (response0 & result & [= <-] & Hin & _ & ->).
      by destruct (Hd eq_refl result Hin).
- split_and!; try done; [by right|]. exists keys. split_and!; done.
- by destruct Hp.
Qed.

Lemma unprepareBatches_run entries st :
let r := forEach (unprepareBatch w pod) entries st in
plain r.1 ∧ u_batches r.2 = u_batches st ∧ u_claimNames r.2 = u_claimNames st ∧
∃ called rest keys, entries = called ++ rest ∧
  u_rpcs r.2 = u_rpcs st ++ map unprepareCall called ∧
  u_cache r.2 = removed keys (u_cache st) ∧
  (∀ key, key ∈ keys →
     ∃ entry, entry ∈ entries ∧ released_by w pod (u_claimNames st) entry key) ∧
  (r.1 = Done () → rest = [] ∧
     ∀ entry, entry ∈ entries → complete_release w entry ∧
       ∀ key, released_by w pod (u_claimNames st) entry key → key ∈ keys).
Proof.
revert st. induction entries as [|entry entries IH]; intros st; cbn.
- split_and!; try done. exists [], [], []. cbn. rewrite app_nil_r. split_and!; try done.
  + intros key Hin. by apply elem_of_nil in Hin.
  + intros _. split; [done|]. intros entry Hin. by apply elem_of_nil in Hin.
- munfold. destruct (unprepareBatch_run entry st)
    as (Hp & Hb & Hn & Hr & keys & Hc & Hkeys & Hd).
  destruct (unprepareBatch w pod entry st) as [[[]|e|] st1]; cbn [fst snd] in *.
  + destruct (IH st1) as (Hp' & Hb' & Hn' & called & rest & keys' & -> & Hr' & Hc' &
                           Hkeys' & Hd').
    destruct (Hd eq_refl) as (Hcall & Hcomplete & Hall).
    split_and!; [done|congruence..|].
    exists (entry :: called), rest, (keys ++ keys'). split_and!.
    * done.
    * rewrite Hr', Hcall. cbn. by rewrite <- app_assoc.
    * by rewrite removed_app, <- Hc, <- Hc'.
    * intros key [Hin|Hin]%elem_of_app.
      -- exists entry. split; [apply list_elem_of_here|auto].
      -- destruct (Hkeys' key Hin) as (entry' & Hin' & Hrel).
         exists entry'. rewrite <- Hn. split; [by apply list_elem_of_further|done].
    * intros Hdone. destruct (Hd' Hdone) as [-> Hall']. split; [done|].
      intros entry' [->|Hin]%elem_of_cons.
      -- split; [done|]. intros key Hrel. apply elem_of_app. left. auto.
      -- destruct (Hall' entry' Hin) as [? Hrel']. split; [done|].
         intros key Hrel. apply elem_of_app. right. apply Hrel'. by rewrite Hn.
  + split_and!; try done. destruct Hr as [Hr|Hr].
    * exists [], (entry :: entries), keys. rewrite Hr. cbn. rewrite app_nil_r.
      split_and!; try done. intros key Hin. exists entry. split; [apply list_elem_of_here|auto].
    * exists [entry], entries, keys. split_and!; try done.
      intros key Hin. exists entry. split; [apply list_elem_of_here|auto].
  + by destruct Hp.
Qed.
End UnprepareBatches.

Section UnprepareRun.
Context (nm : Pod.t → PodResourceClaim.t → resolved) (w : World) (pod : Pod.t).
Context (c : claimInfoCache).

(** The shape of every call: the loop over the claims handles a prefix
  of the pod's claims, the loop over the batches calls a prefix of
  the batches and deletes the entries of the results it accepts, and
  a call that reaches the checkpoint has handled everything. *)
Lemma UnprepareResources_run :
let st1 := (afterUnprepareClaims nm pod c).2 in
let entries := rangeMap w (u_batches st1) in
∃ r seen called rest keys,
  UnprepareResources nm w pod c =
    (r, removed keys (u_cache st1), map unprepareCall called) ∧
  r ≠ Panicked ∧
  unprepare_inv (namesOf nm pod seen) pod c st1 ∧
  (∃ rest1, Pod.ResourceClaims pod = seen ++ rest1) ∧
  entries = called ++ rest ∧
  (∀ key, key ∈ keys →
     ∃ entry, entry ∈ entries ∧ released_by w pod (u_claimNames st1) entry key) ∧
  (r = Done () ∨ r = Failed ErrCheckpoint →
     seen = Pod.ResourceClaims pod ∧ rest = [] ∧
     (r = Done () ↔ syncToCheckpoint w (removed keys (u_cache st1)) = true) ∧
     ∀ entry, entry ∈ entries → complete_release w entry ∧
       ∀ key, released_by w pod (u_claimNames st1) entry key → key ∈ keys).
Proof.
intros st1 entries.
destruct (afterUnprepareClaims_inv nm pod c)
  as ([Hp1 Hp2] & seen & rest1 & Hsplit & Hinv & Hd).
unfold UnprepareResources, unprepareBody. munfold.
fold (afterUnprepareClaims nm pod c). subst st1 entries.
destruct (afterUnprepareClaims nm pod c) as [[[]|e|] st1]; cbn [fst snd] in *; [| |done].
2:{ exists (Failed e), seen, [], (rangeMap w (u_batches st1)), [].
    rewrite (ui_rpcs _ _ _ _ Hinv). cbn. split_and!; eauto.
    - intros key Hin. by apply elem_of_nil in Hin.
    - intros [?|?]; congruence. }
rewrite (Hd eq_refl), app_nil_r in Hsplit. subst seen.
destruct (unprepareBatches_run w pod (rangeMap w (u_batches st1)) st1)
  as ([Hq1 Hq2] & Hb & Hn & called & rest & keys & Hsplit & Hr & Hc & Hkeys & Hd2).
rewrite (ui_rpcs _ _ _ _ Hinv) in Hr. cbn [app] in Hr.
destruct (forEach (unprepareBatch w pod) _ st1) as [[[]|e|] st2]; cbn [fst snd] in *;
  [| |done].
2:{ exists (Failed e), (Pod.ResourceClaims pod), called, rest, keys.
    rewrite Hr, Hc. split_and!; eauto.
    - exists []. by rewrite app_nil_r.
    - intros [?|?]; congruence. }
destruct (Hd2 eq_refl) as [-> Hall].
destruct (syncToCheckpoint w (u_cache st2)) eqn:Hsync; cbn [fst snd].
- exists (Done ()), (Pod.ResourceClaims pod), called, [], keys.
  rewrite Hr, Hc. split_and!; eauto.
  + exists []. by rewrite app_nil_r.
  + intros _. rewrite <- Hc. split_and!; done.
- exists (Failed ErrCheckpoint), (Pod.ResourceClaims pod), called, [], keys.
  rewrite Hr, Hc. split_and!; eauto.
  + exists []. by rewrite app_nil_r.
  + intros _. rewrite <- Hc. split_and!; try done. rewrite Hsync. split; done.
Qed.
End UnprepareRun.

Lemma size_list_to_set_le (l : list string) : size (list_to_set l : gset string) ≤ length l.
Proof.
  induction l as [|x l IH]; cbn; [by rewrite size_empty|].
  destruct (decide (x ∈ (list_to_set l : gset string))) as [Hin|Hnin].
  - replace ({[x]} ∪ list_to_set l) with (list_to_set l : gset string) by set_solver. lia.
  - rewrite size_union by set_solver. rewrite size_singleton. lia.
Qed.

(** A response as long as the batch that names only claims of the batch
    names all of them. *)
Lemma complete_covers {A} (response : gmap string A) (claims : list Claim.t) :
  size response = length claims →
  (∀ uid, is_Some (response !! uid) → ∃ rq, rq ∈ claims ∧ Claim.Uid rq = uid) →
  ∀ rq, rq ∈ claims → is_Some (response !! Claim.Uid rq).
Proof.
  intros Hsize Hknown rq Hin.
  set (uids := list_to_set (Claim.Uid <$> claims) : gset string).
  assert (Hsub : dom response ⊆ uids).
  { intros uid Hdom. apply elem_of_dom in Hdom. destruct (Hknown uid Hdom) as (rq' & Hin' & <-).
    apply elem_of_list_to_set, list_elem_of_fmap. eauto. }
  assert (Heq : dom response = uids).
  { apply set_subseteq_size_eq; [done|]. rewrite size_dom, Hsize.
    etrans; [apply size_list_to_set_le|]. by rewrite length_fmap. }
  apply elem_of_dom. rewrite Heq. apply elem_of_list_to_set, list_elem_of_fmap. eauto.
Qed.

Lemma deletePodReference_absent uid info :
  uid ∉ ClaimInfo.PodUIDs info → deletePodReference uid info = info.
Proof.
  intros Hnin. destruct info. unfold deletePodReference, withPodUIDs. cbn in *.
  f_equal. apply set_eq. set_solver.
Qed.

Section UnprepareFacts.
Context (nm : Pod.t → PodResourceClaim.t → resolved) (w : World) (pod : Pod.t).
Context (c : claimInfoCache).

(** A record in the cache after the loop over the claims is the record
  the call found, with or without the pod's reference. *)
Lemma unprepare_inv_record names st key info :
unprepare_inv names pod c st → u_cache st !! key = Some info →
∃ info0, c !! key = Some info0 ∧
  (info = info0 ∨ info = deletePodReference (Pod.UID pod) info0).
Proof.
intros Hinv Hk. destruct (ui_cache _ _ _ _ Hinv key) as [Hs|[Hs _]]; rewrite Hk in Hs.
- eauto.
- destruct (c !! key) as [info0|]; [|done]. injection Hs as ->. eauto.
Qed.

Lemma unprepare_inv_filed names st :
unprepare_inv names pod c st → filed_by_name c → filed_by_name (u_cache st).
Proof.
intros Hinv Hfiled key info Hk.
destruct (unprepare_inv_record _ _ _ _ Hinv Hk) as (info0 & Hk0 & [->| ->]);
  by apply Hfiled in Hk0.
Qed.

Lemma unprepare_inv_unique names st :
unprepare_inv names pod c st → uid_unique c → uid_unique (u_cache st).
Proof.
intros Hinv Huniq key1 key2 info1 info2 Hk1 Hk2 Heq.
destruct (unprepare_inv_record _ _ _ _ Hinv Hk1) as (i1 & Hi1 & Hor1).
destruct (unprepare_inv_record _ _ _ _ Hinv Hk2) as (i2 & Hi2 & Hor2).
apply (Huniq _ _ _ _ Hi1 Hi2). by destruct Hor1 as [->| ->], Hor2 as [->| ->].
Qed.

(** Every record of the cache a call leaves was in the cache the call
  found, with or without the pod's reference. *)
Lemma UnprepareResources_record r c' t key info' :
UnprepareResources nm w pod c = (r, c', t) → c' !! key = Some info' →
∃ info, c !! key = Some info ∧
  (info' = info ∨ info' = deletePodReference (Pod.UID pod) info).
Proof.
intros Hrun Hk.
destruct (UnprepareResources_run nm w pod c)
  as (r0 & seen & called & rest & keys & Heq & _ & Hinv & _).
rewrite Heq in Hrun. injection Hrun as <- <- <-.
rewrite removed_lookup in Hk. destruct (decide _); [done|].
by eapply unprepare_inv_record.
Qed.
End UnprepareFacts.

(** A fair range visits exactly the entries of the map. *)
Lemma fair_rangeMap {A} w (m : gmap string A) key value :
  fair_range w → (key, value) ∈ rangeMap w m ↔ m !! key = Some value.
Proof.
  intros Hfair. unfold rangeMap. rewrite <- elem_of_map_to_list.
  by rewrite (Hfair A (map_to_list m)).
Qed.

Section SecondCall.
Context (nm : Pod.t → PodResourceClaim.t → resolved) (pod : Pod.t).

(** A loop that ends normally resolved every claim reference. *)
Lemma unprepareClaims_resolved l st st' x :
forEach (unprepareClaim nm pod) l st = (Done (), st') → x ∈ l →
nm pod x ≠ ResolveFailed.
Proof.
revert st. induction l as [|y l IH]; intros st Hrun Hin; [by apply elem_of_nil in Hin|].
cbn in Hrun. munfold.
destruct (unprepareClaim nm pod y st) as [[[]|e|] st1] eqn:Hy; try done.
apply elem_of_cons in Hin as [->|Hin]; [|eauto].
intros Hfail. unfold unprepareClaim in Hy. rewrite Hfail in Hy. done.
Qed.

(** The loop over the claims changes nothing when every claim it looks
  up is gone or is held by several pods other than this one. *)
Lemma unprepareClaims_noop l st :
(∀ x, x ∈ l → nm pod x ≠ ResolveFailed) →
(∀ name info, name ∈ namesOf nm pod l →
   u_cache st !! (Pod.Namespace pod, name) = Some info →
   1 < size (ClaimInfo.PodUIDs info) ∧ Pod.UID pod ∉ ClaimInfo.PodUIDs info) →
forEach (unprepareClaim nm pod) l st = (Done (), st).
Proof.
induction l as [|x l IH]; intros Hres Hrec; [done|].
cbn. munfold.
assert (Hx : unprepareClaim nm pod x st = (Done (), st)).
{ unfold unprepareClaim.
  destruct (nm pod x) as [|[claimName|] mco] eqn:Hnm; [| |done].
  { destruct (Hres x); [apply list_elem_of_here|done]. }
  destruct (unprepareLocked_run pod claimName st) as (st' & -> & Hr & Hcase).
  f_equal. destruct (u_cache st !! (Pod.Namespace pod, claimName)) as [info|] eqn:Hk; [|done].
  destruct (Hrec claimName info) as [Hsz Hnin]; [|done|].
  { unfold namesOf. cbn. rewrite Hnm. apply list_elem_of_here. }
  rewrite decide_True in Hcase by done. destruct Hcase as (Hc & Hb & Hn).
  rewrite deletePodReference_absent, insert_id in Hc by done.
  destruct st, st'. cbn in *. congruence. }
rewrite Hx. apply IH.
- intros y Hy. apply Hres. by apply list_elem_of_further.
- intros name info Hin. apply Hrec. unfold namesOf in *. cbn.
  destruct (nm pod x) as [|[claimName|] mco]; [done| |done].
  by apply list_elem_of_further.
Qed.
End SecondCall.

Section ReadOnly.
Context (nm : Pod.t → PodResourceClaim.t → resolved).
Context (annotationsAsList : ClaimInfo.t → list (string * string)).
Context (cdiDevicesAsList : ClaimInfo.t → list string).

Lemma GetResources_cache pod container c :
(GetResources nm annotationsAsList cdiDevicesAsList pod container c).2 = c.
Proof.
unfold GetResources.
assert (H : g_cache (GetResourcesBody nm annotationsAsList cdiDevicesAsList pod container
                       (ResourcesFrame c [] [])).2 = c).
{ unfold GetResourcesBody.
  apply (forEach_inv (λ st, g_cache st = c)); [|done].
  intros podClaim st _ Hst. destruct (nm pod podClaim) as [|[claimName|] mco]; [done| |done].
  apply (forEach_inv (λ st, g_cache st = c)); [|done].
  intros claim st' _ Hst'. destruct (decide _); [done|]. munfold.
  by destruct (cache_get _ _ _). }
by destruct (GetResourcesBody _ _ _ _ _ _) as [[] st].
Qed.

Lemma GetContainerClaimInfos_cache pod container c :
(GetContainerClaimInfos nm pod container c).2 = c.
Proof.
unfold GetContainerClaimInfos.
assert (H : i_cache (GetContainerClaimInfosBody nm pod container
                       (ClaimInfosFrame c [])).2 = c).
{ unfold GetContainerClaimInfosBody.
  apply (forEach_inv (λ st, i_cache st = c)); [|done].
  intros podClaim st _ Hst. destruct (nm pod podClaim) as [|claimName mco]; [done|].
  apply (forEach_inv (λ st, i_cache st = c)); [|done].
  intros claim st' _ Hst'. destruct (decide _); [done|]. munfold.
  destruct claimName as [claimName|]; [|done]. by destruct (cache_get _ _ _). }
by destruct (GetContainerClaimInfosBody _ _ _ _) as [[] st].
Qed.
End ReadOnly.

(** ** Calls for a shared claim *)

Lemma prepare_inv_filed uid c st :
  prepare_inv uid c st → filed_by_name c → filed_by_name (p_cache st).
Proof.
  intros Hinv Hfiled key info Hk.
  destruct (pi_cache _ _ _ Hinv key) as [Hs|(claim & _ & <- & Hrec)].
  - rewrite Hs in Hk. by apply Hfiled.
  - rewrite Hk in Hrec. injection Hrec as ->.
    destruct (c !! keyOf claim) as [info0|] eqn:Hk0; cbn; [|done].
    by apply Hfiled in Hk0.
Qed.

Lemma related_advanced_unique c c' :
  related advanced c c' → uid_unique c' → uid_unique c.
Proof.
  intros Hrel Huniq key1 key2 info1 info2 Hk1 Hk2 Heq.
  destruct (related_lookup _ _ _ _ _ Hrel Hk1) as (i1 & Hi1 & Hid1 & _).
  destruct (related_lookup _ _ _ _ _ Hrel Hk2) as (i2 & Hi2 & Hid2 & _).
  apply (Huniq _ _ _ _ Hi1 Hi2).
  injection Hid1 as -> _ _ _ _. injection Hid2 as -> _ _ _ _. done.
Qed.

Lemma requestKey_claimRequest info h :
  requestKey (claimRequest info h) = (ClaimInfo.Namespace info, ClaimInfo.ClaimName info).
Proof. done. Qed.

Section PrepareOnce.
Context (nm : Pod.t → PodResourceClaim.t → resolved) (fp : Pod.t → ResourceClaim.t → bool).
Context (w : World) (pod : Pod.t) (c : claimInfoCache).
Hypothesis Hfair : fair_range w.
Hypothesis Hfiled : filed_by_name c.

(** Every call made comes from a batch built by the loop over the
  claims. *)
Lemma PrepareResources_calls r c' t call :
PrepareResources nm fp w pod c = (r, c', t) → call ∈ t →
∃ p claims, call = NodePrepareResources p claims ∧
  p_batches (afterClaims nm fp w pod c).2 !! p = Some claims.
Proof.
intros Hrun Hcall.
assert (∃ entry, entry ∈ rangeMap w (p_batches (afterClaims nm fp w pod c).2) ∧
          call = prepareCall entry) as ([p claims] & Hentry & ->).
{ destruct (PrepareResources_cases nm fp w pod c)
    as [(e & He & Heq)|[(Hd & r' & c2 & called & rest & _ & _ & Hsplit & _ & Heq)
                       |(Hd & r' & c3 & _ & _ & _ & Heq & _)]];
    rewrite Heq in Hrun; injection Hrun as <- <- <-.
  - by apply elem_of_nil in Hcall.
  - apply list_elem_of_fmap in Hcall as (entry & -> & Hin). exists entry. split; [|done].
    rewrite Hsplit. apply elem_of_app. by left.
  - apply list_elem_of_fmap in Hcall as (entry & -> & Hin). eauto. }
exists p, claims. split; [done|]. by apply (fair_rangeMap w).
Qed.

(** A request for a claim comes from the record of that claim, found
  unprepared by the loop over the claims, and goes to the plugin named
  by the record's driver. *)
Lemma PrepareResources_request r c' t call key :
PrepareResources nm fp w pod c = (r, c', t) → call ∈ t → requests key call →
∃ info1, p_cache (afterClaims nm fp w pod c).2 !! key = Some info1 ∧
  ClaimInfo.prepared info1 = false ∧ calledPlugin call = ClaimInfo.DriverName info1.
Proof.
intros Hrun Hcall Hreq.
destruct (PrepareResources_calls _ _ _ _ Hrun Hcall) as (p & claims & -> & Hb).
destruct Hreq as (rq & Hrq & <-).
pose proof (afterClaims_inv nm fp w pod c) as Hinv.
destruct (pi_batches _ _ _ Hinv p rq) as (key & info1 & h & Hk & Hp & _ & -> & -> & _).
{ by exists claims. }
rewrite requestKey_claimRequest.
rewrite <- (prepare_inv_filed _ _ _ Hinv Hfiled _ _ Hk). eauto.
Qed.

(** Later callers: a claim whose record is prepared gets no request. *)
Lemma PrepareResources_prepared_skipped r c' t key info :
PrepareResources nm fp w pod c = (r, c', t) →
c !! key = Some info → ClaimInfo.prepared info = true →
(∀ call, call ∈ t → ¬ requests key call) ∧
∃ info', c' !! key = Some info' ∧ ClaimInfo.prepared info' = true.
Proof.
intros Hrun Hk Hprep. split.
- intros call Hcall Hreq.
  destruct (PrepareResources_request _ _ _ _ _ Hrun Hcall Hreq) as (info1 & Hk1 & Hp1 & _).
  pose proof (afterClaims_inv nm fp w pod c) as Hinv.
  destruct (pi_cache _ _ _ Hinv key) as [Hs|(claim & _ & _ & Hrec)].
  + rewrite Hs, Hk in Hk1. injection Hk1 as <-. congruence.
  + rewrite Hk1, Hk in Hrec. injection Hrec as ->. cbn in Hp1. congruence.
- destruct (PrepareResources_keeps _ _ _ _ _ _ _ _ _ _ Hrun Hk) as (info' & Hk' & _ & Hp & _).
  eauto.
Qed.

(** First caller: a call that succeeds leaves the claims it used
  prepared, and has sent a request for each handle of a claim that was
  not prepared, all to the plugin of the record's driver. *)
Lemma PrepareResources_first_caller c' t podClaim claimName mustCheckOwner claim :
PrepareResources nm fp w pod c = (Done (), c', t) →
uid_unique c' →
podClaim ∈ Pod.ResourceClaims pod →
nm pod podClaim = Resolved (Some claimName) mustCheckOwner →
kubeGet w (Pod.Namespace pod) claimName = Some claim →
claimIsUsedByPod podClaim pod = true →
(∀ info, c !! keyOf claim = Some info → ClaimInfo.prepared info = false) →
∃ info', c' !! keyOf claim = Some info' ∧ ClaimInfo.prepared info' = true ∧
  Pod.UID pod ∈ ClaimInfo.PodUIDs info' ∧
  (ClaimInfo.ResourceHandles info' ≠ [] →
     ∃ call, call ∈ t ∧ requests (keyOf claim) call) ∧
  (∀ call, call ∈ t → requests (keyOf claim) call →
     calledPlugin call = ClaimInfo.DriverName info').
Proof.
intros Hrun Huniq Hin Hnm Hget Hused Hunprepared.
pose proof (afterClaims_inv nm fp w pod c) as Hinv.
destruct (PrepareResources_cases nm fp w pod c)
  as [(e & He & Heq)|[(Hd & r' & c2 & called & rest & Hnd & _ & _ & _ & Heq)
                     |(Hd & r' & c3 & _ & Hrel & _ & Heq & Hmarked)]];
  rewrite Heq in Hrun; injection Hrun as Hr Hc Ht; try done.
subst r' c3 t. destruct (Hmarked eq_refl) as [_ Hmark].
(* the claim was registered, and its record was not prepared *)
assert (Hdef : claim ∈ p_deferred (afterClaims nm fp w pod c).2).
{ unfold afterClaims, prepareClaims in *.
  destruct (forEach _ _ _) as [r1 st1] eqn:Hloop in Hd |- *. cbn in Hd. subst r1.
  by eapply prepareClaims_deferred. }
destruct (pi_deferred _ _ _ Hinv claim Hdef) as (info1 & Hk1 & Hu1).
assert (Hp1 : ClaimInfo.prepared info1 = false).
{ destruct (pi_cache _ _ _ Hinv (keyOf claim)) as [Hs|(claim2 & _ & _ & Hrec)].
  - rewrite Hs in Hk1. eauto.
  - rewrite Hk1 in Hrec. injection Hrec as ->.
    destruct (c !! keyOf claim) as [info0|] eqn:Hk0; cbn; eauto. }
destruct (pi_queued _ _ _ Hinv claim info1 Hdef Hk1 Hp1) as [[claim2 Hrc] Hbat].
destruct (related_lookup _ _ _ _ _ Hrel Hk1) as (info' & Hk' & Hid & Hu & _).
injection Hid as Hid1 Hid2 Hid3 Hid4 Hid5.
exists info'. split; [done|]. split_and!.
- (* the entry of resourceClaims for its UID leads back to it *)
  destruct (pi_resourceClaims _ _ _ Hinv _ _ Hrc) as (info2 & Hk2 & Huid2 & _).
  pose proof (related_advanced_unique _ _ Hrel Huniq _ _ _ _ Hk2 Hk1 Huid2) as Hsame.
  destruct (Hmark (ClaimInfo.ClaimUID info1, claim2)) as (info3 & Hk3 & Hp3).
  { by apply fair_rangeMap. }
  cbn in Hk3. rewrite Hsame, Hk' in Hk3. by injection Hk3 as <-.
- by rewrite Hu.
- intros Hhandles. destruct (ClaimInfo.ResourceHandles info1) as [|h hs] eqn:Hh; [congruence|].
  destruct (Hbat h) as (claims & Hb & Hrq); [apply list_elem_of_here|].
  exists (NodePrepareResources (ClaimInfo.DriverName info1) claims). split.
  + apply (list_elem_of_fmap_2 prepareCall _ (_, _)). by apply fair_rangeMap.
  + exists (claimRequest info1 h). split; [done|].
    rewrite requestKey_claimRequest.
    by rewrite <- (prepare_inv_filed _ _ _ Hinv Hfiled _ _ Hk1).
- intros call Hcall Hreq.
  destruct (PrepareResources_request _ _ _ _ _ Heq Hcall Hreq) as (info2 & Hk2 & _ & ->).
  rewrite Hk1 in Hk2. injection Hk2 as <-. done.
Qed.
End PrepareOnce.

Section PrepareOncePerPlugin.
Context (nm : Pod.t → PodResourceClaim.t → resolved) (fp : Pod.t → ResourceClaim.t → bool).
Context (w : World) (pod : Pod.t) (c : claimInfoCache).

(** A call of [PrepareResources] calls no plugin twice. *)
Lemma PrepareResources_one_call_per_plugin r c' t :
fair_range w → PrepareResources nm fp w pod c = (r, c', t) → NoDup (calledPlugin <$> t).
Proof.
intros Hfair Hrun.
assert (Hentries : NoDup (rangeMap w (p_batches (afterClaims nm fp w pod c).2)).*1).
{ unfold rangeMap. rewrite (Hfair _ _). apply NoDup_fst_map_to_list. }
assert (Hfst : ∀ entries, calledPlugin <$> map prepareCall entries = entries.*1).
{ intros entries. induction entries as [|[p claims] entries IH]; cbn; [done|].
  f_equal. apply IH. }
destruct (PrepareResources_cases nm fp w pod c)
  as [(e & He & Heq)|[(Hd & r' & c2 & called & rest & _ & _ & Hsplit & _ & Heq)
                     |(Hd & r' & c3 & _ & _ & _ & Heq & _)]];
  rewrite Heq in Hrun; injection Hrun as <- <- <-.
- constructor.
- rewrite Hfst. rewrite Hsplit, fmap_app in Hentries. by apply NoDup_app in Hentries as [? _].
- by rewrite Hfst.
Qed.
End PrepareOncePerPlugin.

Section UnprepareLast.
Context (nm : Pod.t → PodResourceClaim.t → resolved) (w : World) (pod : Pod.t).
Context (c : claimInfoCache).
Hypothesis Hfair : fair_range w.
Hypothesis Hfiled : filed_by_name c.
Hypothesis Hdistinct : NoDup (resolvedNames nm pod).

Lemma seen_distinct seen rest1 :
Pod.ResourceClaims pod = seen ++ rest1 → NoDup (namesOf nm pod seen).
Proof.
intros Hsplit. unfold resolvedNames, namesOf in *. rewrite Hsplit, omap_app in Hdistinct.
by apply NoDup_app in Hdistinct as [? _].
Qed.

(** A request for a claim comes from a record that had at most one
  reference when the call began. *)
Lemma UnprepareResources_request r c' t call key :
UnprepareResources nm w pod c = (r, c', t) → call ∈ t → requests key call →
∃ info, c !! key = Some info ∧ size (ClaimInfo.PodUIDs info) ≤ 1.
Proof.
intros Hrun Hcall Hreq.
destruct (UnprepareResources_run nm w pod c)
  as (r0 & seen & called & rest & keys & Heq & _ & Hinv & [rest1 Hseen] & Hsplit & _).
rewrite Heq in Hrun. injection Hrun as <- <- <-.
apply list_elem_of_fmap in Hcall as ([p claims] & -> & Hentry).
destruct Hreq as (rq & Hrq & <-). cbn in Hrq.
assert (Hbat : batched (u_batches (afterUnprepareClaims nm pod c).2) p rq).
{ exists claims. split; [|done]. apply (fair_rangeMap w); [done|].
  rewrite Hsplit. apply elem_of_app. by left. }
destruct (ui_first_batches _ _ _ _ Hinv (seen_distinct _ _ Hseen) p rq Hbat)
  as (name & info0 & h & _ & Hk0 & Hsz & _ & ->).
rewrite requestKey_claimRequest, <- (Hfiled _ _ Hk0). eauto.
Qed.

(** The entries a call deletes held records with at most one reference
  when the call began. *)
Lemma UnprepareResources_released (keys : list cacheKey) key seen rest1 :
Pod.ResourceClaims pod = seen ++ rest1 →
unprepare_inv (namesOf nm pod seen) pod c (afterUnprepareClaims nm pod c).2 →
(∀ key, key ∈ keys →
   ∃ entry, entry ∈ rangeMap w (u_batches (afterUnprepareClaims nm pod c).2) ∧
     released_by w pod (u_claimNames (afterUnprepareClaims nm pod c).2) entry key) →
key ∈ keys → ∃ info, c !! key = Some info ∧ size (ClaimInfo.PodUIDs info) ≤ 1.
Proof.
intros Hseen Hinv Hkeys Hin.
destruct (Hkeys key Hin) as ([p claims] & Hentry & response & result & _ & _ &
                             (rq & Hrq & Huid) & ->).
cbn in Hrq.
assert (Hbat : batched (u_batches (afterUnprepareClaims nm pod c).2) p rq).
{ exists claims. split; [|done]. by apply (fair_rangeMap w). }
destruct (ui_batches _ _ _ _ Hinv p rq Hbat)
  as (name & info & h & _ & _ & _ & _ & -> & _ & name' & Hname).
cbn in Huid. unfold releasedKey. rewrite <- Huid, Hname. cbn.
destruct (ui_first_names _ _ _ _ Hinv (seen_distinct _ _ Hseen) _ _ Hname)
  as (name0 & info0 & _ & Hk0 & Hsz & _ & Hcn).
pose proof (Hfiled _ _ Hk0) as Hkey. injection Hkey as _ ->.
rewrite <- Hcn. eauto.
Qed.

(** A claim other pods still hold: the call sends no request for it and
  only the pod's own reference goes. *)
Lemma UnprepareResources_shared r c' t key info :
UnprepareResources nm w pod c = (r, c', t) →
c !! key = Some info → 1 < size (ClaimInfo.PodUIDs info) →
(∀ call, call ∈ t → ¬ requests key call) ∧
(c' !! key = Some info ∨ c' !! key = Some (deletePodReference (Pod.UID pod) info)) ∧
(r = Done () → ∀ name, name ∈ resolvedNames nm pod → key = (Pod.Namespace pod, name) →
   c' !! key = Some (deletePodReference (Pod.UID pod) info)).
Proof.
intros Hrun Hk Hshared.
assert (Hnoreq : ∀ call, call ∈ t → ¬ requests key call).
{ intros call Hcall Hreq.
  destruct (UnprepareResources_request _ _ _ _ _ Hrun Hcall Hreq) as (info0 & Hk0 & Hsz).
  rewrite Hk in Hk0. injection Hk0 as <-. lia. }
split; [done|].
destruct (UnprepareResources_run nm w pod c)
  as (r0 & seen & called & rest & keys & Heq & _ & Hinv & [rest1 Hseen] & Hsplit &
      Hkeys & Hreached).
rewrite Heq in Hrun. injection Hrun as <- <- <-.
assert (Hkept : key ∉ keys).
{ intros Hin.
  destruct (UnprepareResources_released keys key _ _ Hseen Hinv Hkeys Hin)
    as (info0 & Hk0 & Hsz).
  rewrite Hk in Hk0. injection Hk0 as <-. lia. }
rewrite removed_lookup, decide_False by done. split.
- destruct (ui_cache _ _ _ _ Hinv key) as [Hs|[Hs _]]; rewrite Hs, Hk; auto.
- intros -> name Hname ->.
  destruct (Hreached (or_introl eq_refl)) as (-> & _).
  rewrite (ui_first _ _ _ _ Hinv Hdistinct name info Hname Hk).
  by rewrite decide_True.
Qed.
End UnprepareLast.

(** ** The claims about PrepareResources *)

(** C7: when the pod is not in the reservation set of a claim it
    references, [PrepareResources] returns an error, makes no plugin call,
    and the pod's reference is on that claim's record afterwards only if
    it was there before the call. *)
Theorem prepare_rejects_unreserved_pod nm fp w pod c podClaim claimName mustCheckOwner claim :
  podClaim ∈ Pod.ResourceClaims pod →
  nm pod podClaim = Resolved (Some claimName) mustCheckOwner →
  kubeGet w (Pod.Namespace pod) claimName = Some claim →
  IsReservedForPod pod claim = false →
  ∃ e c', PrepareResources nm fp w pod c = (Failed e, c', []) ∧
    ∀ info', c' !! keyOf claim = Some info' → Pod.UID pod ∈ ClaimInfo.PodUIDs info' →
      ∃ info, c !! keyOf claim = Some info ∧ Pod.UID pod ∈ ClaimInfo.PodUIDs info.
Proof.
  intros Hin Hnm Hget Hres.
  destruct (prepareClaims_unreserved nm fp w pod (Pod.ResourceClaims pod)
              (PrepareFrame c [] ∅ ∅ []) _ _ _ _ Hin Hnm Hget Hres) as [e He].
  destruct (PrepareResources_cases nm fp w pod c)
    as [(e' & He' & Heq)|[(Hd & _)|(Hd & _)]];
    [|unfold afterClaims, prepareClaims in Hd; congruence..].
  eexists _, _. split; [exact Heq|].
  intros info'. by apply (PrepareResources_failed_reference _ _ _ _ _ _ _ _ _ _ Heq).
Qed.

Lemma prepare_rejects_unreserved_pod_witness :
  ∃ e c', Example.rejected = (Failed e, c', []) ∧
    ∀ info', c' !! keyOf Example.claimB = Some info' →
      Pod.UID Example.pod1AB ∈ ClaimInfo.PodUIDs info' →
      ∃ info, (∅ : claimInfoCache) !! keyOf Example.claimB = Some info ∧
        Pod.UID Example.pod1AB ∈ ClaimInfo.PodUIDs info.
Proof.
  apply (prepare_rejects_unreserved_pod Example.resolveBySource Example.ownedByAll
           Example.world Example.pod1AB ∅ Example.refB "claim-b"%string false Example.claimB).
  - apply list_elem_of_further, list_elem_of_here.
  - reflexivity.
  - reflexivity.
  - reflexivity.
Defined.

(** The references a failed [PrepareResources] leaves on a record that
    was cached before the call: the references it held, without that of
    the pod when the call registered a deferred function for the claim
    filed under the key. *)
Lemma PrepareResources_failed_records nm fp w pod c e c' t key info :
  PrepareResources nm fp w pod c = (Failed e, c', t) →
  c !! key = Some info →
  ∃ info', c' !! key = Some info' ∧
    ClaimInfo.PodUIDs info' =
      if decide (key ∈ keyOf <$> deferredClaims nm fp w pod c)
      then ClaimInfo.PodUIDs info ∖ {[Pod.UID pod]} else ClaimInfo.PodUIDs info.
Proof.
  intros Hrun Hk.
  destruct (PrepareResources_cache _ _ _ _ _ _ _ _ Hrun) as (cmid & Hrel & ->).
  rewrite runDeferred_lookup.
  pose proof (afterClaims_inv nm fp w pod c) as Hinv.
  assert (Hmid : ∃ info1, p_cache (afterClaims nm fp w pod c).2 !! key = Some info1 ∧
            (ClaimInfo.PodUIDs info1 = ClaimInfo.PodUIDs info ∨
             (key ∈ keyOf <$> deferredClaims nm fp w pod c ∧
              ClaimInfo.PodUIDs info1 = {[Pod.UID pod]} ∪ ClaimInfo.PodUIDs info))).
  { destruct (pi_cache _ _ _ Hinv key) as [Hsame|(claim & Hdef & Hkey & Hrec)].
    - exists info. split; [congruence|by left].
    - eexists. split; [exact Hrec|]. right. split.
      + apply list_elem_of_fmap. by exists claim.
      + by rewrite Hk. }
  destruct Hmid as (info1 & Hk1 & Hrefs).
  destruct (related_lookup _ _ _ _ _ Hrel Hk1) as (info2 & Hk2 & _ & Hsame & _).
  rewrite Hk2. destruct (decide _) as [Hin|Hout]; cbn.
  - eexists. split; [done|]. cbn. rewrite Hsame.
    destruct Hrefs as [->|[_ ->]]; [done|]. set_solver.
  - eexists. split; [done|]. rewrite Hsame. destruct Hrefs as [->|[Hin _]]; done.
Qed.

(** C5, amended: when [PrepareResources] returns an error, the pod holds
    no reference it did not hold before the call; the record of every
    claim the call registered a deferred function for is left without the
    pod's reference, whether or not the pod held it before; the
    references of the other pods are what they were; and a record the
    call registered no deferred function for keeps all its references,
    that of the pod included. *)
Theorem failed_prepare_drops_pod_reference nm fp w pod c e c' t :
  PrepareResources nm fp w pod c = (Failed e, c', t) →
  (∀ key info', c' !! key = Some info' → Pod.UID pod ∈ ClaimInfo.PodUIDs info' →
     ∃ info, c !! key = Some info ∧ Pod.UID pod ∈ ClaimInfo.PodUIDs info) ∧
  (∀ claim, claim ∈ deferredClaims nm fp w pod c →
     ∃ info', c' !! keyOf claim = Some info' ∧ Pod.UID pod ∉ ClaimInfo.PodUIDs info') ∧
  (∀ key info other, c !! key = Some info → other ≠ Pod.UID pod →
     ∃ info', c' !! key = Some info' ∧
       (other ∈ ClaimInfo.PodUIDs info' ↔ other ∈ ClaimInfo.PodUIDs info)) ∧
  (∀ key info, c !! key = Some info →
     ∃ info', c' !! key = Some info' ∧
       ClaimInfo.PodUIDs info' =
         if decide (key ∈ keyOf <$> deferredClaims nm fp w pod c)
         then ClaimInfo.PodUIDs info ∖ {[Pod.UID pod]} else ClaimInfo.PodUIDs info).
Proof.
  intros Hrun. split_and!.
  - intros key info'. by apply (PrepareResources_failed_reference _ _ _ _ _ _ _ _ _ _ Hrun).
  - intros claim. by apply (PrepareResources_failed_deferred _ _ _ _ _ _ _ _ _ Hrun).
  - intros key info other Hk Hne.
    destruct (PrepareResources_keeps _ _ _ _ _ _ _ _ _ _ Hrun Hk) as (info' & Hk' & _ & _ & Hu).
    eauto.
  - intros key info. by apply (PrepareResources_failed_records _ _ _ _ _ _ _ _ _ _ Hrun).
Qed.

Lemma failed_prepare_drops_pod_reference_witness :
  (∀ key info', Example.failedRetry.1.2 !! key = Some info' →
     Pod.UID Example.pod1AB ∈ ClaimInfo.PodUIDs info' →
     ∃ info, Example.heldBy {["pod-1"; "pod-2"]}%string !! key = Some info ∧
       Pod.UID Example.pod1AB ∈ ClaimInfo.PodUIDs info) ∧
  (∀ claim, claim ∈ deferredClaims Example.resolveBySource Example.ownedByAll Example.world
                      Example.pod1AB (Example.heldBy {["pod-1"; "pod-2"]}%string) →
     ∃ info', Example.failedRetry.1.2 !! keyOf claim = Some info' ∧
       Pod.UID Example.pod1AB ∉ ClaimInfo.PodUIDs info') ∧
  (∀ key info other,
     Example.heldBy {["pod-1"; "pod-2"]}%string !! key = Some info →
     other ≠ Pod.UID Example.pod1AB →
     ∃ info', Example.failedRetry.1.2 !! key = Some info' ∧
       (other ∈ ClaimInfo.PodUIDs info' ↔ other ∈ ClaimInfo.PodUIDs info)) ∧
  (∀ key info,
     Example.heldBy {["pod-1"; "pod-2"]}%string !! key = Some info →
     ∃ info', Example.failedRetry.1.2 !! key = Some info' ∧
       ClaimInfo.PodUIDs info' =
         if decide (key ∈ keyOf <$> deferredClaims Example.resolveBySource Example.ownedByAll
                                      Example.world Example.pod1AB
                                      (Example.heldBy {["pod-1"; "pod-2"]}%string))
         then ClaimInfo.PodUIDs info ∖ {[Pod.UID Example.pod1AB]}
         else ClaimInfo.PodUIDs info).
Proof.
  apply (failed_prepare_drops_pod_reference Example.resolveBySource Example.ownedByAll
           Example.world Example.pod1AB (Example.heldBy {["pod-1"; "pod-2"]}%string)
           (ErrNotReserved "claim-b") Example.failedRetry.1.2 Example.failedRetry.2).
  vm_compute. reflexivity.
Defined.

(** C5 as stated fails: [pod-1] holds [claim-a], prepares again with a
    second claim it is not reserved for, and the failed call leaves
    [claim-a] without the reference [pod-1] held before. *)
Lemma failed_prepare_loses_held_reference :
  ¬ (∀ nm fp w pod c e c' t key info uid,
       PrepareResources nm fp w pod c = (Failed e, c', t) →
       c !! key = Some info → uid ∈ ClaimInfo.PodUIDs info →
       ∃ info', c' !! key = Some info' ∧ uid ∈ ClaimInfo.PodUIDs info').
Proof.
  intros H.
  destruct (H Example.resolveBySource Example.ownedByAll Example.world Example.pod1AB
              (Example.heldBy {["pod-1"; "pod-2"]}%string)
              (ErrNotReserved "claim-b") Example.failedRetry.1.2 Example.failedRetry.2
              ("default", "claim-a")%string
              (ClaimInfo.mk "uid-a" "claim-a" "default" "driver-a" [Example.handle]
                 {["pod-1"; "pod-2"]} ∅ true)%string
              "pod-1"%string) as (info' & Hk & Hin).
  - vm_compute. reflexivity.
  - vm_compute. reflexivity.
  - compute_done.
  - vm_compute in Hk. injection Hk as <-. revert Hin. compute_done.
Qed.



(** ** The claims about UnprepareResources *)

(** C6: a call of [UnprepareResources] whose checkpoint cannot be
    written does not return success; and when the call returns the
    checkpoint error, every record a plugin call of this call carried a
    request for is gone from the cache.  The records are filed under
    their own name and carry distinct claim UIDs. *)
Theorem checkpoint_failure_keeps_releases nm w pod c r c' t :
  fair_range w → filed_by_name c → uid_unique c →
  UnprepareResources nm w pod c = (r, c', t) →
  (syncToCheckpoint w c' = false → ∃ e, r = Failed e) ∧
  (r = Failed ErrCheckpoint →
     ∀ call key, call ∈ t → requests key call → c' !! key = None).
Proof.
  intros Hfair Hfiled Huniq Hrun.
  destruct (UnprepareResources_run nm w pod c)
    as (r0 & seen & called & rest & keys & Heq & Hnp & Hinv & _ & Hsplit & _ & Hreached).
  rewrite Heq in Hrun. injection Hrun as <- <- <-. split.
  - intros Hsync. destruct r0 as [[]|e|]; [|eauto|done].
    destruct (Hreached (or_introl eq_refl)) as (_ & _ & [Hs _] & _).
    rewrite Hs in Hsync by done. done.
  - intros ->. destruct (Hreached (or_intror eq_refl)) as (_ & -> & _ & Hall).
    rewrite app_nil_r in Hsplit. subst called.
    intros call key Hcall Hreq.
    apply list_elem_of_fmap in Hcall as ([p claims] & -> & Hentry).
    destruct Hreq as (rq & Hrq & <-). cbn in Hrq.
    destruct (Hall _ Hentry) as [(response & Hresp & Hsize & Hknown) Hreleased].
    cbn in Hresp, Hsize, Hknown.
    (* the request comes from a queued record *)
    assert (Hbat : batched (u_batches (afterUnprepareClaims nm pod c).2) p rq).
    { exists claims. split; [|done]. by apply (fair_rangeMap w). }
    destruct (ui_batches _ _ _ _ Hinv p rq Hbat)
      as (name & info & h & _ & Hk & _ & _ & -> & _ & name' & Hname).
    (* the response names its claim *)
    destruct (complete_covers response claims Hsize) with (rq := claimRequest info h)
      as [result Hres]; [|done|].
    { intros uid [result Hres]. apply (Hknown (uid, result)). by apply fair_rangeMap. }
    cbn in Hres.
    (* and the entry deleted for it is the record's own *)
    destruct (ui_claimNames _ _ _ _ Hinv _ _ Hname) as (name2 & info2 & _ & Hk2 & Huid & Hcn & _).
    pose proof (unprepare_inv_unique pod c _ _ Hinv Huniq _ _ _ _ Hk2 Hk Huid) as Hsame.
    injection Hsame as ->. rewrite Hk in Hk2. injection Hk2 as <-.
    pose proof (unprepare_inv_filed pod c _ _ Hinv Hfiled _ _ Hk) as Hkey.
    injection Hkey as Hns Hn.
    rewrite removed_lookup, decide_True; [done|]. apply (Hreleased).
    exists response, (ClaimInfo.ClaimUID info, result). split_and!; [done| | |].
    + by apply fair_rangeMap.
    + by exists (claimRequest info h).
    + unfold requestKey, releasedKey. cbn. rewrite Hname. cbn. congruence.
Qed.

Lemma heldBy_filed uids : filed_by_name (Example.heldBy uids).
Proof. unfold Example.heldBy. intros key info [<- <-]%lookup_singleton_Some. done. Qed.

Lemma heldBy_unique uids : uid_unique (Example.heldBy uids).
Proof.
  unfold Example.heldBy.
  intros key1 key2 info1 info2 [<- _]%lookup_singleton_Some [<- _]%lookup_singleton_Some _.
  done.
Qed.

Lemma fair_range_brokenStorage : fair_range Example.brokenStorage.
Proof. intros A l. reflexivity. Qed.

Lemma checkpoint_failure_keeps_releases_witness :
  Example.unsavedUnprepare.1.1 = Failed ErrCheckpoint ∧
  Example.unsavedUnprepare.1.2 !! ("default", "claim-a")%string = None.
Proof.
  split; [vm_compute; reflexivity|].
  destruct (checkpoint_failure_keeps_releases Example.resolveBySource Example.brokenStorage
              Example.pod1 (Example.heldBy {["pod-1"%string]})
              Example.unsavedUnprepare.1.1 Example.unsavedUnprepare.1.2
              Example.unsavedUnprepare.2) as [_ Hgone].
  - apply fair_range_brokenStorage.
  - apply heldBy_filed.
  - apply heldBy_unique.
  - vm_compute. reflexivity.
  - apply (Hgone eq_refl
             (NodeUnprepareResources "driver-b" [Example.requestA])
             ("default", "claim-a")%string).
    + vm_compute. apply list_elem_of_here.
    + exists Example.requestA. split; [apply list_elem_of_here|reflexivity].
Defined.

(** C3 fails on the code: [pod-1] and [pod-2] hold [claim-a]; the first
    call of [pod-1] removes its reference, keeps the record and calls no
    plugin; the second call of [pod-1] finds the record with the one
    reference of [pod-2], calls the plugin and deletes the record. *)
Theorem second_unprepare_releases_claim_of_other_pod :
  Example.unprepareOfTwo = (Done (), Example.heldBy {["pod-2"]}%string, []) ∧
  Example.unprepareAgain =
    (Done (), ∅, [NodeUnprepareResources "driver-b" [Example.requestA]]).
Proof. split; vm_compute; reflexivity. Qed.

(** C8: a record that is prepared and is still cached after
    [PrepareResources] or [UnprepareResources] is still prepared, and
    [GetResources], [GetContainerClaimInfos] and
    [PodMightNeedToUnprepareResources] leave the cache as it is. *)
Theorem prepared_flag_is_monotonic nm fp annotationsAsList cdiDevicesAsList
    w pod container uid c key info :
  c !! key = Some info → ClaimInfo.prepared info = true →
  (∀ info', (PrepareResources nm fp w pod c).1.2 !! key = Some info' →
     ClaimInfo.prepared info' = true) ∧
  (∀ info', (UnprepareResources nm w pod c).1.2 !! key = Some info' →
     ClaimInfo.prepared info' = true) ∧
  (GetResources nm annotationsAsList cdiDevicesAsList pod container c).2 = c ∧
  (GetContainerClaimInfos nm pod container c).2 = c ∧
  (PodMightNeedToUnprepareResources uid c).2 = c.
Proof.
  intros Hk Hprep. split_and!.
  - intros info' H.
    destruct (PrepareResources nm fp w pod c) as [[r c'] t] eqn:Hrun. cbn in H.
    destruct (PrepareResources_keeps _ _ _ _ _ _ _ _ _ _ Hrun Hk) as (info2 & Hk2 & _ & Hp & _).
    rewrite Hk2 in H. injection H as <-. auto.
  - intros info' H.
    destruct (UnprepareResources nm w pod c) as [[r c'] t] eqn:Hrun. cbn in H.
    destruct (UnprepareResources_record _ _ _ _ _ _ _ _ _ Hrun H) as (info0 & Hk0 & [->| ->]);
      rewrite Hk in Hk0; by injection Hk0 as <-.
  - apply GetResources_cache.
  - apply GetContainerClaimInfos_cache.
  - done.
Qed.

Lemma prepared_flag_is_monotonic_witness :
  (∃ info', Example.unprepareOfTwo.1.2 !! ("default", "claim-a")%string = Some info' ∧
     ClaimInfo.prepared info' = true) ∧
  (GetContainerClaimInfos Example.resolveBySource Example.pod1 Example.container
     (Example.heldBy {["pod-1"; "pod-2"]}%string)).2 =
  Example.heldBy {["pod-1"; "pod-2"]}%string.
Proof.
  destruct (prepared_flag_is_monotonic Example.resolveBySource Example.ownedByAll
              (λ _, []) (λ _, []) Example.world Example.pod1 Example.container
              "pod-1"%string (Example.heldBy {["pod-1"; "pod-2"]}%string)
              ("default", "claim-a")%string
              (ClaimInfo.mk "uid-a" "claim-a" "default" "driver-a" [Example.handle]
                 {["pod-1"; "pod-2"]} ∅ true)%string)
    as (_ & Hunprepare & _ & Hinfos & _).
  - vm_compute. reflexivity.
  - reflexivity.
  - split; [|exact Hinfos].
    exists (ClaimInfo.mk "uid-a" "claim-a" "default" "driver-a" [Example.handle]
              {["pod-2"]} ∅ true)%string.
    assert (Hk : Example.unprepareOfTwo.1.2 !! ("default", "claim-a")%string =
                 Some (ClaimInfo.mk "uid-a" "claim-a" "default" "driver-a" [Example.handle]
                         {["pod-2"]} ∅ true)%string)
      by (vm_compute; reflexivity).
    split; [exact Hk|]. exact (Hunprepare _ Hk).
Defined.
(** ** The claims about sharing, lookups and the plugin rule *)

(** [PrepareResources] files the records it creates under their own
    name. *)
Lemma PrepareResources_filed nm fp w pod c r c' t :
  PrepareResources nm fp w pod c = (r, c', t) → filed_by_name c → filed_by_name c'.
Proof.
  intros Hrun Hfiled key info' Hk'. destruct (c !! key) as [info|] eqn:Hk.
  - destruct (PrepareResources_keeps _ _ _ _ _ _ _ _ _ _ Hrun Hk) as (info2 & Hk2 & Hid & _).
    rewrite Hk' in Hk2. injection Hk2 as <-. injection Hid as _ -> -> _ _. by apply Hfiled.
  - destruct (PrepareResources_creates _ _ _ _ _ _ _ _ _ _ Hrun Hk Hk')
      as (claim & _ & <- & Hid & _).
    by injection Hid as _ -> -> _ _.
Qed.

(** However many calls of [PrepareResources] follow, none of them sends
    a request for a claim whose record is prepared. *)
Lemma prepareAll_prepared_skipped nm fp calls c key info call :
  Forall (λ each, fair_range each.1) calls → filed_by_name c →
  c !! key = Some info → ClaimInfo.prepared info = true →
  call ∈ prepareAll nm fp calls c → ¬ requests key call.
Proof.
  revert c info. induction calls as [|[w pod] calls IH]; intros c info Hfair Hfiled Hk Hprep Hcall.
  - by apply elem_of_nil in Hcall.
  - cbn in Hcall. apply Forall_cons in Hfair as [Hw Hfair]. cbn in Hw.
    destruct (PrepareResources nm fp w pod c) as [[r c'] t] eqn:Hrun. cbn in Hcall.
    destruct (PrepareResources_prepared_skipped nm fp w pod c Hw Hfiled _ _ _ _ _ Hrun Hk Hprep)
      as [Hnone (info' & Hk' & Hprep')].
    apply elem_of_app in Hcall as [Hcall|Hcall]; [by apply Hnone|].
    eapply (IH c' info'); eauto. by eapply PrepareResources_filed.
Qed.

(** C2 fails on the code: [pod-1] and [pod-2] hold [claim-a].  A pod
    with one reference to the claim finds two holders, removes its own
    reference and calls no plugin.  [pod-1] with two references to the
    claim finds two holders at the first, one at the second, calls the
    plugin and deletes the record [pod-2] holds. *)
Theorem duplicate_reference_releases_shared_claim :
  Example.unprepareOfTwo = (Done (), Example.heldBy {["pod-2"]}%string, []) ∧
  Example.unprepareTwice =
    (Done (), ∅, [NodeUnprepareResources "driver-b" [Example.requestA]]).
Proof. split; vm_compute; reflexivity. Qed.

(** C9: [PodMightNeedToUnprepareResources] answers true exactly when
    some cached record holds a reference of the pod, and leaves the cache
    as it is. *)
Theorem pod_might_need_unprepare_iff_referenced uid c :
  ∃ answer, PodMightNeedToUnprepareResources uid c = (Done answer, c) ∧
    (answer = true ↔ ∃ key info, c !! key = Some info ∧ uid ∈ ClaimInfo.PodUIDs info).
Proof.
  eexists. split; [reflexivity|]. unfold cache_hasPodReference.
  rewrite existsb_exists. split.
  - intros ([key info] & Hin & Href). apply list_elem_of_In, elem_of_map_to_list in Hin.
    exists key, info. split; [done|]. by apply bool_decide_eq_true in Href.
  - intros (key & info & Hk & Href). exists (key, info). split.
    + by apply list_elem_of_In, elem_of_map_to_list.
    + by apply bool_decide_eq_true.
Qed.

(** C1 fails on the code: the one handle of [claim-a] names [driver-b]
    and the claim names [driver-a]; [PrepareResources] sends the request
    to [driver-a], [UnprepareResources] sends it to [driver-b]. *)
Theorem prepare_batches_under_claim_driver :
  ResourceHandle.DriverName Example.handle = "driver-b"%string ∧
  Example.firstPrepare.2 = [NodePrepareResources "driver-a" [Example.requestA]] ∧
  Example.unprepareOfOne.2 = [NodeUnprepareResources "driver-b" [Example.requestA]].
Proof. split_and!; vm_compute; reflexivity. Qed.

(** [GetResources] does not panic. *)
Lemma GetResources_no_panic nm annotationsAsList cdiDevicesAsList pod container c :
  (GetResources nm annotationsAsList cdiDevicesAsList pod container c).1 ≠ Panicked.
Proof.
  unfold GetResources.
  assert (H : (GetResourcesBody nm annotationsAsList cdiDevicesAsList pod container
                 (ResourcesFrame c [] [])).1 ≠ Panicked).
  { unfold GetResourcesBody. apply (forEach_outcome (λ r, r ≠ Panicked)); [done|].
    intros podClaim st. destruct (nm pod podClaim) as [|[claimName|] mco]; [done| |done].
    apply (forEach_outcome (λ r, r ≠ Panicked)); [done|].
    intros claim st'. destruct (decide _); [done|]. munfold.
    by destruct (cache_get _ _ _). }
  by destruct (GetResourcesBody _ _ _ _ _ _) as [[[]|e|] st].
Qed.

(** C10 fails on the code: for a pod whose claim reference resolves to no
    claim and a container that lists the reference, [GetContainerClaimInfos]
    panics on the nil claim name, where [GetResources] skips the
    reference. *)
Theorem claim_infos_of_unresolved_reference_panic :
  GetContainerClaimInfos Example.resolveBySource Example.podNil Example.container ∅ =
    (Panicked, ∅) ∧
  GetResources Example.resolveBySource (λ _, []) (λ _, []) Example.podNil Example.container ∅ =
    (Done ([], []), ∅).
Proof. split; vm_compute; reflexivity. Qed.
(** * Further properties of the manager *)

(** ** The helpers of the manager *)

(** X1: [lookupClaimRequest] returns the first request of the batch that
    carries the claim UID, and nothing exactly when no request of the
    batch carries it. *)
Theorem lookupClaimRequest_first_match claims claimUID :
  match lookupClaimRequest claims claimUID with
  | Some request =>
      ∃ before after, claims = before ++ request :: after ∧
        Claim.Uid request = claimUID ∧
        ∀ other, other ∈ before → Claim.Uid other ≠ claimUID
  | None => ∀ request, request ∈ claims → Claim.Uid request ≠ claimUID
  end.
Proof.
  unfold lookupClaimRequest. induction claims as [|claim claims IH]; cbn.
  - intros request Hin. by apply elem_of_nil in Hin.
  - case_bool_decide as Huid.
    + exists [], claims. split_and!; [done|done|].
      intros other Hin. by apply elem_of_nil in Hin.
    + destruct (find _ claims) as [request|].
      * destruct IH as (before & after & -> & Hreq & Hbefore).
        exists (claim :: before), after. split_and!; [done|done|].
        intros other [->|Hin]%elem_of_cons; auto.
      * intros request [->|Hin]%elem_of_cons; auto.
Qed.

(** A container uses a pod claim when it lists the name of the claim. *)
Lemma claimIsUsedByContainers_listed podClaim containers :
  claimIsUsedByContainers podClaim containers = true ↔
  ∃ container, container ∈ containers ∧
    PodResourceClaim.Name podClaim ∈ Container.Claims container.
Proof.
  unfold claimIsUsedByContainers, claimIsUsedByContainer. rewrite existsb_exists. split.
  - intros (container & Hin & Hused). apply existsb_exists in Hused as (name & Hname & Heq).
    apply bool_decide_eq_true in Heq as ->.
    exists container. split; by apply list_elem_of_In.
  - intros (container & Hin & Hname). exists container. split; [by apply list_elem_of_In|].
    apply existsb_exists. exists (PodResourceClaim.Name podClaim).
    split; [by apply list_elem_of_In|by apply bool_decide_eq_true].
Qed.

(** A pod uses a claim when one of its init containers or containers
    lists the name of the claim. *)
Lemma claimIsUsedByPod_listed podClaim pod :
  claimIsUsedByPod podClaim pod = true ↔
  ∃ container, container ∈ Pod.InitContainers pod ++ Pod.Containers pod ∧
    PodResourceClaim.Name podClaim ∈ Container.Claims container.
Proof.
  unfold claimIsUsedByPod. split.
  - destruct (claimIsUsedByContainers podClaim (Pod.InitContainers pod)) eqn:Hinit.
    + intros _. apply claimIsUsedByContainers_listed in Hinit as (container & Hin & Hname).
      exists container. split; [|done]. apply elem_of_app. by left.
    + destruct (claimIsUsedByContainers podClaim (Pod.Containers pod)) eqn:Hrun; [|done].
      intros _. apply claimIsUsedByContainers_listed in Hrun as (container & Hin & Hname).
      exists container. split; [|done]. apply elem_of_app. by right.
  - intros (container & [Hin|Hin]%elem_of_app & Hname).
    + assert (H : claimIsUsedByContainers podClaim (Pod.InitContainers pod) = true)
        by (apply claimIsUsedByContainers_listed; eauto).
      by rewrite H.
    + assert (H : claimIsUsedByContainers podClaim (Pod.Containers pod) = true)
        by (apply claimIsUsedByContainers_listed; eauto).
      rewrite H. by destruct (claimIsUsedByContainers podClaim (Pod.InitContainers pod)).
Qed.

(** X2: a pod uses a claim of its [ResourceClaims] exactly when one of
    its init containers or containers lists the name of the claim. *)
Theorem claimIsUsedByPod_iff_listed podClaim pod :
  claimIsUsedByPod podClaim pod = true ↔
  ∃ container, container ∈ Pod.InitContainers pod ++ Pod.Containers pod ∧
    PodResourceClaim.Name podClaim ∈ Container.Claims container.
Proof. apply claimIsUsedByPod_listed. Qed.

(** ** [GetResources] and [GetContainerClaimInfos] *)

(** A loop whose bodies keep [I] ends without error exactly when every
    body does, provided that depends on the element alone. *)
Lemma forEach_done_iff {S A} (I : S → Prop) (ok : A → Prop) (body : A → M S ()) (l : list A) :
  (∀ x s, x ∈ l → I s → I (body x s).2 ∧ ((body x s).1 = Done () ↔ ok x)) →
  ∀ s, I s → (forEach body l s).1 = Done () ↔ ∀ x, x ∈ l → ok x.
Proof.
  induction l as [|x l IH]; intros Hbody s Hs.
  - cbn. split; [|done]. intros _ x Hin. by apply elem_of_nil in Hin.
  - cbn. munfold.
    destruct (Hbody x s (list_elem_of_here _ _) Hs) as [Hnext Hok].
    destruct (body x s) as [[[]|e|] s1]; cbn [fst snd] in *.
    + rewrite IH; [|intros y s' Hin; apply Hbody; by apply list_elem_of_further|done].
      split.
      * intros Hall y [->|Hin]%elem_of_cons; [by apply Hok|auto].
      * intros Hall y Hin. apply Hall. by apply list_elem_of_further.
    + split; [done|]. intros Hall.
      assert (Failed e = Done ()) by (apply Hok, Hall, list_elem_of_here). done.
    + split; [done|]. intros Hall.
      assert (@Panicked () = Done ()) by (apply Hok, Hall, list_elem_of_here). done.
Qed.

(** A loop whose bodies never return an error panics exactly when one of
    its bodies does, provided that depends on the element alone. *)
Lemma forEach_panics_iff {S A} (I : S → Prop) (bad : A → Prop) (body : A → M S ())
    (l : list A) :
  (∀ x s, x ∈ l → I s →
     I (body x s).2 ∧ ((body x s).1 = Panicked ↔ bad x) ∧ ∀ e, (body x s).1 ≠ Failed e) →
  ∀ s, I s →
    ((forEach body l s).1 = Panicked ↔ ∃ x, x ∈ l ∧ bad x) ∧
    (∀ e, (forEach body l s).1 ≠ Failed e) ∧ I (forEach body l s).2.
Proof.
  induction l as [|x l IH]; intros Hbody s Hs.
  - cbn. split_and!; [|done|done]. split; [done|].
    intros (x & Hin & _). by apply elem_of_nil in Hin.
  - cbn. munfold.
    destruct (Hbody x s (list_elem_of_here _ _) Hs) as (Hnext & Hbad & Hne).
    destruct (body x s) as [[[]|e|] s1]; cbn [fst snd] in *.
    + destruct (IH (λ y s' Hin, Hbody y s' (list_elem_of_further _ _ _ Hin)) s1 Hnext)
        as (Hiff & Hne' & Hinv).
      split_and!; [|done|done]. rewrite Hiff. split.
      * intros (y & Hin & Hy). exists y. split; [by apply list_elem_of_further|done].
      * intros (y & [->|Hin]%elem_of_cons & Hy); [|eauto].
        by apply Hbad in Hy.
    + by destruct (Hne e).
    + split_and!; [|done|done]. split; [|done]. intros _. exists x.
      split; [apply list_elem_of_here|by apply Hbad].
Qed.

(** Two loops over the same list: when the bodies of the first end
    without error, so do those of the second, in related states. *)
Lemma forEach_sim {S1 S2 A} (R : S1 → S2 → Prop) (body1 : A → M S1 ()) (body2 : A → M S2 ())
    (l : list A) :
  (∀ x s1 s2 s1', x ∈ l → R s1 s2 → body1 x s1 = (Done (), s1') →
     ∃ s2', body2 x s2 = (Done (), s2') ∧ R s1' s2') →
  ∀ s1 s2 s1', R s1 s2 → forEach body1 l s1 = (Done (), s1') →
    ∃ s2', forEach body2 l s2 = (Done (), s2') ∧ R s1' s2'.
Proof.
  induction l as [|x l IH]; intros Hbody s1 s2 s1' HR.
  - cbn. intros [= <-]. by exists s2.
  - cbn. munfold. destruct (body1 x s1) as [[[]|e|] s1m] eqn:H1; [|done..].
    intros Hrest.
    destruct (Hbody x s1 s2 s1m (list_elem_of_here _ _) HR H1) as (s2m & -> & HRm).
    apply (IH (λ y a b a' Hin, Hbody y a b a' (list_elem_of_further _ _ _ Hin)) s1m s2m s1' HRm Hrest).
Qed.

(** [GetResources] returns the container information exactly when every
    claim reference of the pod resolves and every claim that a reference
    names and the container lists is cached. *)
Lemma GetResources_done_iff nm annotationsAsList cdiDevicesAsList pod container c :
  (∃ info, (GetResources nm annotationsAsList cdiDevicesAsList pod container c).1 = Done info) ↔
  (∀ podClaim, podClaim ∈ Pod.ResourceClaims pod → nm pod podClaim ≠ ResolveFailed) ∧
  (∀ podClaim claimName mustCheckOwner, podClaim ∈ Pod.ResourceClaims pod →
     nm pod podClaim = Resolved (Some claimName) mustCheckOwner →
     PodResourceClaim.Name podClaim ∈ Container.Claims container →
     is_Some (c !! (Pod.Namespace pod, claimName))).
Proof.
  unfold GetResources.
  set (ok := λ podClaim,
         nm pod podClaim ≠ ResolveFailed ∧
         ∀ claimName mustCheckOwner, nm pod podClaim = Resolved (Some claimName) mustCheckOwner →
           PodResourceClaim.Name podClaim ∈ Container.Claims container →
           is_Some (c !! (Pod.Namespace pod, claimName))).
  assert (Hloop : (GetResourcesBody nm annotationsAsList cdiDevicesAsList pod container
                     (ResourcesFrame c [] [])).1 = Done () ↔
                  ∀ podClaim, podClaim ∈ Pod.ResourceClaims pod → ok podClaim).
  { unfold GetResourcesBody.
    apply (forEach_done_iff (λ st, g_cache st = c)); [|done].
    intros podClaim st _ Hst. unfold ok.
    destruct (nm pod podClaim) as [|[claimName|] mco] eqn:Hres.
    - cbn. split; [done|]. split; [done|]. by intros [? _].
    - pose proof (forEach_done_iff (λ st, g_cache st = c)
                    (λ claim, PodResourceClaim.Name podClaim ≠ claim ∨
                              is_Some (c !! (Pod.Namespace pod, claimName)))
                    (λ claim : string,
                       if decide (PodResourceClaim.Name podClaim ≠ claim) then mret ()
                       else
                         found ← gets (λ st, cache_get claimName (Pod.Namespace pod) (g_cache st));
                         match found with
                         | None => fail (ErrNoClaimInfo claimName (Pod.Namespace pod))
                         | Some claimInfo =>
                             modify (λ st,
                               ResourcesFrame (g_cache st)
                                 (g_annotations st ++ annotationsAsList claimInfo)
                                 (g_cdiDevices st ++ cdiDevicesAsList claimInfo))
                         end)
                    (Container.Claims container)) as Hinner.
      split.
      + apply (forEach_inv (λ st, g_cache st = c)); [|done].
        intros claim st' _ Hst'. destruct (decide _); [done|]. munfold.
        by destruct (cache_get _ _ _).
      + rewrite Hinner; [| |done].
        * split.
          -- intros Hall. split; [done|]. intros name mco' [= <- <-] Hlisted.
             destruct (Hall _ Hlisted) as [Hne|Hsome]; done.
          -- intros [_ Hsome] claim Hin.
             destruct (decide (PodResourceClaim.Name podClaim = claim)) as [<-|Hne]; [|by left].
             right. by eapply Hsome.
        * intros claim st' _ Hst'. destruct (decide _) as [Hne|Heq].
          -- cbn. split; [done|]. split; [by left|done].
          -- munfold. unfold cache_get. rewrite Hst'.
             destruct (c !! (Pod.Namespace pod, claimName)) as [claimInfo|]; cbn.
             ++ split; [done|]. split; [by right|done].
             ++ split; [done|]. split; [done|].
                intros [Hne|[? ?]]; [|done]. by destruct (Heq Hne).
    - cbn. split; [done|]. split; [|done]. intros _. split; [done|]. intros ? ? [=]. }
  destruct (GetResourcesBody _ _ _ _ _ _) as [[[]|e|] st]; cbn [fst snd] in *.
  - split.
    + intros _. split.
      * intros podClaim Hin. by apply Hloop.
      * intros podClaim claimName mco Hin. destruct Hloop as [Hloop _].
        by apply (Hloop eq_refl podClaim Hin).
    + intros _. eauto.
  - split; [by intros [? ?]|]. intros [Hres Hcached].
    assert (Failed e = Done ()); [|done]. apply Hloop. intros podClaim Hin. split; [auto|].
    intros claimName mco. by apply Hcached.
  - split; [by intros [? ?]|]. intros [Hres Hcached].
    assert (@Panicked () = Done ()); [|done]. apply Hloop. intros podClaim Hin. split; [auto|].
    intros claimName mco. by apply Hcached.
Qed.

(** X3: [GetResources] leaves the cache as it is and does not panic, and
    it returns the container information, not an error, exactly when
    every claim reference of the pod resolves and every claim that a
    reference names and the container lists has a record in the cache. *)
Theorem GetResources_succeeds_iff nm annotationsAsList cdiDevicesAsList pod container c :
  (GetResources nm annotationsAsList cdiDevicesAsList pod container c).2 = c ∧
  (GetResources nm annotationsAsList cdiDevicesAsList pod container c).1 ≠ Panicked ∧
  ((∃ info, (GetResources nm annotationsAsList cdiDevicesAsList pod container c).1 = Done info) ↔
   (∀ podClaim, podClaim ∈ Pod.ResourceClaims pod → nm pod podClaim ≠ ResolveFailed) ∧
   (∀ podClaim claimName mustCheckOwner, podClaim ∈ Pod.ResourceClaims pod →
      nm pod podClaim = Resolved (Some claimName) mustCheckOwner →
      PodResourceClaim.Name podClaim ∈ Container.Claims container →
      is_Some (c !! (Pod.Namespace pod, claimName)))).
Proof.
  split; [apply GetResources_cache|]. split; [apply GetResources_no_panic|].
  apply GetResources_done_iff.
Qed.

(** X4: when [GetContainerClaimInfos] returns the records of a container,
    every one of them is the cached record of a claim the pod names, and
    [GetResources] returns the annotations and the CDI devices of these
    records, in the same order. *)
Theorem GetResources_follows_claim_infos nm annotationsAsList cdiDevicesAsList
    pod container c infos :
  (GetContainerClaimInfos nm pod container c).1 = Done infos →
  GetResources nm annotationsAsList cdiDevicesAsList pod container c =
    (Done (flat_map annotationsAsList infos, flat_map cdiDevicesAsList infos), c) ∧
  ∀ info, info ∈ infos →
    ∃ claimName, claimName ∈ resolvedNames nm pod ∧
      c !! (Pod.Namespace pod, claimName) = Some info.
Proof.
  unfold GetContainerClaimInfos, GetResources.
  destruct (GetContainerClaimInfosBody nm pod container (ClaimInfosFrame c []))
    as [[[]|e|] si] eqn:Hrun; cbn [fst snd]; [|done..].
  intros [= Hinfos]. split.
  - set (R := λ (si : claimInfosFrame) (sg : resourcesFrame),
               i_cache si = c ∧ g_cache sg = c ∧
               g_annotations sg = flat_map annotationsAsList (i_claimInfos si) ∧
               g_cdiDevices sg = flat_map cdiDevicesAsList (i_claimInfos si)).
    destruct (forEach_sim R
                (λ podResourceClaim,
                   match nm pod podResourceClaim with
                   | ResolveFailed => fail ErrResolveClaim
                   | Resolved claimName _ =>
                       forEach (λ claim : string,
                           if decide (PodResourceClaim.Name podResourceClaim ≠ claim) then mret ()
                           else
                             match claimName with
                             | None => panic
                             | Some claimName =>
                                 found ← gets (λ st, cache_get claimName (Pod.Namespace pod)
                                                       (i_cache st));
                                 match found with
                                 | None => fail (ErrNoClaimInfo claimName (Pod.Namespace pod))
                                 | Some claimInfo =>
                                     modify (λ st, ClaimInfosFrame (i_cache st)
                                                     (i_claimInfos st ++ [claimInfo]))
                                 end
                             end)
                         (Container.Claims container)
                   end)
                (λ podResourceClaim,
                   match nm pod podResourceClaim with
                   | ResolveFailed => fail ErrResolveClaim
                   | Resolved None _ => mret ()
                   | Resolved (Some claimName) _ =>
                       forEach (λ claim : string,
                           if decide (PodResourceClaim.Name podResourceClaim ≠ claim) then mret ()
                           else
                             found ← gets (λ st, cache_get claimName (Pod.Namespace pod)
                                                   (g_cache st));
                             match found with
                             | None => fail (ErrNoClaimInfo claimName (Pod.Namespace pod))
                             | Some claimInfo =>
                                 modify (λ st,
                                   ResourcesFrame (g_cache st)
                                     (g_annotations st ++ annotationsAsList claimInfo)
                                     (g_cdiDevices st ++ cdiDevicesAsList claimInfo))
                             end)
                         (Container.Claims container)
                   end)
                (Pod.ResourceClaims pod))
      with (s1 := ClaimInfosFrame c []) (s2 := ResourcesFrame c [] []) (s1' := si)
      as (sg & Hg & Hc1 & Hc2 & Ha & Hd); [|done|exact Hrun|].
    + intros podClaim s1 s2 s1' _ HR.
      destruct (nm pod podClaim) as [|[claimName|] mco]; [done| |].
      * apply forEach_sim; [|done].
        intros claim t1 t2 t1' _ (Ht1 & Ht2 & Hta & Htd).
        destruct (decide _); [intros [= <-]; by exists t2|].
        munfold. unfold cache_get. rewrite Ht1, Ht2.
        destruct (c !! (Pod.Namespace pod, claimName)) as [claimInfo|]; [|done].
        intros [= <-]. eexists. split; [done|]. unfold R. cbn.
        rewrite !flat_map_app. cbn. rewrite !app_nil_r. by rewrite Hta, Htd.
      * intros Hdone. exists s2. split; [done|].
        assert (Hsame : s1' = s1); [|by rewrite Hsame].
        revert Hdone. clear HR. generalize (Container.Claims container). intros l. revert s1.
        induction l as [|claim l IH]; intros s1; cbn; [by intros [= <-]|].
        munfold. destruct (decide _); [|done]. cbn. by apply IH.
    + unfold GetResourcesBody. rewrite Hg. cbn. rewrite Ha, Hd, Hinfos. by rewrite Hc2.
  - subst infos. revert Hrun. unfold GetContainerClaimInfosBody.
    set (I := λ si : claimInfosFrame, i_cache si = c ∧
                ∀ info, info ∈ i_claimInfos si →
                  ∃ claimName, claimName ∈ resolvedNames nm pod ∧
                    c !! (Pod.Namespace pod, claimName) = Some info).
    intros Hrun. 
    assert (HI : I si); [|by destruct HI].
    revert Hrun. apply (forEach_done_inv I).
    + intros podClaim s s' Hin [Hc HI].
      destruct (nm pod podClaim) as [|[claimName|] mco] eqn:Hres; [done| |].
      * apply (forEach_done_inv I); [|done].
        intros claim t t' _ [Ht HIt]. destruct (decide _); [by intros [= <-]|].
        munfold. unfold cache_get. rewrite Ht.
        destruct (c !! (Pod.Namespace pod, claimName)) as [claimInfo|] eqn:Hk; [|done].
        intros [= <-]. split; [done|]. cbn. intros info [Hold| ->%list_elem_of_singleton]%elem_of_app.
        -- by apply HIt.
        -- exists claimName. split; [|done]. unfold resolvedNames, namesOf.
           apply list_elem_of_omap. exists podClaim. split; [done|]. by rewrite Hres.
      * apply (forEach_done_inv I); [|done].
        intros claim t t' _ HIt. destruct (decide _); [by intros [= <-]|done].
    + split; [done|]. intros info Hin. by apply elem_of_nil in Hin.
Qed.

Lemma GetResources_follows_claim_infos_witness :
  GetResources Example.resolveBySource (λ _, []) (λ info, [ClaimInfo.ClaimName info])
      Example.pod1 Example.container (Example.heldBy {["pod-1"]}%string) =
    (Done ([], ["claim-a"%string]), Example.heldBy {["pod-1"]}%string).
Proof.
  destruct (GetResources_follows_claim_infos Example.resolveBySource (λ _, [])
              (λ info, [ClaimInfo.ClaimName info])
              Example.pod1 Example.container (Example.heldBy {["pod-1"]}%string)
              [ClaimInfo.mk "uid-a" "claim-a" "default" "driver-a" [Example.handle]
                 {["pod-1"]} ∅ true]%string) as [Hsame _].
  - vm_compute. reflexivity.
  - exact Hsame.
Defined.

(** X5: when every claim reference of the pod resolves and every claim
    that a reference names and the container lists is cached,
    [GetContainerClaimInfos] returns no error, and it panics exactly when
    the container lists a reference that resolves to no claim name (the
    case [GetResources] skips). *)
Theorem GetContainerClaimInfos_panics_iff nm pod container c :
  (∀ podClaim, podClaim ∈ Pod.ResourceClaims pod → nm pod podClaim ≠ ResolveFailed) →
  (∀ podClaim claimName mustCheckOwner, podClaim ∈ Pod.ResourceClaims pod →
     nm pod podClaim = Resolved (Some claimName) mustCheckOwner →
     PodResourceClaim.Name podClaim ∈ Container.Claims container →
     is_Some (c !! (Pod.Namespace pod, claimName))) →
  ((GetContainerClaimInfos nm pod container c).1 = Panicked ↔
   ∃ podClaim mustCheckOwner, podClaim ∈ Pod.ResourceClaims pod ∧
     nm pod podClaim = Resolved None mustCheckOwner ∧
     PodResourceClaim.Name podClaim ∈ Container.Claims container) ∧
  ∀ e, (GetContainerClaimInfos nm pod container c).1 ≠ Failed e.
Proof.
  intros Hresolved Hcached.
  set (bad := λ podClaim, ∃ mustCheckOwner, nm pod podClaim = Resolved None mustCheckOwner ∧
                PodResourceClaim.Name podClaim ∈ Container.Claims container).
  assert (Hloop : ((GetContainerClaimInfosBody nm pod container (ClaimInfosFrame c [])).1 =
                     Panicked ↔ ∃ podClaim, podClaim ∈ Pod.ResourceClaims pod ∧ bad podClaim) ∧
                  (∀ e, (GetContainerClaimInfosBody nm pod container (ClaimInfosFrame c [])).1 ≠
                          Failed e) ∧
                  i_cache (GetContainerClaimInfosBody nm pod container (ClaimInfosFrame c [])).2 = c).
  { unfold GetContainerClaimInfosBody.
    apply (forEach_panics_iff (λ st, i_cache st = c)); [|done].
    intros podClaim st Hin Hst. unfold bad.
    pose proof (Hresolved podClaim Hin) as Hres.
    pose proof (Hcached podClaim) as Hsome.
    destruct (nm pod podClaim) as [|[claimName|] mco]; [done| |].
    - destruct (forEach_panics_iff (λ st, i_cache st = c) (λ _ : string, False)
                  (λ claim : string,
                     if decide (PodResourceClaim.Name podClaim ≠ claim) then mret ()
                     else
                       found ← gets (λ st, cache_get claimName (Pod.Namespace pod) (i_cache st));
                       match found with
                       | None => fail (ErrNoClaimInfo claimName (Pod.Namespace pod))
                       | Some claimInfo =>
                           modify (λ st, ClaimInfosFrame (i_cache st)
                                           (i_claimInfos st ++ [claimInfo]))
                       end)
                  (Container.Claims container)) with (s := st) as (Hiff & Hne & Hinv); [|done|].
      + intros claim st' Hlisted Hst'. destruct (decide _) as [Hdiff|Hsame].
        * cbn. split_and!; [done| |done]. split; done.
        * apply dec_stable in Hsame. munfold. unfold cache_get. rewrite Hst'.
          destruct (Hsome claimName mco Hin eq_refl) as [claimInfo ->]; [by rewrite Hsame|].
          cbn. split_and!; [done| |done]. split; done.
      + split_and!; [done| |done]. rewrite Hiff. split.
        * by intros (? & _ & []).
        * by intros (? & [=] & _).
    - destruct (forEach_panics_iff (λ st, i_cache st = c)
                  (λ claim : string, PodResourceClaim.Name podClaim = claim)
                  (λ claim : string,
                     if decide (PodResourceClaim.Name podClaim ≠ claim) then mret ()
                     else (panic : M claimInfosFrame ()))
                  (Container.Claims container)) with (s := st) as (Hiff & Hne & Hinv); [|done|].
      + intros claim st' Hlisted Hst'. destruct (decide _) as [Hdiff|Hsame].
        * cbn. split_and!; [done| |done]. split; done.
        * apply dec_stable in Hsame. cbn. split_and!; [done| |done]. split; done.
      + split_and!; [done| |done]. rewrite Hiff. split.
        * intros (claim & Hlisted & <-). by exists mco.
        * intros (_ & _ & Hlisted). by exists (PodResourceClaim.Name podClaim). }
  unfold GetContainerClaimInfos.
  destruct Hloop as (Hiff & Hne & _).
  destruct (GetContainerClaimInfosBody nm pod container (ClaimInfosFrame c []))
    as [[[]|e|] st]; cbn [fst snd] in *.
  - split; [|done]. split; [done|]. intros (podClaim & mco & Hin & Hres & Hlisted).
    assert (Done () = @Panicked ()); [|done]. apply Hiff. exists podClaim. split; [done|].
    by exists mco.
  - by destruct (Hne e).
  - split; [|done]. split; [|done]. intros _.
    destruct Hiff as [Hiff _]. destruct (Hiff eq_refl) as (podClaim & Hin & mco & Hres & Hlisted).
    by exists podClaim, mco.
Qed.

Lemma GetContainerClaimInfos_panics_iff_witness :
  (GetContainerClaimInfos Example.resolveBySource Example.podNil Example.container ∅).1 =
    Panicked.
Proof.
  destruct (GetContainerClaimInfos_panics_iff Example.resolveBySource Example.podNil
              Example.container ∅) as [[_ Hpanics] _].
  - intros podClaim Hin. done.
  - intros podClaim claimName mco Hin Hres.
    apply list_elem_of_singleton in Hin as ->. discriminate Hres.
  - apply Hpanics. exists (PodResourceClaim.mk "a" None), false.
    split_and!; [apply list_elem_of_here|reflexivity|apply list_elem_of_here].
Defined.

(** ** What [PrepareResources] leaves alone *)

(** X6: [PrepareResources] does not panic: every result a plugin
    returns for a claim of the batch finds the claim in [resourceClaims]. *)
Theorem PrepareResources_never_panics nm fp w pod c :
  fair_range w → (PrepareResources nm fp w pod c).1.1 ≠ Panicked.
Proof.
  intros Hfair.
  destruct (PrepareResources_cases nm fp w pod c)
    as [(e & _ & ->)|[(_ & r & c2 & called & rest & _ & Hnp & _ & _ & ->)
                     |(_ & r & c3 & Hnp & _ & _ & -> & _)]]; cbn; auto.
Qed.

Lemma PrepareResources_never_panics_witness :
  Example.firstPrepare.1.1 ≠ Panicked.
Proof.
  apply (PrepareResources_never_panics Example.resolveBySource Example.ownedByAll
           Example.world Example.pod1 ∅).
  apply fair_range_world.
Defined.

(** The claims [PrepareResources] registers a deferred function for were
    returned by the API server for a claim reference of the pod that a
    container uses, and are reserved for the pod. *)
Lemma deferredClaims_origin nm fp w pod c claim :
  claim ∈ deferredClaims nm fp w pod c →
  ∃ podClaim claimName mustCheckOwner,
    podClaim ∈ Pod.ResourceClaims pod ∧
    nm pod podClaim = Resolved (Some claimName) mustCheckOwner ∧
    kubeGet w (Pod.Namespace pod) claimName = Some claim ∧
    IsReservedForPod pod claim = true ∧
    claimIsUsedByPod podClaim pod = true.
Proof.
  unfold deferredClaims, afterClaims, prepareClaims.
  revert claim.
  apply (forEach_inv
           (λ st, ∀ claim, claim ∈ p_deferred st →
              ∃ podClaim claimName mustCheckOwner,
                podClaim ∈ Pod.ResourceClaims pod ∧
                nm pod podClaim = Resolved (Some claimName) mustCheckOwner ∧
                kubeGet w (Pod.Namespace pod) claimName = Some claim ∧
                IsReservedForPod pod claim = true ∧
                claimIsUsedByPod podClaim pod = true)).
  - intros podClaim st Hin IH claim.
    destruct (prepareClaim_run nm fp w pod podClaim st)
      as [(e & ->)|[->|(claimName & mco & claim' & Hres & Hget & Hrsv & Hused & ->)]]; cbn; auto.
    destruct (prepareLocked_run pod claim' (p_defer claim' st)) as (st' & -> & _ & _ & Hdef & _).
    cbn. rewrite Hdef. cbn. intros [->|Hold]%elem_of_cons; [|by apply IH].
    by exists podClaim, claimName, mco.
  - cbn. intros claim Hin. by apply elem_of_nil in Hin.
Qed.

(** X7: [PrepareResources] deletes no record, changes none of the fields
    a record was created with, and neither adds nor removes the reference
    of another pod.  A record it adds is created from a claim the API
    server returned for a claim reference of the pod, reserved for the pod
    and used by one of its containers; the record is filed under the key
    of that claim and holds at most the reference of the pod. *)
Theorem PrepareResources_frame nm fp w pod c key :
  match c !! key, (PrepareResources nm fp w pod c).1.2 !! key with
  | Some info, Some info' =>
      identity info' = identity info ∧
      ∀ other, other ≠ Pod.UID pod →
        other ∈ ClaimInfo.PodUIDs info' ↔ other ∈ ClaimInfo.PodUIDs info
  | Some _, None => False
  | None, Some info' =>
      ∃ podClaim claimName mustCheckOwner claim,
        podClaim ∈ Pod.ResourceClaims pod ∧
        nm pod podClaim = Resolved (Some claimName) mustCheckOwner ∧
        kubeGet w (Pod.Namespace pod) claimName = Some claim ∧
        IsReservedForPod pod claim = true ∧
        claimIsUsedByPod podClaim pod = true ∧
        keyOf claim = key ∧
        identity info' = identity (newClaimInfoFromClaim claim) ∧
        ClaimInfo.PodUIDs info' ⊆ {[Pod.UID pod]}
  | None, None => True
  end.
Proof.
  destruct (PrepareResources nm fp w pod c) as [[r c'] t] eqn:Hrun. cbn.
  destruct (c !! key) as [info|] eqn:Hk.
  - destruct (PrepareResources_keeps _ _ _ _ _ _ _ _ _ _ Hrun Hk) as (info' & -> & Hid & _ & Hrefs).
    done.
  - destruct (c' !! key) as [info'|] eqn:Hk'; [|done].
    destruct (PrepareResources_creates _ _ _ _ _ _ _ _ _ _ Hrun Hk Hk')
      as (claim & Hdef & Hkey & Hid & Hrefs).
    destruct (deferredClaims_origin _ _ _ _ _ _ Hdef)
      as (podClaim & claimName & mco & Hin & Hres & Hget & Hrsv & Hused).
    by exists podClaim, claimName, mco, claim.
Qed.

(** A cache answers [hasPodReference] with false exactly when no record
    holds the reference. *)
Lemma cache_hasPodReference_false (uid : string) (c : claimInfoCache) :
  cache_hasPodReference uid c = false ↔
  ∀ key info, c !! key = Some info → uid ∉ ClaimInfo.PodUIDs info.
Proof.
  unfold cache_hasPodReference, hasPodReference. split.
  - intros Hnone key info Hk Href.
    assert (Hsome : existsb (λ entry : cacheKey * ClaimInfo.t,
                      bool_decide (uid ∈ ClaimInfo.PodUIDs entry.2)) (map_to_list c) = true).
    { apply existsb_exists. exists (key, info). split.
      - by apply list_elem_of_In, elem_of_map_to_list.
      - by apply bool_decide_eq_true. }
    by rewrite Hsome in Hnone.
  - intros Hnone. apply not_true_is_false. intros Hsome.
    apply existsb_exists in Hsome as ([key info] & Hin & Href).
    apply list_elem_of_In, elem_of_map_to_list in Hin.
    apply bool_decide_eq_true in Href. by eapply Hnone.
Qed.

(** X8: the records are filed under their own namespace and claim name
    after [PrepareResources] and after [UnprepareResources] when they
    were before. *)
Theorem filed_by_name_is_kept nm fp w pod c :
  filed_by_name c →
  filed_by_name (PrepareResources nm fp w pod c).1.2 ∧
  filed_by_name (UnprepareResources nm w pod c).1.2.
Proof.
  intros Hfiled. split.
  - destruct (PrepareResources nm fp w pod c) as [[r c'] t] eqn:Hrun.
    by eapply PrepareResources_filed.
  - destruct (UnprepareResources nm w pod c) as [[r c'] t] eqn:Hrun. cbn.
    intros key info' Hk'.
    destruct (UnprepareResources_record _ _ _ _ _ _ _ _ _ Hrun Hk') as (info & Hk & [->| ->]);
      [|cbn]; by apply Hfiled.
Qed.

Lemma filed_by_name_is_kept_witness :
  filed_by_name Example.secondPrepare.1.2 ∧ filed_by_name Example.unprepareOfTwo.1.2.
Proof.
  split.
  - apply (filed_by_name_is_kept Example.resolveBySource Example.ownedByAll Example.world
             Example.pod2 Example.firstPrepare.1.2).
    apply (filed_by_name_is_kept Example.resolveBySource Example.ownedByAll Example.world
             Example.pod1 ∅).
    intros key info Hk. by rewrite lookup_empty in Hk.
  - apply (filed_by_name_is_kept Example.resolveBySource Example.ownedByAll Example.world
             Example.pod1 (Example.heldBy {["pod-1"; "pod-2"]}%string)).
    apply heldBy_filed.
Defined.

(** X9: while no record holds a reference of the pod [uid],
    [PodMightNeedToUnprepareResources] goes on answering false after a
    [PrepareResources] call that fails, after a [PrepareResources] call
    of another pod, and after any [UnprepareResources] call: only a
    successful [PrepareResources] of the pod makes the answer true. *)
Theorem reference_appears_only_by_own_prepare nm fp w pod c uid :
  PodMightNeedToUnprepareResources uid c = (Done false, c) →
  ((∃ e, (PrepareResources nm fp w pod c).1.1 = Failed e) ∨ Pod.UID pod ≠ uid →
     PodMightNeedToUnprepareResources uid (PrepareResources nm fp w pod c).1.2 =
       (Done false, (PrepareResources nm fp w pod c).1.2)) ∧
  PodMightNeedToUnprepareResources uid (UnprepareResources nm w pod c).1.2 =
    (Done false, (UnprepareResources nm w pod c).1.2).
Proof.
  unfold PodMightNeedToUnprepareResources, gets. intros [= Hnone].
  rewrite cache_hasPodReference_false in Hnone. split.
  - intros Hcase. f_equal. f_equal. apply cache_hasPodReference_false.
    destruct (PrepareResources nm fp w pod c) as [[r c'] t] eqn:Hrun. cbn in *.
    intros key info' Hk' Href.
    destruct (decide (Pod.UID pod = uid)) as [<-|Hother].
    + destruct Hcase as [[e ->]|]; [|done].
      destruct (PrepareResources_failed_reference _ _ _ _ _ _ _ _ _ _ Hrun Hk' Href)
        as (info & Hk & Hheld).
      by eapply Hnone.
    + destruct (c !! key) as [info|] eqn:Hk.
      * destruct (PrepareResources_keeps _ _ _ _ _ _ _ _ _ _ Hrun Hk)
          as (info2 & Hk2 & _ & _ & Hrefs).
        rewrite Hk' in Hk2. injection Hk2 as <-.
        apply (Hnone _ _ Hk). apply Hrefs; [done|done].
      * destruct (PrepareResources_creates _ _ _ _ _ _ _ _ _ _ Hrun Hk Hk')
          as (claim & _ & _ & _ & Hrefs).
        apply Hrefs in Href. apply elem_of_singleton in Href. done.
  - f_equal. f_equal. apply cache_hasPodReference_false.
    destruct (UnprepareResources nm w pod c) as [[r c'] t] eqn:Hrun. cbn.
    intros key info' Hk' Href.
    destruct (UnprepareResources_record _ _ _ _ _ _ _ _ _ Hrun Hk') as (info & Hk & [->| ->]).
    + by eapply Hnone.
    + apply (Hnone _ _ Hk). cbn in Href. by apply elem_of_difference in Href as [Href _].
Qed.

Lemma reference_appears_only_by_own_prepare_witness :
  PodMightNeedToUnprepareResources "pod-9" Example.secondPrepare.1.2 =
    (Done false, Example.secondPrepare.1.2).
Proof.
  destruct (reference_appears_only_by_own_prepare Example.resolveBySource Example.ownedByAll
              Example.world Example.pod2 Example.firstPrepare.1.2 "pod-9") as [Hprepare _].
  - vm_compute. reflexivity.
  - apply Hprepare. right. vm_compute. discriminate.
Defined.

(** ** A call of [PrepareResources] that succeeds *)

(** Every body of a loop that ends without error has ended without error. *)
Lemma forEach_done_each {S A} (body : A → M S ()) (l : list A) s s' x :
  forEach body l s = (Done (), s') → x ∈ l → ∃ s1 s2, body x s1 = (Done (), s2).
Proof.
  revert s. induction l as [|y l IH]; intros s Hrun Hin; [by apply elem_of_nil in Hin|].
  cbn in Hrun. revert Hrun. munfold. destruct (body y s) as [[[]|e|] s1] eqn:Hy; [|done..].
  intros Hrest. apply elem_of_cons in Hin as [->|Hin]; [eauto|]. by eapply IH.
Qed.

(** A claim reference that passes the loop over the pod's claims names a
    claim the API server returned, owned by the pod where that is asked
    for, and reserved for the pod. *)
Lemma prepareClaim_done_validated nm fp w pod podClaim s1 s2 claimName mustCheckOwner :
  prepareClaim nm fp w pod podClaim s1 = (Done (), s2) →
  nm pod podClaim = Resolved (Some claimName) mustCheckOwner →
  ∃ claim, kubeGet w (Pod.Namespace pod) claimName = Some claim ∧
    (mustCheckOwner = true → fp pod claim = true) ∧
    IsReservedForPod pod claim = true.
Proof.
  unfold prepareClaim. intros Hrun Hres. rewrite Hres in Hrun.
  destruct (kubeGet w (Pod.Namespace pod) claimName) as [claim|]; [|done].
  exists claim. split; [done|].
  destruct mustCheckOwner, (fp pod claim), (IsReservedForPod pod claim); cbn in Hrun; done.
Qed.

Section PrepareDone.
Context (nm : Pod.t → PodResourceClaim.t → resolved) (fp : Pod.t → ResourceClaim.t → bool).
Context (w : World) (pod : Pod.t) (c : claimInfoCache).

(** A call that succeeds has passed the loop over the pod's claims. *)
Lemma PrepareResources_done_claims_loop c' t :
PrepareResources nm fp w pod c = (Done (), c', t) →
(afterClaims nm fp w pod c).1 = Done ().
Proof.
intros Hrun.
destruct (PrepareResources_cases nm fp w pod c)
  as [(e & _ & Heq)|[(Hd & _)|(Hd & _)]]; [|done..].
rewrite Heq in Hrun. done.
Qed.

(** After a call that succeeds, the checkpoint is written, and every
  claim the pod names was returned by the API server and is reserved
  for the pod; when a container uses it, it has a record that holds the
  reference of the pod, prepared when the claim UIDs are distinct. *)
Lemma PrepareResources_done_claims c' t :
fair_range w → filed_by_name c →
PrepareResources nm fp w pod c = (Done (), c', t) →
syncToCheckpoint w c' = true ∧
∀ podClaim claimName mustCheckOwner, podClaim ∈ Pod.ResourceClaims pod →
  nm pod podClaim = Resolved (Some claimName) mustCheckOwner →
  ∃ claim, kubeGet w (Pod.Namespace pod) claimName = Some claim ∧
    (mustCheckOwner = true → fp pod claim = true) ∧
    IsReservedForPod pod claim = true ∧
    (claimIsUsedByPod podClaim pod = true →
       ∃ info', c' !! keyOf claim = Some info' ∧
         Pod.UID pod ∈ ClaimInfo.PodUIDs info' ∧
         (uid_unique c' → ClaimInfo.prepared info' = true)).
Proof.
intros Hfair Hfiled Hrun.
pose proof (PrepareResources_done_claims_loop _ _ Hrun) as Hloop.
pose proof (afterClaims_inv nm fp w pod c) as Hinv.
destruct (PrepareResources_cases nm fp w pod c)
  as [(e & He & Heq)|[(Hd & r' & c2 & called & rest & Hnd & _ & _ & _ & Heq)
                     |(Hd & r' & c3 & _ & Hrel & _ & Heq & Hmarked)]];
  rewrite Heq in Hrun; injection Hrun as Hr Hc Ht; try done.
subst r' c3 t. destruct (Hmarked eq_refl) as [Hsync Hmark].
split; [done|].
intros podClaim claimName mco Hin Hres.
assert (Hfirst : ∃ st1, forEach (prepareClaim nm fp w pod) (Pod.ResourceClaims pod)
                          (PrepareFrame c [] ∅ ∅ []) = (Done (), st1) ∧
                        st1 = (afterClaims nm fp w pod c).2).
{ unfold afterClaims, prepareClaims in *.
  destruct (forEach _ _ _) as [r1 st1]. cbn in Hloop. subst r1. by exists st1. }
destruct Hfirst as (st1 & Hfirst & Hst1).
destruct (forEach_done_each _ _ _ _ _ Hfirst Hin) as (s1 & s2 & Hbody).
destruct (prepareClaim_done_validated _ _ _ _ _ _ _ _ _ Hbody Hres)
  as (claim & Hget & Howner & Hrsv).
exists claim. split_and!; [done..|]. intros Hused.
assert (Hdef : claim ∈ p_deferred (afterClaims nm fp w pod c).2).
{ rewrite <- Hst1. by eapply prepareClaims_deferred. }
destruct (pi_deferred _ _ _ Hinv claim Hdef) as (info1 & Hk1 & Hu1).
destruct (related_lookup _ _ _ _ _ Hrel Hk1) as (info' & Hk' & Hid & Hu & Hkeep).
exists info'. split_and!; [done|by rewrite Hu|]. intros Huniq.
destruct (ClaimInfo.prepared info1) eqn:Hp1; [auto|].
destruct (pi_queued _ _ _ Hinv claim info1 Hdef Hk1 Hp1) as [[claim2 Hrc] _].
destruct (pi_resourceClaims _ _ _ Hinv _ _ Hrc) as (info2 & Hk2 & Huid2 & _).
pose proof (related_advanced_unique _ _ Hrel Huniq _ _ _ _ Hk2 Hk1 Huid2) as Hsame.
destruct (Hmark (ClaimInfo.ClaimUID info1, claim2)) as (info3 & Hk3 & Hp3).
{ by apply fair_rangeMap. }
cbn in Hk3. rewrite Hsame, Hk' in Hk3. by injection Hk3 as <-.
Qed.
End PrepareDone.

(** X10: after a call of [PrepareResources] that succeeds, the checkpoint
    is written, and every claim a claim reference of the pod names was
    returned by the API server and is reserved for the pod; when a
    container of the pod uses the reference, the claim has a record that
    holds the reference of the pod, and the record is prepared when the
    claim UIDs of the cache are distinct. *)
Theorem successful_prepare_prepares_used_claims nm fp w pod c c' t
    podClaim claimName mustCheckOwner :
  fair_range w → filed_by_name c →
  PrepareResources nm fp w pod c = (Done (), c', t) →
  podClaim ∈ Pod.ResourceClaims pod →
  nm pod podClaim = Resolved (Some claimName) mustCheckOwner →
  syncToCheckpoint w c' = true ∧
  ∃ claim, kubeGet w (Pod.Namespace pod) claimName = Some claim ∧
    IsReservedForPod pod claim = true ∧
    (claimIsUsedByPod podClaim pod = true →
       ∃ info', c' !! keyOf claim = Some info' ∧
         Pod.UID pod ∈ ClaimInfo.PodUIDs info' ∧
         (uid_unique c' → ClaimInfo.prepared info' = true)).
Proof.
  intros Hfair Hfiled Hrun Hin Hres.
  destruct (PrepareResources_done_claims nm fp w pod c c' t Hfair Hfiled Hrun) as [Hsync Hall].
  split; [done|].
  destruct (Hall podClaim claimName mustCheckOwner Hin Hres) as (claim & Hget & _ & Hrsv & Hrec).
  by exists claim.
Qed.

Lemma successful_prepare_prepares_used_claims_witness :
  syncToCheckpoint Example.world Example.firstPrepare.1.2 = true ∧
  ∃ claim, kubeGet Example.world (Pod.Namespace Example.pod1) "claim-a" = Some claim ∧
    IsReservedForPod Example.pod1 claim = true ∧
    (claimIsUsedByPod Example.refA Example.pod1 = true →
       ∃ info', Example.firstPrepare.1.2 !! keyOf claim = Some info' ∧
         Pod.UID Example.pod1 ∈ ClaimInfo.PodUIDs info' ∧
         (uid_unique Example.firstPrepare.1.2 → ClaimInfo.prepared info' = true)).
Proof.
  apply (successful_prepare_prepares_used_claims Example.resolveBySource Example.ownedByAll
           Example.world Example.pod1 ∅ Example.firstPrepare.1.2 Example.firstPrepare.2
           Example.refA "claim-a"%string false).
  - apply fair_range_world.
  - intros key info Hk. by rewrite lookup_empty in Hk.
  - vm_compute. reflexivity.
  - apply list_elem_of_here.
  - reflexivity.
Defined.

(** A pod that holds a reference adds nothing by adding it again. *)
Lemma addPodReference_held uid info :
  uid ∈ ClaimInfo.PodUIDs info → addPodReference uid info = info.
Proof.
  intros Hin. destruct info as [u n ns d hs uids devs p]. unfold addPodReference, withPodUIDs.
  cbn in *. f_equal. apply subseteq_union_1_L. by apply singleton_subseteq_l.
Qed.

(** The locked section changes nothing for a prepared record that holds
    the reference of the pod. *)
Lemma prepareLocked_settled pod claim st info :
  p_cache st !! keyOf claim = Some info → ClaimInfo.prepared info = true →
  Pod.UID pod ∈ ClaimInfo.PodUIDs info →
  prepareLocked pod claim st = (Done (), st).
Proof.
  intros Hk Hp Hu.
  destruct (prepareLocked_run pod claim st) as (st' & -> & Hc & Hr & Hd & Hrc & Hb).
  assert (Hinfo : lockedInfo pod claim (p_cache st) = info).
  { unfold lockedInfo. rewrite Hk. cbn. by apply addPodReference_held. }
  rewrite Hinfo in *. unfold isPrepared in *. rewrite Hp in *.
  rewrite insert_id in Hc by done.
  destruct st, st'. cbn in *. by subst.
Qed.

(** A loop all of whose bodies end without error, keeping [I]. *)
Lemma forEach_all_done {S A} (I : S → Prop) (body : A → M S ()) (l : list A) :
  (∀ x s, x ∈ l → I s → ∃ s', body x s = (Done (), s') ∧ I s') →
  ∀ s, I s → ∃ s', forEach body l s = (Done (), s') ∧ I s'.
Proof.
  induction l as [|x l IH]; intros Hbody s Hs; [by exists s|].
  cbn. munfold. destruct (Hbody x s (list_elem_of_here _ _) Hs) as (s1 & -> & Hs1).
  apply IH; [|done]. intros y s' Hin. apply Hbody. by apply list_elem_of_further.
Qed.

(** X11: a call of [PrepareResources] that follows a successful one for
    the same pod, with the API server returning the same claims, calls no
    plugin; when its checkpoint is written it succeeds and leaves the
    cache as the first call left it.  The records are filed under their
    own name and the first call leaves distinct claim UIDs. *)
Theorem successful_prepare_is_idempotent nm fp w w' pod c c' t :
  fair_range w → fair_range w' → filed_by_name c →
  PrepareResources nm fp w pod c = (Done (), c', t) → uid_unique c' →
  (∀ claimName, kubeGet w' (Pod.Namespace pod) claimName =
                kubeGet w (Pod.Namespace pod) claimName) →
  (PrepareResources nm fp w' pod c').2 = [] ∧
  (syncToCheckpoint w' c' = true → PrepareResources nm fp w' pod c' = (Done (), c', [])).
Proof.
  intros Hfair Hfair' Hfiled Hrun Huniq Hsame.
  destruct (PrepareResources_done_claims nm fp w pod c c' t Hfair Hfiled Hrun) as [_ Hall].
  pose proof (PrepareResources_done_claims_loop nm fp w pod c c' t Hrun) as Hloop.
  assert (Hresolved : ∀ podClaim, podClaim ∈ Pod.ResourceClaims pod →
                        nm pod podClaim ≠ ResolveFailed).
  { intros podClaim Hin Hres. unfold afterClaims, prepareClaims in Hloop.
    destruct (forEach _ _ _) as [r1 st1] eqn:Hfirst in Hloop. cbn in Hloop. subst r1.
    destruct (forEach_done_each _ _ _ _ _ Hfirst Hin) as (s1 & s2 & Hbody).
    unfold prepareClaim in Hbody. by rewrite Hres in Hbody. }
  set (I := λ st, p_cache st = c' ∧ p_rpcs st = [] ∧ p_batches st = ∅ ∧
                  p_resourceClaims st = ∅).
  destruct (forEach_all_done I (prepareClaim nm fp w' pod) (Pod.ResourceClaims pod))
    with (s := PrepareFrame c' [] ∅ ∅ []) as (st1 & Hst1 & Hc & Hr & Hb & Hrc); [|done|].
  { intros podClaim st Hin (Hc & Hr & Hb & Hrc). unfold prepareClaim.
    pose proof (Hresolved podClaim Hin) as Hres.
    pose proof (Hall podClaim) as Hclaim.
    destruct (nm pod podClaim) as [|[claimName|] mco]; [done| |by exists st].
    destruct (Hclaim claimName mco Hin eq_refl) as (claim & Hget & Howner & Hrsv & Hrec).
    rewrite Hsame, Hget, Hrsv. cbn.
    assert (Hown : mco && negb (fp pod claim) = false).
    { destruct mco; [|done]. by rewrite Howner. }
    rewrite Hown.
    destruct (claimIsUsedByPod podClaim pod); cbn; [|by exists st].
    destruct (Hrec eq_refl) as (info' & Hk' & Hu & Hp).
    munfold. exists (p_defer claim st). split; [|done].
    apply (prepareLocked_settled pod claim (p_defer claim st) info'); cbn; [congruence|auto..]. }
  assert (Hempty : ∀ A, rangeMap w' (∅ : gmap string A) = []).
  { intros A. unfold rangeMap. rewrite map_to_list_empty. apply Permutation_nil_r, Hfair'. }
  assert (Hcall : PrepareResources nm fp w' pod c' =
                  (if syncToCheckpoint w' c' then Done () else Failed ErrCheckpoint,
                   if syncToCheckpoint w' c' then c' else runDeferred pod (p_deferred st1) c',
                   [])).
  { unfold PrepareResources, prepareBody, prepareClaims, markPrepared. munfold.
    rewrite Hst1. rewrite Hb, Hempty. cbn. rewrite Hrc, Hempty. cbn. rewrite Hc.
    destruct (syncToCheckpoint w' c'); cbn; by rewrite ?Hc, Hr. }
  rewrite Hcall. split; [done|]. by intros ->.
Qed.

Lemma successful_prepare_is_idempotent_witness :
  PrepareResources Example.resolveBySource Example.ownedByAll Example.world Example.pod1
    Example.firstPrepare.1.2 = (Done (), Example.firstPrepare.1.2, []).
Proof.
  destruct (successful_prepare_is_idempotent Example.resolveBySource Example.ownedByAll
              Example.world Example.world Example.pod1 ∅
              Example.firstPrepare.1.2 Example.firstPrepare.2) as [_ Hdone].
  - apply fair_range_world.
  - apply fair_range_world.
  - intros key info Hk. by rewrite lookup_empty in Hk.
  - vm_compute. reflexivity.
  - intros key1 key2 info1 info2 Hk1 Hk2 _.
    assert (Hkeys : ∀ key info,
              Example.firstPrepare.1.2 !! key = Some info →
              key = ("default", "claim-a")%string).
    { intros key info Hk.
      destruct (decide (key = ("default", "claim-a")%string)) as [|Hne]; [done|].
      exfalso. revert Hk.
      replace Example.firstPrepare.1.2
        with ({[ ("default", "claim-a")%string :=
                   ClaimInfo.mk "uid-a" "claim-a" "default" "driver-a" [Example.handle]
                     {["pod-1"]} {["driver-a" := ["device-0"]]} true ]}%string
              : claimInfoCache)
        by (vm_compute; reflexivity).
      by rewrite lookup_singleton_ne. }
    by rewrite (Hkeys _ _ Hk1), (Hkeys _ _ Hk2).
  - done.
  - apply Hdone. reflexivity.
Defined.

(** X12: after a call of [PrepareResources] that succeeds, [GetResources]
    returns the container information, not an error, for every init
    container and container of the pod, provided the API server returns
    each claim under the namespace and name it was asked for. *)
Theorem prepared_pod_gets_its_resources nm fp annotationsAsList cdiDevicesAsList
    w pod c c' t container :
  fair_range w → filed_by_name c →
  PrepareResources nm fp w pod c = (Done (), c', t) →
  (∀ claimName claim, kubeGet w (Pod.Namespace pod) claimName = Some claim →
     keyOf claim = (Pod.Namespace pod, claimName)) →
  container ∈ Pod.InitContainers pod ++ Pod.Containers pod →
  ∃ info, GetResources nm annotationsAsList cdiDevicesAsList pod container c' = (Done info, c').
Proof.
  intros Hfair Hfiled Hrun Hnamed Hcontainer.
  destruct (PrepareResources_done_claims nm fp w pod c c' t Hfair Hfiled Hrun) as [_ Hall].
  pose proof (PrepareResources_done_claims_loop nm fp w pod c c' t Hrun) as Hloop.
  assert (Hdone : ∃ info,
            (GetResources nm annotationsAsList cdiDevicesAsList pod container c').1 = Done info).
  { apply GetResources_done_iff. split.
    - intros podClaim Hin Hres. unfold afterClaims, prepareClaims in Hloop.
      destruct (forEach _ _ _) as [r1 st1] eqn:Hfirst in Hloop. cbn in Hloop. subst r1.
      destruct (forEach_done_each _ _ _ _ _ Hfirst Hin) as (s1 & s2 & Hbody).
      unfold prepareClaim in Hbody. by rewrite Hres in Hbody.
    - intros podClaim claimName mco Hin Hres Hlisted.
      destruct (Hall podClaim claimName mco Hin Hres) as (claim & Hget & _ & _ & Hrec).
      destruct Hrec as (info' & Hk' & _).
      + apply claimIsUsedByPod_listed. by exists container.
      + rewrite <- (Hnamed _ _ Hget). by eexists. }
  destruct Hdone as [info Hinfo]. exists info.
  pose proof (GetResources_cache nm annotationsAsList cdiDevicesAsList pod container c') as Hc.
  destruct (GetResources _ _ _ _ _ _) as [r c2]. cbn in *. by subst.
Qed.

Lemma prepared_pod_gets_its_resources_witness :
  ∃ info, GetResources Example.resolveBySource (λ _, []) (λ _, []) Example.pod1
            Example.container Example.firstPrepare.1.2 = (Done info, Example.firstPrepare.1.2).
Proof.
  apply (prepared_pod_gets_its_resources Example.resolveBySource Example.ownedByAll
           (λ _, []) (λ _, []) Example.world Example.pod1 ∅
           Example.firstPrepare.1.2 Example.firstPrepare.2 Example.container).
  - apply fair_range_world.
  - intros key info Hk. by rewrite lookup_empty in Hk.
  - vm_compute. reflexivity.
  - intros claimName claim. cbn. repeat case_decide; intros [= <-]; by subst.
  - apply list_elem_of_here.
Defined.

(** ** A claim with more than one resource handle *)




Section PrepareQueue.
Context (nm : Pod.t → PodResourceClaim.t → resolved) (fp : Pod.t → ResourceClaim.t → bool).
Context (w : World) (pod : Pod.t).



End PrepareQueue.




(** ** Sharing a claim between pods *)

(** X14: however many calls of [PrepareResources] follow one another, each
    on the cache the one before left, none of them sends a request for a
    claim whose record is prepared.  The records are filed under their
    own name. *)
Theorem prepared_claim_is_not_prepared_again nm fp calls c key info call :
  Forall (λ each, fair_range each.1) calls → filed_by_name c →
  c !! key = Some info → ClaimInfo.prepared info = true →
  call ∈ prepareAll nm fp calls c → ¬ requests key call.
Proof. apply prepareAll_prepared_skipped. Qed.

Lemma prepared_claim_is_not_prepared_again_witness :
  Forall (λ call, ¬ requests ("default", "claim-a")%string call)
    (prepareAll Example.resolveBySource Example.ownedByAll
       [(Example.world, Example.pod2); (Example.world, Example.pod1)]
       (Example.heldBy {["pod-1"]}%string)).
Proof.
  apply Forall_forall. intros call Hcall.
  apply (prepared_claim_is_not_prepared_again Example.resolveBySource Example.ownedByAll
           [(Example.world, Example.pod2); (Example.world, Example.pod1)]
           (Example.heldBy {["pod-1"]}%string) ("default", "claim-a")%string
           (ClaimInfo.mk "uid-a" "claim-a" "default" "driver-a" [Example.handle]
              {["pod-1"]} ∅ true)%string call).
  - repeat constructor; apply fair_range_world.
  - apply heldBy_filed.
  - vm_compute. reflexivity.
  - reflexivity.
  - exact Hcall.
Defined.

(** X15: a call of [UnprepareResources] for a pod whose claim references
    resolve to distinct claims sends no request for a record that more
    than one pod holds: the record stays, with at most the reference of
    the pod removed, and exactly that reference removed when the call
    succeeds and the pod names the claim; and every record the call sends
    a request for was held by at most one pod.  The records are filed
    under their own name. *)
Theorem shared_claim_outlives_unprepare nm w pod c r c' t key info :
  fair_range w → filed_by_name c → NoDup (resolvedNames nm pod) →
  UnprepareResources nm w pod c = (r, c', t) → c !! key = Some info →
  (1 < size (ClaimInfo.PodUIDs info) →
     (∀ call, call ∈ t → ¬ requests key call) ∧
     (c' !! key = Some info ∨
      c' !! key = Some (deletePodReference (Pod.UID pod) info)) ∧
     (r = Done () → ∀ name, name ∈ resolvedNames nm pod →
        key = (Pod.Namespace pod, name) →
        c' !! key = Some (deletePodReference (Pod.UID pod) info))) ∧
  (∀ call, call ∈ t → requests key call → size (ClaimInfo.PodUIDs info) ≤ 1).
Proof.
  intros Hfair Hfiled Hdistinct Hrun Hk. split.
  - intros Hshared. by eapply UnprepareResources_shared.
  - intros call Hcall Hreq.
    destruct (UnprepareResources_request nm w pod c Hfair Hfiled Hdistinct _ _ _ _ _
                Hrun Hcall Hreq) as (info0 & Hk0 & Hsz).
    rewrite Hk in Hk0. by injection Hk0 as <-.
Qed.

Lemma shared_claim_outlives_unprepare_witness :
  (∀ call, call ∈ Example.unprepareOfTwo.2 →
     ¬ requests ("default", "claim-a")%string call) ∧
  Example.unprepareOfTwo.1.2 !! ("default", "claim-a")%string =
    Some (deletePodReference "pod-1"
            (ClaimInfo.mk "uid-a" "claim-a" "default" "driver-a" [Example.handle]
               {["pod-1"; "pod-2"]} ∅ true))%string.
Proof.
  destruct (shared_claim_outlives_unprepare Example.resolveBySource Example.world Example.pod1
              (Example.heldBy {["pod-1"; "pod-2"]}%string)
              Example.unprepareOfTwo.1.1 Example.unprepareOfTwo.1.2 Example.unprepareOfTwo.2
              ("default", "claim-a")%string
              (ClaimInfo.mk "uid-a" "claim-a" "default" "driver-a" [Example.handle]
                 {["pod-1"; "pod-2"]} ∅ true)%string)
    as [Hshared _].
  - apply fair_range_world.
  - apply heldBy_filed.
  - vm_compute. repeat constructor. intros Hin. by apply elem_of_nil in Hin.
  - vm_compute. reflexivity.
  - vm_compute. reflexivity.
  - destruct Hshared as (Hnone & _ & Hgone); [vm_compute; lia|]. split; [exact Hnone|].
    apply (Hgone eq_refl "claim-a"%string); [apply list_elem_of_here|reflexivity].
Defined.

(** ** What [UnprepareResources] does to the cache *)

(** X16: [UnprepareResources] does not panic and adds no record; a record
    the call leaves in the cache is the record that was there, or that
    record without the reference of the pod. *)
Theorem UnprepareResources_frame nm w pod c key :
  (UnprepareResources nm w pod c).1.1 ≠ Panicked ∧
  match (UnprepareResources nm w pod c).1.2 !! key with
  | Some info' =>
      ∃ info, c !! key = Some info ∧
        (info' = info ∨ info' = deletePodReference (Pod.UID pod) info)
  | None => True
  end.
Proof.
  destruct (UnprepareResources_run nm w pod c)
    as (r0 & seen & called & rest & keys & Heq & Hnp & _).
  destruct (UnprepareResources nm w pod c) as [[r c'] t] eqn:Hrun. cbn.
  split; [congruence|].
  destruct (c' !! key) as [info'|] eqn:Hk'; [|done].
  by apply (UnprepareResources_record _ _ _ _ _ _ _ _ _ Hrun Hk').
Qed.

(** X17: [UnprepareResources] makes no plugin call and leaves the cache as
    it is when every claim reference of the pod resolves and every cached
    claim among them is held by more than one pod, the pod itself not
    among them; this includes the pod none of whose claims is cached.
    The call still writes the checkpoint and returns its result. *)
Theorem unprepare_of_unheld_claims_is_noop nm w pod c :
  fair_range w →
  (∀ podClaim, podClaim ∈ Pod.ResourceClaims pod → nm pod podClaim ≠ ResolveFailed) →
  (∀ name info, name ∈ resolvedNames nm pod →
     c !! (Pod.Namespace pod, name) = Some info →
     1 < size (ClaimInfo.PodUIDs info) ∧ Pod.UID pod ∉ ClaimInfo.PodUIDs info) →
  UnprepareResources nm w pod c =
    (if syncToCheckpoint w c then Done () else Failed ErrCheckpoint, c, []).
Proof.
  intros Hfair Hresolved Hunheld.
  assert (Hnoop : unprepareClaims nm pod (UnprepareFrame c [] ∅ ∅) =
                  (Done (), UnprepareFrame c [] ∅ ∅)).
  { by apply unprepareClaims_noop. }
  unfold UnprepareResources, unprepareBody. munfold. rewrite Hnoop. cbn [u_batches].
  assert (Hempty : rangeMap w (∅ : gmap string (list Claim.t)) = []).
  { unfold rangeMap. rewrite map_to_list_empty. apply Permutation_nil_r, Hfair. }
  rewrite Hempty. cbn. by destruct (syncToCheckpoint w c).
Qed.

Lemma unprepare_of_unheld_claims_is_noop_witness :
  UnprepareResources Example.resolveBySource Example.world Example.pod1 ∅ = (Done (), ∅, []).
Proof.
  apply (unprepare_of_unheld_claims_is_noop Example.resolveBySource Example.world
           Example.pod1 ∅).
  - apply fair_range_world.
  - intros podClaim Hin. done.
  - intros name info _ Hk. by rewrite lookup_empty in Hk.
Defined.

Section UnprepareDeleted.
Context (w : World) (pod : Pod.t).

(** A batch whose plugin client cannot be created changes nothing. *)
Lemma unprepareBatch_refused entry st :
NewDRAPluginClient w entry.1 = false →
unprepareBatch w pod entry st = (Failed (ErrPluginClient entry.1), st).
Proof. destruct entry as [p claims]. unfold unprepareBatch. cbn. by intros ->. Qed.

(** A batch whose plugin client is created is sent. *)
Lemma unprepareBatch_called entry st :
NewDRAPluginClient w entry.1 = true →
u_rpcs (unprepareBatch w pod entry st).2 = u_rpcs st ++ [unprepareCall entry].
Proof.
destruct entry as [p claims]. unfold unprepareBatch, unprepareCall. cbn. intros ->. cbn.
munfold. cbn.
destruct (pluginUnprepare w p claims) as [response|]; [|done].
destruct (unprepareResults_run pod claims (rangeMap w response)
            (u_call (NodeUnprepareResources p claims) st)) as (_ & Hr & _).
destruct (forEach (unprepareResult pod claims) (rangeMap w response) _) as [[[]|e|] st2];
  cbn in *; [|done..].
by destruct (decide _).
Qed.

(** An entry the loop over the batches deletes was released by a batch
  the loop has sent. *)
Lemma unprepareBatches_deleted entries st key :
is_Some (u_cache st !! key) →
u_cache (forEach (unprepareBatch w pod) entries st).2 !! key = None →
∃ entry, entry ∈ entries ∧
  unprepareCall entry ∈ u_rpcs (forEach (unprepareBatch w pod) entries st).2 ∧
  released_by w pod (u_claimNames st) entry key.
Proof.
revert st. induction entries as [|entry entries IH]; intros st [info Hk].
{ cbn. congruence. }
cbn. munfold.
destruct (NewDRAPluginClient w entry.1) eqn:Hclient.
2:{ rewrite unprepareBatch_refused by done. cbn. congruence. }
pose proof (unprepareBatch_called entry st Hclient) as Hcalled.
destruct (unprepareBatch_run w pod entry st) as (_ & _ & Hn & _ & keys & Hc & Hkeys & _).
assert (Hfirst : u_cache (unprepareBatch w pod entry st).2 !! key = None →
          released_by w pod (u_claimNames st) entry key).
{ rewrite Hc, removed_lookup. destruct (decide (key ∈ keys)); [auto|congruence]. }
destruct (unprepareBatch w pod entry st) as [[[]|e|] st1]; cbn [fst snd] in *.
- destruct (unprepareBatches_run w pod entries st1)
    as (_ & _ & _ & called & rest & keys' & _ & Hr' & _).
  destruct (u_cache st1 !! key) as [info1|] eqn:Hk1.
  + intros Hgone. destruct (IH st1 (ex_intro _ info1 Hk1) Hgone) as (entry' & Hin & Hcall & Hrel).
    exists entry'. split_and!; [by apply list_elem_of_further|done|by rewrite <- Hn].
  + intros _. exists entry. split_and!.
    * apply list_elem_of_here.
    * rewrite Hr', Hcalled. apply elem_of_app. left. apply elem_of_app. right.
      apply list_elem_of_here.
    * auto.
- intros Hgone. exists entry. split_and!; [apply list_elem_of_here| |auto].
  rewrite Hcalled. apply elem_of_app. right. apply list_elem_of_here.
- intros Hgone. exists entry. split_and!; [apply list_elem_of_here| |auto].
  rewrite Hcalled. apply elem_of_app. right. apply list_elem_of_here.
Qed.
End UnprepareDeleted.

(** A record [UnprepareResources] deletes had a resource handle whose
    request a plugin call of this call carried. *)
Lemma UnprepareResources_deleted nm w pod c r c' t key info :
  fair_range w → filed_by_name c → uid_unique c →
  UnprepareResources nm w pod c = (r, c', t) →
  c !! key = Some info → c' !! key = None →
  ∃ pluginName claims h,
    NodeUnprepareResources pluginName claims ∈ t ∧
    h ∈ ClaimInfo.ResourceHandles info ∧ claimRequest info h ∈ claims ∧
    requestKey (claimRequest info h) = key ∧
    ∃ response, pluginUnprepare w pluginName claims = Some response ∧
      is_Some (response !! ClaimInfo.ClaimUID info).
Proof.
  intros Hfair Hfiled Huniq Hrun Hk Hgone.
  destruct (afterUnprepareClaims_inv nm pod c)
    as (_ & seen & rest1 & _ & Hinv & _).
  assert (Hmid : is_Some (u_cache (afterUnprepareClaims nm pod c).2 !! key)).
  { destruct (ui_cache _ _ _ _ Hinv key) as [->|[-> _]]; rewrite Hk; by eexists. }
  assert (Hbatches : c' = u_cache (forEach (unprepareBatch w pod)
                        (rangeMap w (u_batches (afterUnprepareClaims nm pod c).2))
                        (afterUnprepareClaims nm pod c).2).2 ∧
                     t = u_rpcs (forEach (unprepareBatch w pod)
                        (rangeMap w (u_batches (afterUnprepareClaims nm pod c).2))
                        (afterUnprepareClaims nm pod c).2).2 ∨
                     c' = u_cache (afterUnprepareClaims nm pod c).2).
  { revert Hrun. unfold UnprepareResources, unprepareBody. munfold.
    fold (afterUnprepareClaims nm pod c).
    destruct (afterUnprepareClaims nm pod c) as [[[]|e|] st1]; cbn [fst snd];
      [|intros [= _ <- _]; by right..].
    destruct (forEach (unprepareBatch w pod) _ st1) as [[[]|e|] st2]; cbn [fst snd];
      [|intros [= _ <- <-]; by left..].
    destruct (syncToCheckpoint w (u_cache st2)); intros [= _ <- <-]; by left. }
  destruct Hbatches as [[-> ->]| ->]; [|rewrite Hgone in Hmid; by destruct Hmid].
  destruct (unprepareBatches_deleted w pod _ _ key Hmid Hgone)
    as ([p claims] & Hentry & Hcall & response & result & Hresp & Hres & (rq & Hrq & Huid) & Hkey).
  cbn in *.
  (* the request comes from a queued record *)
  assert (Hbat : batched (u_batches (afterUnprepareClaims nm pod c).2) p rq).
  { exists claims. split; [|done]. by apply (fair_rangeMap w). }
  destruct (ui_batches _ _ _ _ Hinv p rq Hbat)
    as (name & info1 & h & _ & Hk1 & _ & Hh & -> & _ & name' & Hname).
  cbn in Huid.
  (* and the entry deleted is the record's own *)
  destruct (ui_claimNames _ _ _ _ Hinv _ _ Hname) as (name2 & info2 & _ & Hk2 & Huid2 & Hcn & _).
  pose proof (unprepare_inv_unique pod c _ _ Hinv Huniq _ _ _ _ Hk2 Hk1 Huid2) as Hsame.
  injection Hsame as ->. rewrite Hk1 in Hk2. injection Hk2 as <-.
  pose proof (unprepare_inv_filed pod c _ _ Hinv Hfiled _ _ Hk1) as Hfiled1.
  injection Hfiled1 as Hns Hnm.
  assert (Hkey1 : key = (Pod.Namespace pod, name)).
  { rewrite Hkey. unfold releasedKey. rewrite <- Huid, Hname. cbn. congruence. }
  clear Hkey. subst key.
  destruct (unprepare_inv_record pod c _ _ _ _ Hinv Hk1) as (info0 & Hk0 & Hrec).
  rewrite Hk in Hk0. injection Hk0 as <-.
  assert (Hid : identity info1 = identity info) by (destruct Hrec as [->| ->]; done).
  injection Hid as Hi1 Hi2 Hi3 Hi4 Hi5.
  assert (Hreq : claimRequest info1 h = claimRequest info h).
  { unfold claimRequest. by rewrite Hi1, Hi2, Hi3. }
  exists p, claims, h. split_and!.
  - exact Hcall.
  - by rewrite <- Hi5.
  - by rewrite <- Hreq.
  - rewrite requestKey_claimRequest. rewrite <- Hi2, <- Hi3. congruence.
  - exists response. split; [done|]. destruct result as [uid answer]. cbn in *.
    apply (fair_rangeMap w) in Hres; [|done]. rewrite <- Hi1, Huid. by eexists.
Qed.

(** X18: [UnprepareResources] deletes a record only when the record has a
    resource handle, a plugin call of this call carried a request for the
    claim, and the response of the plugin named the claim.  The records
    are filed under their own name and carry distinct claim UIDs. *)
Theorem unprepare_deletes_only_released_records nm w pod c r c' t key info :
  fair_range w → filed_by_name c → uid_unique c →
  UnprepareResources nm w pod c = (r, c', t) →
  c !! key = Some info → c' !! key = None →
  ClaimInfo.ResourceHandles info ≠ [] ∧
  ∃ pluginName claims response,
    NodeUnprepareResources pluginName claims ∈ t ∧
    requests key (NodeUnprepareResources pluginName claims) ∧
    pluginUnprepare w pluginName claims = Some response ∧
    is_Some (response !! ClaimInfo.ClaimUID info).
Proof.
  intros Hfair Hfiled Huniq Hrun Hk Hgone.
  destruct (UnprepareResources_deleted _ _ _ _ _ _ _ _ _ Hfair Hfiled Huniq Hrun Hk Hgone)
    as (p & claims & h & Hcall & Hh & Hrq & Hkey & response & Hresp & Hnamed).
  split.
  - intros Hnone. rewrite Hnone in Hh. by apply elem_of_nil in Hh.
  - exists p, claims, response. split_and!; [done| |done|done].
    by exists (claimRequest info h).
Qed.

Lemma unprepare_deletes_only_released_records_witness :
  ClaimInfo.ResourceHandles
    (ClaimInfo.mk "uid-a" "claim-a" "default" "driver-a" [Example.handle]
       {["pod-1"]} ∅ true)%string ≠ [] ∧
  ∃ pluginName claims response,
    NodeUnprepareResources pluginName claims ∈ Example.unprepareOfOne.2 ∧
    requests ("default", "claim-a")%string (NodeUnprepareResources pluginName claims) ∧
    pluginUnprepare Example.world pluginName claims = Some response ∧
    is_Some (response !! ClaimInfo.ClaimUID
               (ClaimInfo.mk "uid-a" "claim-a" "default" "driver-a" [Example.handle]
                  {["pod-1"]} ∅ true)%string).
Proof.
  apply (unprepare_deletes_only_released_records Example.resolveBySource Example.world
           Example.pod1 (Example.heldBy {["pod-1"]}%string)
           Example.unprepareOfOne.1.1 Example.unprepareOfOne.1.2 Example.unprepareOfOne.2).
  - apply fair_range_world.
  - apply heldBy_filed.
  - apply heldBy_unique.
  - vm_compute. reflexivity.
  - vm_compute. reflexivity.
  - vm_compute. reflexivity.
Defined.
